(** * Salted joins (ons-spark, spark-concepts/salted_joins.md)

    The PySpark cells of the salted-join page call a handful of DataFrame
    operations (withColumn, crossJoin, drop, join, groupBy/count) and
    column functions (F.col, F.lit, F.concat, F.floor, F.rand, F.round).
    This development gives those operations a list-based semantics and
    states the datasets of the page (skewed_df, salt_df, small_df_salted,
    joined_df, salted_join_df) with them, cell by cell.

    A double is the rational it stands for, and every operation on
    doubles rounds its exact result to the nearest double (53 bits, ties
    to even).  F.rand draws per partition, as Spark does: the generator
    of a partition is seeded with the seed plus the index of the
    partition.  The statements hold for every generator that draws in
    [0, 1); Spark's own generator is given too and reproduces the
    salted keys the page prints.

    Spark resolves column names without regard to letter case; names are
    compared exactly here, which is the same on names that do not differ
    by case only.  Where a statement rests on a name being absent, it
    asks for the name to be absent in every spelling ([same_name]). *)

From Stdlib Require Import List Bool Arith ZArith QArith Qround Qabs Qpower.
From Stdlib Require Import Lia Lqa.
From Stdlib Require Import Strings.String Strings.Ascii.
From Stdlib Require Import Numbers.DecimalString Numbers.DecimalZ.
From Stdlib Require Import Sorting.Permutation.
Import ListNotations.

Local Open Scope string_scope.
Local Open Scope list_scope.
Local Open Scope Z_scope.

(** ** Cell values *)

Inductive value : Type :=
| VNull
| VStr (s : string)
| VLong (z : Z)
| VDouble (q : Q).

Definition Row := list value.

Record DataFrame : Type := mkDF { columns : list string; rows : list Row }.

Definition Q_eq_dec (a b : Q) : {a = b} + {a <> b}.
Proof.
  destruct a as [an ad], b as [bn bd].
  destruct (Z.eq_dec an bn) as [->|Hn]; [|right; congruence].
  destruct (Pos.eq_dec ad bd) as [->|Hd]; [left; reflexivity|right; congruence].
Defined.

Definition value_eq_dec (a b : value) : {a = b} + {a <> b}.
Proof.
  decide equality; [apply string_dec | apply Z.eq_dec | apply Q_eq_dec].
Defined.

Definition value_eqb (a b : value) : bool :=
  if value_eq_dec a b then true else false.

(** An equality join never matches a null key. *)
Definition key_match (a b : value) : bool :=
  match a with
  | VNull => false
  | _ => value_eqb a b
  end.

(** ** Rendering as text (the implicit cast of F.concat) *)

Definition string_of_Z (z : Z) : string :=
  NilEmpty.string_of_int (Z.to_int z).

(** Integers and text are rendered; a null has no rendering.  The page
    concatenates text and integer columns only; a double operand is left
    without rendering, and no statement reads the salted key of a key
    that is a double. *)
Definition cast_string (v : value) : option string :=
  match v with
  | VNull => None
  | VStr s => Some s
  | VLong z => Some (string_of_Z z)
  | VDouble _ => None
  end.

(** F.concat on the values of one row: null as soon as one operand is. *)
Fixpoint concat_values (vs : list value) : option string :=
  match vs with
  | [] => Some ""
  | v :: vs' =>
      match cast_string v, concat_values vs' with
      | Some s, Some t => Some (s ++ t)%string
      | _, _ => None
      end
  end.

Definition value_of_text (o : option string) : value :=
  match o with
  | Some s => VStr s
  | None => VNull
  end.

(** The shape "A-0", "A-1", ... of the comment in the skewed_df cell. *)
Definition salted_key (k : string) (i : Z) : string :=
  (k ++ "-" ++ string_of_Z i)%string.

(** ** 64-bit integers *)

Definition min_long : Z := - 2 ^ 63.
Definition max_long : Z := 2 ^ 63 - 1.

Definition wrap64 (z : Z) : Z := (z + 2 ^ 63) mod 2 ^ 64 - 2 ^ 63.

(** Conversion of a double to a long saturates. *)
Definition long_of_Q (q : Q) : Z :=
  Z.max min_long (Z.min max_long (Qfloor q)).

(** ** Doubles *)

(** The exponent e of a positive rational: 2^e <= q < 2^(e+1). *)
Definition ilog2 (q : Q) : Z :=
  let k := Z.log2 (Qnum q) - Z.log2 (Zpos (Qden q)) in
  if Qle_bool (2 ^ k) q then k else k - 1.

(** The nearest integer, a tie going to the even one. *)
Definition round_half_even (q : Q) : Z :=
  let f := Qfloor q in
  match (q - inject_Z f ?= 1 # 2)%Q with
  | Lt => f
  | Gt => f + 1
  | Eq => if Z.even f then f else f + 1
  end.

(** The distance of the doubles around q: 53 bits of mantissa, and the
    fixed distance 2^-1074 below 2^-1022. *)
Definition ulp (q : Q) : Q :=
  (2 ^ (Z.max (ilog2 (Qabs q)) (-1022) - 52))%Q.

(** The double nearest to a rational.  The exponent is not bounded
    above: a result beyond the largest double, which Spark gives as
    Infinity, is out of the model. *)
Definition round_double (q : Q) : Q :=
  if Qeq_bool q 0 then 0%Q
  else Qred (inject_Z (round_half_even (q / ulp q)) * ulp q)%Q.

(** The cast of a long to a double. *)
Definition double_of_long (z : Z) : Q := round_double (inject_Z z).

(** java.util.Random.nextDouble: 53 bits of the draw, times 2^-53. *)
Definition double_of_draw (q : Q) : Q :=
  Qred (inject_Z (Qfloor (q * 9007199254740992)) / 9007199254740992)%Q.

(** ** Numeric operators *)

(** The number a cell stands for, exactly (comparisons). *)
Definition to_Q (v : value) : option Q :=
  match v with
  | VLong z => Some (inject_Z z)
  | VDouble q => Some q
  | _ => None
  end.

(** The operand of an operation on doubles: a long is cast. *)
Definition to_double (v : value) : option Q :=
  match v with
  | VLong z => Some (double_of_long z)
  | VDouble q => Some q
  | _ => None
  end.

(** The operator *: on two longs it wraps around, else it works on
    doubles. *)
Definition mul_values (a b : value) : value :=
  match a, b with
  | VLong x, VLong y => VLong (wrap64 (x * y))
  | _, _ =>
      match to_double a, to_double b with
      | Some x, Some y => VDouble (round_double (x * y))
      | _, _ => VNull
      end
  end.

(** The operator / always works on doubles; a zero divisor gives null. *)
Definition div_values (a b : value) : value :=
  match to_double a, to_double b with
  | Some x, Some y =>
      if Qeq_bool y 0%Q then VNull else VDouble (round_double (x / y))
  | _, _ => VNull
  end.

Definition floor_value (a : value) : value :=
  match a with
  | VLong z => VLong z
  | VDouble q => VLong (long_of_Q q)
  | _ => VNull
  end.

(** Rounding a decimal to [d] decimals, halves away from zero. *)
Definition round_half_up (q : Q) (d : nat) : Q :=
  let p := inject_Z (10 ^ Z.of_nat d) in
  if Qle_bool 0%Q q
  then Qred (inject_Z (Qfloor (q * p + (1 # 2))%Q) / p)%Q
  else Qred (- (inject_Z (Qfloor (- q * p + (1 # 2))%Q) / p))%Q.

(** Whether the decimal [c] is read as the double [q]. *)
Definition reads_back (q c : Q) : bool := Qeq_bool (round_double c) q.

(** The decimals with last digit at 10^j next to q, tried from coarse to
    fine: the first that reads back as q is the shortest. *)
Fixpoint shortest_from (fuel : nat) (q : Q) (j : Z) : Q :=
  match fuel with
  | O => q
  | S fuel' =>
      let step := (10 ^ j)%Q in
      let lo := (inject_Z (Qfloor (q / step)) * step)%Q in
      let hi := (lo + step)%Q in
      match reads_back q lo, reads_back q hi with
      | true, true => if Qle_bool (q - lo) (hi - q) then lo else hi
      | true, false => lo
      | false, true => hi
      | false, false => shortest_from fuel' q (j - 1)
      end
  end.

(** The number that the text of a double (Double.toString) shows: the
    shortest decimal that reads back as the double. *)
Definition shortest_decimal (q : Q) : Q :=
  let a := Qabs q in
  let s := shortest_from 40 a ((ilog2 a + 1) * 30103 / 100000 + 2) in
  Qred (if Qle_bool 0 q then s else - s).

(** F.round on a double: the decimal text of the double, rounded half up
    at [d] decimals, read as a double again. *)
Definition round_decimals (q : Q) (d : nat) : Q :=
  round_double (round_half_up (shortest_decimal q) d).

Definition round_value (d : nat) (a : value) : value :=
  match a with
  | VLong z => VLong z
  | VDouble q => VDouble (round_decimals q d)
  | _ => VNull
  end.

(** ** Rows and schemas

    A row is read against the column names of its DataFrame. *)

Definition has_name (name : string) (names : list string) : bool :=
  existsb (String.eqb name) names.

(** A name resolves when exactly one column carries it: a missing or an
    ambiguous reference is refused at analysis time. *)
Definition resolves (name : string) (cols : list string) : bool :=
  (count_occ string_dec cols name =? 1)%nat.

(** Spark's resolver compares names ignoring case, where [has_name] and
    [resolves] compare them exactly; the two agree on a name that no
    other name in sight matches up to case.  [same_name a b]: the
    resolver may take [a] and [b] for one another, that is, they are
    equal once the letters A to Z are put in lower case, or one of them
    holds a character outside ASCII, whose case is not followed here. *)
Definition lower_char (c : ascii) : ascii :=
  let n := nat_of_ascii c in
  if (65 <=? n)%nat && (n <=? 90)%nat then ascii_of_nat (n + 32) else c.

Fixpoint lower_text (s : string) : string :=
  match s with
  | EmptyString => EmptyString
  | String c s' => String (lower_char c) (lower_text s')
  end.

Fixpoint ascii_text (s : string) : bool :=
  match s with
  | EmptyString => true
  | String c s' => (nat_of_ascii c <? 128)%nat && ascii_text s'
  end.

Definition same_name (a b : string) : bool :=
  String.eqb (lower_text a) (lower_text b)
  || negb (ascii_text a && ascii_text b).

Definition has_same_name (name : string) (names : list string) : bool :=
  existsb (same_name name) names.

(** No name of [keys] meets another spelling of itself in [names]. *)
Definition case_free (keys names : list string) : bool :=
  forallb
    (fun k => forallb (fun n => implb (same_name k n) (String.eqb k n)) names)
    keys.

Fixpoint get (cols : list string) (r : Row) (name : string) : value :=
  match cols, r with
  | c :: cs, v :: vs => if String.eqb name c then v else get cs vs name
  | _, _ => VNull
  end.

Definition drop_names (names cols : list string) : list string :=
  filter (fun c => negb (has_name c names)) cols.

Fixpoint drop_row (names cols : list string) (r : Row) : Row :=
  match cols, r with
  | c :: cs, v :: vs =>
      if has_name c names then drop_row names cs vs
      else v :: drop_row names cs vs
  | _, _ => []
  end.

Fixpoint set_row (name : string) (cols : list string) (r : Row) (v : value)
  : Row :=
  match cols, r with
  | c :: cs, x :: xs =>
      (if String.eqb name c then v else x) :: set_row name cs xs v
  | _, _ => []
  end.

(** Rows paired with their position, which is what F.rand draws from. *)
Definition indexed {A : Type} (l : list A) : list (nat * A) :=
  combine (seq 0 (List.length l)) l.

Definition column (name : string) (df : DataFrame) : list value :=
  map (fun r => get (columns df) r name) (rows df).

(** ** Column expressions

    A column expression is resolved against a schema first (None: the
    analysis fails), then evaluated at every row and row position. *)

Definition Column : Type := list string -> option (nat -> Row -> value).

Definition F_col (name : string) : Column :=
  fun cols =>
    if resolves name cols then Some (fun _ r => get cols r name) else None.

Definition F_lit (v : value) : Column :=
  fun _ => Some (fun _ _ => v).

Definition lift1 (f : value -> value) (a : Column) : Column :=
  fun cols =>
    match a cols with
    | Some fa => Some (fun i r => f (fa i r))
    | None => None
    end.

Definition lift2 (f : value -> value -> value) (a b : Column) : Column :=
  fun cols =>
    match a cols, b cols with
    | Some fa, Some fb => Some (fun i r => f (fa i r) (fb i r))
    | _, _ => None
    end.

Fixpoint resolve_all (cs : list Column) (cols : list string)
  : option (list (nat -> Row -> value)) :=
  match cs with
  | [] => Some []
  | c :: cs' =>
      match c cols, resolve_all cs' cols with
      | Some f, Some fs => Some (f :: fs)
      | _, _ => None
      end
  end.

Definition F_concat (cs : list Column) : Column :=
  fun cols =>
    match resolve_all cs cols with
    | Some fs =>
        Some (fun i r => value_of_text (concat_values (map (fun f => f i r) fs)))
    | None => None
    end.

Definition F_floor : Column -> Column := lift1 floor_value.
Definition F_round (a : Column) (d : nat) : Column := lift1 (round_value d) a.
Definition col_mul : Column -> Column -> Column := lift2 mul_values.
Definition col_div : Column -> Column -> Column := lift2 div_values.

(** ** DataFrame operations *)

Definition withColumn (name : string) (c : Column) (df : DataFrame)
  : option DataFrame :=
  match c (columns df) with
  | None => None
  | Some f =>
      if has_name name (columns df)
      then Some (mkDF (columns df)
                   (map (fun p => set_row name (columns df) (snd p)
                                    (f (fst p) (snd p)))
                      (indexed (rows df))))
      else Some (mkDF (columns df ++ [name])
                   (map (fun p => snd p ++ [f (fst p) (snd p)])
                      (indexed (rows df))))
  end.

Definition crossJoin (l r : DataFrame) : DataFrame :=
  mkDF (columns l ++ columns r)
    (flat_map (fun a => map (fun b => a ++ b) (rows r)) (rows l)).

Definition drop (names : list string) (df : DataFrame) : DataFrame :=
  mkDF (drop_names names (columns df))
    (map (drop_row names (columns df)) (rows df)).

Definition select (names : list string) (df : DataFrame) : option DataFrame :=
  if forallb (fun n => resolves n (columns df)) names
  then Some (mkDF names
               (map (fun r => map (get (columns df) r) names) (rows df)))
  else None.

(** spark.range(n): one column id holding 0 .. n-1. *)
Definition spark_range (n : Z) : DataFrame :=
  mkDF ["id"] (map (fun i => [VLong (Z.of_nat i)]) (seq 0 (Z.to_nat n))).

Inductive how : Type := how_inner | how_left.

(** The rows one left row contributes to a join on one named column: the
    key once, then the other columns of the left row, then those of each
    matching right row; without a match a left join pads with nulls. *)
Definition join_rows (h : how) (lc rc : list string) (on : string)
  (rrows : list Row) (l : Row) : list Row :=
  let k := get lc l on in
  let rest := drop_row [on] lc l in
  match filter (fun r => key_match k (get rc r on)) rrows with
  | [] =>
      match h with
      | how_inner => []
      | how_left =>
          [k :: rest ++ repeat VNull (List.length (drop_names [on] rc))]
      end
  | ms => map (fun r => k :: rest ++ drop_row [on] rc r) ms
  end.

Definition join (l r : DataFrame) (on : string) (h : how)
  : option DataFrame :=
  if resolves on (columns l) && resolves on (columns r)
  then Some (mkDF
               (on :: drop_names [on] (columns l)
                   ++ drop_names [on] (columns r))
               (flat_map (join_rows h (columns l) (columns r) on (rows r))
                  (rows l)))
  else None.

(** groupBy(name).count() *)
Definition groupBy_count (name : string) (df : DataFrame)
  : option DataFrame :=
  if resolves name (columns df)
  then
    let keys := column name df in
    Some (mkDF [name; "count"]
            (map (fun k =>
                    [k; VLong (Z.of_nat (count_occ value_eq_dec keys k))])
               (nodup value_eq_dec keys)))
  else None.

(** ** The cells of the page *)

(** The rows of a DataFrame lie in partitions, one after the other;
    [layout] lists the sizes of the partitions.  [locate layout i]: the
    index of the partition of the row at position [i] and the place of
    the row in it.  Rows beyond the sizes listed lie in one last
    partition. *)
Fixpoint locate (layout : list nat) (i : nat) : nat * nat :=
  match layout with
  | [] => (0%nat, i)
  | s :: rest =>
      if (i <? s)%nat then (0%nat, i)
      else let (p, k) := locate rest (i - s) in (S p, k)
  end.

Section SaltedJoin.

(** [rand seed n]: the draw number [n], counted from 0, of a generator
    seeded with [seed]. *)
Variable rand : Z -> nat -> Q.

(** The partitions of the DataFrame F.rand is evaluated on. *)
Variable layout : list nat.

(** The double F.rand(seed) gives the row at position [i]: the generator
    of a partition is seeded with the seed plus the index of the
    partition, and the rows of the partition take its draws in order. *)
Definition draw (seed : Z) (i : nat) : Q :=
  double_of_draw
    (rand (seed + Z.of_nat (fst (locate layout i))) (snd (locate layout i))).

Definition F_rand (seed : Z) : Column :=
  fun _ => Some (fun i _ => VDouble (draw seed i)).

(** skewed_df = skewed_df.withColumn("salted_col", F.concat(...)) *)
Definition skewed_df_salted (seed_no salt_count : Z) (skewed_df : DataFrame)
  : option DataFrame :=
  withColumn "salted_col"
    (F_concat [F_col "join_col";
               F_lit (VStr "-");
               F_floor (col_mul (F_rand seed_no) (F_lit (VLong salt_count)))])
    skewed_df.

(** salt_df = spark.range(salt_count) *)
Definition salt_df (salt_count : Z) : DataFrame := spark_range salt_count.

(** small_df.crossJoin(salt_df).withColumn(...).drop("id", "join_col") *)
Definition small_df_salted (salt_count : Z) (small_df : DataFrame)
  : option DataFrame :=
  match withColumn "salted_col"
          (F_concat [F_col "join_col"; F_lit (VStr "-"); F_col "id"])
          (crossJoin small_df (salt_df salt_count)) with
  | Some df => Some (drop ["id"; "join_col"] df)
  | None => None
  end.

(** joined_df = skewed_df.join(small_df, on="join_col", how=...) *)
Definition joined_df (h : how) (skewed_df small_df : DataFrame)
  : option DataFrame :=
  join skewed_df small_df "join_col" h.

(** salted_join_df = skewed_df.join(small_df_salted, on="salted_col", ...) *)
Definition salted_join_df (h : how) (seed_no salt_count : Z)
  (skewed_df small_df : DataFrame) : option DataFrame :=
  match skewed_df_salted seed_no salt_count skewed_df,
        small_df_salted salt_count small_df with
  | Some sk, Some sm => join sk sm "salted_col" h
  | _, _ => None
  end.

(** groupBy("join_col").count().withColumn("pct_of_data", ...) *)
Definition pct_of_data (row_ct : Z) (skewed_df : DataFrame)
  : option DataFrame :=
  match groupBy_count "join_col" skewed_df with
  | Some g =>
      withColumn "pct_of_data"
        (F_round
           (col_mul (col_div (F_col "count") (F_lit (VLong row_ct)))
              (F_lit (VLong 100)))
           3)
        g
  | None => None
  end.

End SaltedJoin.

(** ** The generator behind F.rand

    Spark's XORShiftRandom as the release of the page has it (Spark
    2.4): the seed is hashed with MurmurHash3 over a buffer of 64 bytes,
    a step is three shifts with exclusive or on 64 bits, and nextDouble
    of java.util.Random puts 26 and 27 bits together.  Integers of 32 and
    64 bits are kept as their unsigned values. *)

Definition int32 (z : Z) : Z := Z.land z 4294967295.
Definition int64 (z : Z) : Z := Z.land z 18446744073709551615.

Definition rotl32 (x r : Z) : Z :=
  int32 (Z.lor (Z.shiftl x r) (Z.shiftr x (32 - r))).

Definition mix_k (k : Z) : Z :=
  int32 (rotl32 (int32 (k * 3432918353)) 15 * 461845907).

Definition mix (h k : Z) : Z :=
  int32 (rotl32 (Z.lxor h (mix_k k)) 13 * 5 + 3864292196).

Definition mixLast (h k : Z) : Z := Z.lxor h (mix_k k).

Definition avalanche (h : Z) : Z :=
  let h1 := int32 (Z.lxor h (Z.shiftr h 16) * 2246822507) in
  let h2 := int32 (Z.lxor h1 (Z.shiftr h1 13) * 3266489909) in
  Z.lxor h2 (Z.shiftr h2 16).

Definition finalizeHash (h len : Z) : Z := avalanche (Z.lxor h len).

(** MurmurHash3.bytesHash: four bytes at a time, low byte first, then
    the one to three bytes that are left. *)
Fixpoint bytes_body (data : list Z) (h : Z) : Z :=
  match data with
  | b0 :: b1 :: b2 :: b3 :: rest =>
      bytes_body rest
        (mix h (Z.lor (Z.lor b0 (Z.shiftl b1 8))
                  (Z.lor (Z.shiftl b2 16) (Z.shiftl b3 24))))
  | [b0; b1; b2] =>
      mixLast h (Z.lxor (Z.lxor (Z.shiftl b2 16) (Z.shiftl b1 8)) b0)
  | [b0; b1] => mixLast h (Z.lxor (Z.shiftl b1 8) b0)
  | [b0] => mixLast h b0
  | [] => h
  end.

Definition bytesHash (data : list Z) (seed : Z) : Z :=
  finalizeHash (bytes_body data seed) (Z.of_nat (List.length data)).

Definition arraySeed : Z := 1007110753.

(** ByteBuffer.allocate(java.lang.Long.SIZE).putLong(seed).array(): the
    eight bytes of the seed, high byte first, in a buffer of 64 bytes. *)
Definition seed_bytes (seed : Z) : list Z :=
  map (fun i => Z.land (Z.shiftr (int64 seed) (8 * (7 - Z.of_nat i))) 255)
    (seq 0 8)
  ++ repeat 0 56.

Definition hashSeed (seed : Z) : Z :=
  let bytes := seed_bytes seed in
  let lowBits := bytesHash bytes arraySeed in
  let highBits := bytesHash bytes lowBits in
  Z.lor (Z.shiftl highBits 32) lowBits.

(** One step of the generator: the new state. *)
Definition xorshift (s : Z) : Z :=
  let s1 := Z.lxor s (int64 (Z.shiftl s 21)) in
  let s2 := Z.lxor s1 (Z.shiftr s1 35) in
  Z.lxor s2 (int64 (Z.shiftl s2 4)).

(** next(bits): the low bits of the new state. *)
Definition next_bits (bits : Z) (s : Z) : Z :=
  Z.land (xorshift s) (Z.shiftl 1 bits - 1).

(** The state after [n] calls of nextDouble, each taking two steps. *)
Fixpoint state_after (n : nat) (s : Z) : Z :=
  match n with
  | O => s
  | S n' => xorshift (xorshift (state_after n' s))
  end.

(** nextDouble: (next(26) << 27) + next(27), times 2^-53. *)
Definition nextDouble (s : Z) : Q :=
  (Z.shiftl (next_bits 26 s) 27 + next_bits 27 (xorshift s))
    # 9007199254740992.

(** The double that the generator seeded with [seed] draws at its
    [n]-th call, counting from 0. *)
Definition XORShiftRandom (seed : Z) (n : nat) : Q :=
  nextDouble (state_after n (hashSeed seed)).

(** The example data of the page, scaled down to twelve rows in two
    partitions, and a small generator for them. *)
Definition demo_rand (seed : Z) (i : nat) : Q :=
  inject_Z ((seed + 7 * Z.of_nat i) mod 10) / 10.

Definition demo_layout : list nat := [7%nat; 5%nat].

Definition demo_letter (i : nat) : string :=
  if (i <? 1)%nat then "A"
  else if (i <? 2)%nat then "B"
  else if (i <? 3)%nat then "C"
  else if (i <? 5)%nat then "D"
  else "E".

Definition demo_skewed : DataFrame :=
  mkDF ["id"; "join_col"]
    (map (fun i => [VLong (Z.of_nat i); VStr (demo_letter i)]) (seq 0 12)).

Definition demo_small : DataFrame :=
  mkDF ["join_col"; "number_col"]
    [[VStr "A"; VLong 1]; [VStr "B"; VLong 2]; [VStr "C"; VLong 3];
     [VStr "D"; VLong 4]; [VStr "E"; VLong 5]].

(** ** Vocabulary of the statements *)

(** A dash in a text. *)
Fixpoint has_dash (s : string) : bool :=
  match s with
  | EmptyString => false
  | String c s' => Ascii.eqb c "-"%char || has_dash s'
  end.

(** Well-formed inputs.

    What the cells assume of the two DataFrames they start from: the key
    column join_col is there once and holds text, the names the cells
    introduce are free, and every row has one cell per column. *)

Fixpoint distinct (l : list string) : bool :=
  match l with
  | [] => true
  | c :: cs => negb (has_name c cs) && distinct cs
  end.

Definition is_text (v : value) : bool :=
  match v with
  | VStr _ => true
  | _ => false
  end.

Definition shaped (df : DataFrame) : bool :=
  forallb (fun r => (List.length r =? List.length (columns df))%nat) (rows df).

Definition text_keys (df : DataFrame) : bool :=
  forallb (fun r => is_text (get (columns df) r "join_col")) (rows df).

Definition wf_skewed (df : DataFrame) : bool :=
  resolves "join_col" (columns df)
  && negb (has_name "salted_col" (columns df))
  && shaped df && text_keys df.

Definition wf_small (df : DataFrame) : bool :=
  resolves "join_col" (columns df)
  && negb (has_name "id" (columns df))
  && negb (has_name "salted_col" (columns df))
  && shaped df && text_keys df.

(** The text of the key of a row. *)
Definition key_text (cols : list string) (r : Row) : string :=
  match get cols r "join_col" with
  | VStr k => k
  | _ => ""
  end.

(** One salted row of the small side: the payload of [r], then the key
    of [r] salted with index [j]. *)
Definition small_salted_row (rc : list string) (r : Row) (j : nat) : Row :=
  drop_row ["join_col"] rc r
    ++ [VStr (salted_key (key_text rc r) (Z.of_nat j))].

(** The cell F.concat gives from a key and a salt index: the text of the
    key, "-" and the index, or null when the key is null. *)
Definition salted_cell (key : value) (i : Z) : value :=
  value_of_text (concat_values [key; VStr "-"; VLong i]).

(** One salted row of the small side, whatever its key holds. *)
Definition small_salted_cells (rc : list string) (r : Row) (j : nat) : Row :=
  drop_row ["join_col"] rc r
    ++ [salted_cell (get rc r "join_col") (Z.of_nat j)].

(** What the salting cells need of a DataFrame, its keys apart: the key
    column is there once, the names the cells introduce are free, and
    every row has one cell per column. *)
Definition keyed_skewed (df : DataFrame) : bool :=
  resolves "join_col" (columns df)
  && negb (has_name "salted_col" (columns df))
  && shaped df.

Definition keyed_small (df : DataFrame) : bool :=
  resolves "join_col" (columns df)
  && negb (has_name "id" (columns df))
  && negb (has_name "salted_col" (columns df))
  && shaped df.

(** The integer F.floor(F.rand(seed_no) * salt_count) puts in the row at
    position [i]. *)
Definition salt_index (rand : Z -> nat -> Q) (layout : list nat)
  (seed_no salt_count : Z) (i : nat) : Z :=
  long_of_Q
    (round_double (draw rand layout seed_no i * double_of_long salt_count)).

(** One salted row of the skewed side: the row as it was, then its key
    salted with the index drawn at its position. *)
Definition skewed_salted_row (rand : Z -> nat -> Q) (layout : list nat)
  (lc : list string) (seed_no salt_count : Z) (p : nat * Row) : Row :=
  snd p ++ [VStr (salted_key (key_text lc (snd p))
                    (salt_index rand layout seed_no salt_count (fst p)))].

(** The share of a key in all rows, in percent, as the spec words the
    diagnostic. *)
Definition spec_share (count total : Z) : Q :=
  (inject_Z count / inject_Z total * 100)%Q.

(** The cell pct_of_data computes from a count. *)
Definition pct_cell (count row_ct : Z) : value :=
  round_value 3
    (mul_values (div_values (VLong count) (VLong row_ct)) (VLong 100)).

(** The number of rows of a key. *)
Definition key_count (df : DataFrame) (k : value) : Z :=
  Z.of_nat (count_occ value_eq_dec (column "join_col" df) k).

(** ** More of the salted-join page

    The cell that builds skewed_df, the row counts the page prints and
    the grouped counts it compares. *)

(** A condition column: true, false or null at every row. *)
Definition Cond : Type := list string -> option (nat -> Row -> option bool).

(** The operator < on numbers; null when an operand is null.  The page
    compares an integer column with integer literals. *)
Definition lt_values (a b : value) : option bool :=
  match to_Q a, to_Q b with
  | Some x, Some y => Some (negb (Qle_bool y x))
  | _, _ => None
  end.

Definition col_lt (a b : Column) : Cond :=
  fun cols =>
    match a cols, b cols with
    | Some fa, Some fb => Some (fun i r => lt_values (fa i r) (fb i r))
    | _, _ => None
    end.

(** F.when(c, v).when(c', v')...: the branches in the order written. *)
Definition When : Type := list (Cond * Column).

Definition F_when (c : Cond) (v : Column) : When := [(c, v)].

Definition when (w : When) (c : Cond) (v : Column) : When := w ++ [(c, v)].

Fixpoint resolve_when (w : When) (cols : list string)
  : option (list ((nat -> Row -> option bool) * (nat -> Row -> value))) :=
  match w with
  | [] => Some []
  | (c, v) :: w' =>
      match c cols, v cols, resolve_when w' cols with
      | Some fc, Some fv, Some fs => Some ((fc, fv) :: fs)
      | _, _, _ => None
      end
  end.

(** The value of the first branch whose condition is true, else [d]. *)
Fixpoint first_true
  (bs : list ((nat -> Row -> option bool) * (nat -> Row -> value)))
  (d : value) (i : nat) (r : Row) : value :=
  match bs with
  | [] => d
  | (fc, fv) :: bs' =>
      match fc i r with
      | Some true => fv i r
      | _ => first_true bs' d i r
      end
  end.

Definition otherwise (w : When) (v : Column) : Column :=
  fun cols =>
    match resolve_when w cols, v cols with
    | Some bs, Some fv => Some (fun i r => first_true bs (fv i r) i r)
    | _, _ => None
    end.

(** skewed_df = spark.range(row_ct).withColumn("join_col", F.when(...)) *)
Definition skewed_df (row_ct : Z) : option DataFrame :=
  withColumn "join_col"
    (otherwise
       (when
          (when
             (when
                (F_when (col_lt (F_col "id") (F_lit (VLong 100)))
                   (F_lit (VStr "A")))
                (col_lt (F_col "id") (F_lit (VLong 1000))) (F_lit (VStr "B")))
             (col_lt (F_col "id") (F_lit (VLong 10000))) (F_lit (VStr "C")))
          (col_lt (F_col "id") (F_lit (VLong 100000))) (F_lit (VStr "D")))
       (F_lit (VStr "E")))
    (spark_range row_ct).

(** small_df = spark.createDataFrame([["A", 1], ...], ["join_col",
    "number_col"]) *)
Definition small_df : DataFrame :=
  mkDF ["join_col"; "number_col"]
    [[VStr "A"; VLong 1]; [VStr "B"; VLong 2]; [VStr "C"; VLong 3];
     [VStr "D"; VLong 4]; [VStr "E"; VLong 5]].

(** df.count() *)
Definition count (df : DataFrame) : Z := Z.of_nat (List.length (rows df)).

Definition row_eq_dec (a b : Row) : {a = b} + {a <> b} :=
  list_eq_dec value_eq_dec a b.

(** groupBy(name1, name2, ...).count() *)
Definition groupBy_cols_count (names : list string) (df : DataFrame)
  : option DataFrame :=
  if forallb (fun n => resolves n (columns df)) names
  then
    let keys := map (fun r => map (get (columns df) r) names) (rows df) in
    Some (mkDF (names ++ ["count"])
            (map (fun k => k ++ [VLong (Z.of_nat (count_occ row_eq_dec keys k))])
               (nodup row_eq_dec keys)))
  else None.

(** The letter the skewed_df cell gives to an id. *)
Definition letter_of (id : Z) : string :=
  if id <? 100 then "A"
  else if id <? 1000 then "B"
  else if id <? 10000 then "C"
  else if id <? 100000 then "D"
  else "E".

(** The sum of the integers of a column (nulls and other cells skipped). *)
Fixpoint sum_longs (vs : list value) : Z :=
  match vs with
  | [] => 0
  | VLong z :: vs' => z + sum_longs vs'
  | _ :: vs' => sum_longs vs'
  end.

(** ** The union page: DataFrames with different columns *)

(** df.union(other): rows are taken by position, the names are those of
    [l]; the two column counts must agree (cells carry no type here, so
    no type is compared). *)
Definition union (l r : DataFrame) : option DataFrame :=
  if (List.length (columns l) =? List.length (columns r))%nat
  then Some (mkDF (columns l) (rows l ++ rows r))
  else None.

(** F.lit(None).cast(t): a null of type [t].  Cells carry no type, so the
    cell is the null for every [t]; the page casts nothing else.  The
    text [t] is not parsed here. *)
Definition lit_None_cast (t : string) : Column := F_lit VNull.

(** Names of types that cast(t) knows; the list is not complete. *)
Definition known_type (t : string) : bool :=
  existsb (String.eqb t)
    ["string"; "boolean"; "byte"; "tinyint"; "short"; "smallint"; "int";
     "integer"; "long"; "bigint"; "float"; "double"; "date"; "timestamp";
     "binary"].

(** def add_empty_columns(df, col_dict): the dictionary is the list of
    its (name, type) items in the order keys() gives them. *)
Fixpoint add_empty_columns (df : DataFrame) (col_dict : list (string * string))
  : option DataFrame :=
  match col_dict with
  | [] => Some df
  | (col, t) :: rest =>
      if has_name col (columns df)
      then add_empty_columns df rest
      else
        match withColumn col (lit_None_cast t) df with
        | Some df' => add_empty_columns df' rest
        | None => None
        end
  end.

(** The last cells of the page: every DataFrame gets its empty columns,
    is put in the order of the keys of col_dict, and the three are
    unioned. *)
Definition df_joined (col_dict : list (string * string))
  (df1 df2 df3 : DataFrame) : option DataFrame :=
  let col_order := map fst col_dict in
  match add_empty_columns df1 col_dict,
        add_empty_columns df2 col_dict,
        add_empty_columns df3 col_dict with
  | Some d1, Some d2, Some d3 =>
      match select col_order d1, select col_order d2, select col_order d3 with
      | Some s1, Some s2, Some s3 =>
          match union s1 s2 with
          | Some u => union u s3
          | None => None
          end
      | _, _, _ => None
      end
  | _, _, _ => None
  end.

(** The names [add_empty_columns] adds to columns [cols], in order. *)
Fixpoint missing_columns (cols keys : list string) : list string :=
  match keys with
  | [] => []
  | k :: ks =>
      if has_name k cols then missing_columns cols ks
      else k :: missing_columns (cols ++ [k]) ks
  end.

(** A row read under the names [keys]: its cell where the DataFrame has
    the column, null where it has not. *)
Definition aligned_row (cols keys : list string) (r : Row) : Row :=
  map (fun k => if has_name k cols then get cols r k else VNull) keys.

(** The three DataFrames of the union page. *)
Definition wimbledon1 : DataFrame :=
  mkDF ["tournament_year"; "event"; "champion"]
    [[VLong 2017; VStr "Gentlemen's Singles"; VStr "Federer"];
     [VLong 2018; VStr "Gentlemen's Singles"; VStr "Djokovic"];
     [VLong 2019; VStr "Gentlemen's Singles"; VStr "Djokovic"];
     [VLong 2017; VStr "Ladies' Singles"; VStr "Muguruza"];
     [VLong 2018; VStr "Ladies' Singles"; VStr "Kerber"];
     [VLong 2019; VStr "Ladies' Singles"; VStr "Halep"]].

Definition wimbledon2 : DataFrame :=
  mkDF ["event"; "tournament_year"]
    [[VStr "Gentlemen's Singles"; VLong 2020];
     [VStr "Ladies' Singles"; VLong 2020]].

Definition wimbledon3 : DataFrame :=
  mkDF ["tournament_year"] [[VLong 2021]; [VLong 2021]].

Definition wimbledon_dict : list (string * string) :=
  [("champion", "string"); ("tournament_year", "int"); ("event", "string")].

(** ** The sampling page *)

(** The order of orderBy on cells: nulls first, numbers by value, text by
    code points (a column holds one kind of cell; across kinds numbers
    come before text). *)
Definition value_leb (a b : value) : bool :=
  match a, b with
  | VNull, _ => true
  | _, VNull => false
  | VStr s, VStr t => String.leb s t
  | VStr _, _ => false
  | _, VStr _ => true
  | _, _ =>
      match to_Q a, to_Q b with
      | Some x, Some y => Qle_bool x y
      | _, _ => true
      end
  end.

(** Sort keys are compared one after the other. *)
Fixpoint keys_leb (ks1 ks2 : list value) : bool :=
  match ks1, ks2 with
  | a :: r1, b :: r2 =>
      if value_leb a b
      then (if value_leb b a then keys_leb r1 r2 else true)
      else false
  | _, _ => true
  end.

Fixpoint insert_by {A : Type} (leb : A -> A -> bool) (x : A) (l : list A)
  : list A :=
  match l with
  | [] => [x]
  | y :: l' => if leb x y then x :: l else y :: insert_by leb x l'
  end.

Definition sort_by {A : Type} (leb : A -> A -> bool) (l : list A) : list A :=
  fold_right (insert_by leb) [] l.

(** df.orderBy(name1, name2, ...), ascending. *)
Definition orderBy (names : list string) (df : DataFrame)
  : option DataFrame :=
  if forallb (fun n => resolves n (columns df)) names
  then
    let key := fun r => map (get (columns df) r) names in
    Some (mkDF (columns df)
            (sort_by (fun r1 r2 => keys_leb (key r1) (key r2)) (rows df)))
  else None.

(** df.limit(n): the first n rows; a negative n is refused. *)
Definition limit (n : Z) (df : DataFrame) : option DataFrame :=
  if n <? 0 then None
  else Some (mkDF (columns df) (firstn (Z.to_nat n) (rows df))).

(** rescue.withColumn("rand_no", F.rand()).orderBy("rand_no")
      .limit(row_count).drop("rand_no")
    F.rand() takes a seed of its own choice: [seed] stands for it. *)
Definition exact_sample (rand : Z -> nat -> Q) (layout : list nat)
  (seed row_count : Z) (rescue : DataFrame) : option DataFrame :=
  match withColumn "rand_no" (F_rand rand layout seed) rescue with
  | Some a =>
      match orderBy ["rand_no"] a with
      | Some b =>
          match limit row_count b with
          | Some c => Some (drop ["rand_no"] c)
          | None => None
          end
      | None => None
      end
  | None => None
  end.

(** The bounds of the splits: the running sums of the weights divided by
    their total. *)
Fixpoint cumulative (acc : Q) (ws : list Q) : list Q :=
  match ws with
  | [] => []
  | w :: ws' => (acc + w)%Q :: cumulative (acc + w)%Q ws'
  end.

Fixpoint total_weight (ws : list Q) : Q :=
  match ws with
  | [] => 0%Q
  | w :: ws' => (w + total_weight ws')%Q
  end.

Fixpoint splits_from (rand : Z -> nat -> Q) (seed : Z) (df : DataFrame)
  (lb : Q) (ubs : list Q) : list DataFrame :=
  match ubs with
  | [] => []
  | ub :: ubs' =>
      mkDF (columns df)
        (map snd
           (filter (fun p => Qle_bool lb (rand seed (fst p))
                             && negb (Qle_bool ub (rand seed (fst p))))
              (indexed (rows df))))
        :: splits_from rand seed df ub ubs'
  end.

(** df.randomSplit(weights, seed): the split of a row is the one whose
    bounds hold its draw. *)
Definition randomSplit (rand : Z -> nat -> Q) (weights : list Q) (seed : Z)
  (df : DataFrame) : list DataFrame :=
  splits_from rand seed df 0%Q
    (cumulative 0%Q (map (fun w => (w / total_weight weights)%Q) weights)).

(** The last bound of a chain of bounds starting at [lb]. *)
Fixpoint final_bound (lb : Q) (ubs : list Q) : Q :=
  match ubs with
  | [] => lb
  | ub :: ubs' => final_bound ub ubs'
  end.

(** Bounds that do not decrease. *)
Fixpoint bounds_chain (lb : Q) (ubs : list Q) : Prop :=
  match ubs with
  | [] => True
  | ub :: ubs' => (lb <= ub)%Q /\ bounds_chain ub ubs'
  end.

(** ** The cross-join and padding pages *)

(** The first [n] characters of a text. *)
Fixpoint first_chars (n : nat) (s : string) : string :=
  match n, s with
  | S n', String c s' => String c (first_chars n' s')
  | _, _ => ""
  end.

Fixpoint repeat_string (n : nat) (s : string) : string :=
  match n with
  | O => ""
  | S n' => (s ++ repeat_string n' s)%string
  end.

(** The padding lpad and rpad put beside a text that is [spaces]
    characters short: the pad over and over, cut to fit. *)
Definition padding (spaces : nat) (pad : string) : string :=
  let count := (spaces / String.length pad)%nat in
  (repeat_string count pad
     ++ first_chars (spaces - String.length pad * count) pad)%string.

(** lpad(text, len, pad): a text of width len.  A text that is too long,
    or an empty pad, gives the first len characters of the text. *)
Definition lpad_text (s : string) (len : Z) (pad : string) : string :=
  let spaces := len - Z.of_nat (String.length s) in
  if (spaces <=? 0) || (String.length pad =? 0)%nat
  then first_chars (Z.to_nat len) s
  else (padding (Z.to_nat spaces) pad ++ s)%string.

Definition rpad_text (s : string) (len : Z) (pad : string) : string :=
  let spaces := len - Z.of_nat (String.length s) in
  if (spaces <=? 0) || (String.length pad =? 0)%nat
  then first_chars (Z.to_nat len) s
  else (s ++ padding (Z.to_nat spaces) pad)%string.

Definition on_text (f : string -> value) (v : value) : value :=
  match cast_string v with
  | Some s => f s
  | None => VNull
  end.

(** F.lpad(col, len, pad), F.rpad(col, len, pad), F.length(col): an
    integer column is rendered as text first, a null stays null. *)
Definition F_lpad (c : Column) (len : Z) (pad : string) : Column :=
  lift1 (on_text (fun s => VStr (lpad_text s len pad))) c.

Definition F_rpad (c : Column) (len : Z) (pad : string) : Column :=
  lift1 (on_text (fun s => VStr (rpad_text s len pad))) c.

Definition F_length (c : Column) : Column :=
  lift1 (on_text (fun s => VLong (Z.of_nat (String.length s)))) c.

(** Text made of one character only. *)
Fixpoint all_chars (c : ascii) (s : string) : bool :=
  match s with
  | EmptyString => true
  | String x s' => Ascii.eqb x c && all_chars c s'
  end.

(** The integer a decimal text stands for. *)
Definition Z_of_text (s : string) : option Z :=
  option_map Z.of_int (NilEmpty.int_of_string s).

(** Four incident numbers of the padding page. *)
Definition demo_rescue : DataFrame :=
  mkDF ["incident_number"; "origin_of_call"]
    [[VStr "146647151"; VStr "Police"]; [VStr "66969111"; VStr "Police"];
     [VStr "955141"; VStr "Police"]; [VStr "7003121"; VStr "Police"]].

(** ** The base DataFrame of the cross-join page *)

(** df.distinct() *)
Definition df_distinct (df : DataFrame) : DataFrame :=
  mkDF (columns df) (nodup row_eq_dec (rows df)).

(** Keys of several columns match when every pair of cells does. *)
Fixpoint keys_match (ks1 ks2 : list value) : bool :=
  match ks1, ks2 with
  | [], [] => true
  | a :: r1, b :: r2 => key_match a b && keys_match r1 r2
  | _, _ => false
  end.

Definition join_on_rows (h : how) (lc rc : list string) (on : list string)
  (rrows : list Row) (l : Row) : list Row :=
  let k := map (get lc l) on in
  let rest := drop_row on lc l in
  match filter (fun r => keys_match k (map (get rc r) on)) rrows with
  | [] =>
      match h with
      | how_inner => []
      | how_left => [k ++ rest ++ repeat VNull (List.length (drop_names on rc))]
      end
  | ms => map (fun r => k ++ rest ++ drop_row on rc r) ms
  end.

(** l.join(r, on=[name1, name2, ...], how=...) *)
Definition join_on (l r : DataFrame) (on : list string) (h : how)
  : option DataFrame :=
  if forallb (fun n => resolves n (columns l) && resolves n (columns r)) on
  then Some (mkDF
               (on ++ drop_names on (columns l) ++ drop_names on (columns r))
               (flat_map (join_on_rows h (columns l) (columns r) on (rows r))
                  (rows l)))
  else None.

Fixpoint fill_row (v : value) (name : string) (cols : list string) (r : Row)
  : Row :=
  match cols, r with
  | c :: cs, x :: xs =>
      (if String.eqb name c
       then match x with VNull => v | _ => x end
       else x) :: fill_row v name cs xs
  | _, _ => []
  end.

(** df.fillna(v, name): the nulls of the column become [v]. *)
Definition fillna (v : value) (name : string) (df : DataFrame) : DataFrame :=
  mkDF (columns df) (map (fill_row v name (columns df)) (rows df)).

(** The cells of the cross-join page from animals to the final result
    (checkpoint() leaves a DataFrame as it is); [rescue] is the grouped
    DataFrame with the columns animal_group, cal_year and cost.  cost is
    a column of doubles, so the 0 of fillna(0, "cost") is stored as 0.0. *)
Definition cross_join_result (rescue : DataFrame) : option DataFrame :=
  match select ["animal_group"] rescue, select ["cal_year"] rescue with
  | Some a0, Some y0 =>
      match orderBy ["animal_group"] (df_distinct a0),
            orderBy ["cal_year"] (df_distinct y0) with
      | Some animals, Some cal_years =>
          match orderBy ["animal_group"; "cal_year"]
                  (crossJoin animals cal_years) with
          | Some result =>
              match join_on result rescue ["animal_group"; "cal_year"]
                      how_left with
              | Some joined =>
                  orderBy ["animal_group"; "cal_year"]
                    (fillna (VDouble 0) "cost" joined)
              | None => None
              end
          | None => None
          end
      | _, _ => None
      end
  | _, _ => None
  end.

(** A few rows of the grouped rescue data of the page. *)
Definition demo_costs : DataFrame :=
  mkDF ["animal_group"; "cal_year"; "cost"]
    [[VStr "Snake"; VLong 2018; VDouble 333];
     [VStr "Hamster"; VLong 2010; VDouble 780];
     [VStr "Hamster"; VLong 2011; VDouble 780];
     [VStr "Deer"; VLong 2015; VDouble 1788]].

(** What the page's grouped data is like: one cell per column in every
    row, no null among the two keys, and a double or a null as cost. *)
Definition wf_costs (rescue : DataFrame) : bool :=
  forallb (fun r =>
             match r with
             | [a; y; c] =>
                 negb (value_eqb a VNull) && negb (value_eqb y VNull)
                 && match c with VDouble _ | VNull => true | _ => false end
             | _ => false
             end)
    (rows rescue).

(** ** Text of a salted key *)

Lemma has_dash_uint (d : Decimal.uint) :
  has_dash (NilEmpty.string_of_uint d) = false.
Proof.
  induction d; simpl; auto.
Qed.

Lemma has_dash_string_of_Z (z : Z) :
  0 <= z -> has_dash (string_of_Z z) = false.
Proof.
  intros Hz. unfold string_of_Z.
  destruct z as [|p|p]; simpl; try apply has_dash_uint.
  - reflexivity.
  - lia.
Qed.

Lemma string_of_Z_inj (a b : Z) : string_of_Z a = string_of_Z b -> a = b.
Proof.
  unfold string_of_Z. intros H.
  apply DecimalZ.to_int_inj.
  assert (Hs : Some (Z.to_int a) = Some (Z.to_int b)).
  { rewrite <- (NilEmpty.isi (Z.to_int a)), <- (NilEmpty.isi (Z.to_int b)).
    now rewrite H. }
  now injection Hs.
Qed.

Lemma has_dash_app (s t : string) :
  has_dash (s ++ t) = has_dash s || has_dash t.
Proof.
  induction s as [|c s IH]; simpl; [reflexivity|].
  now rewrite IH, orb_assoc.
Qed.

(** The last dash of a salted key separates key and index. *)
Lemma dash_split (k1 k2 d1 d2 : string) :
  has_dash d1 = false -> has_dash d2 = false ->
  (k1 ++ "-" ++ d1 = k2 ++ "-" ++ d2)%string -> k1 = k2 /\ d1 = d2.
Proof.
  intros H1 H2. revert k2.
  induction k1 as [|c k1 IH]; intros [|c2 k2] E; simpl in E.
  - injection E as E. now split.
  - injection E as Ec E. subst d1.
    rewrite has_dash_app in H1. simpl in H1.
    rewrite orb_true_r in H1. discriminate.
  - injection E as Ec E. subst d2.
    rewrite has_dash_app in H2. simpl in H2.
    rewrite orb_true_r in H2. discriminate.
  - injection E as Ec E. subst c2.
    destruct (IH k2 E) as [-> ->]. now split.
Qed.

Lemma salted_key_inj (k1 k2 : string) (i j : Z) :
  0 <= i -> 0 <= j -> salted_key k1 i = salted_key k2 j -> k1 = k2 /\ i = j.
Proof.
  intros Hi Hj E. unfold salted_key in E.
  apply dash_split in E; try now apply has_dash_string_of_Z.
  destruct E as [-> E]. split; [reflexivity|]. now apply string_of_Z_inj.
Qed.

Lemma append_nil_r (s : string) : (s ++ "")%string = s.
Proof.
  induction s as [|c s IH]; simpl; [reflexivity|now rewrite IH].
Qed.

Lemma concat_key_index (k : string) (i : Z) :
  concat_values [VStr k; VStr "-"; VLong i] = Some (salted_key k i).
Proof.
  unfold salted_key. simpl. now rewrite append_nil_r.
Qed.

(** ** Names and rows *)

Lemma has_name_In (n : string) (l : list string) :
  has_name n l = true <-> In n l.
Proof.
  unfold has_name. rewrite existsb_exists. split.
  - intros (x & Hx & E). apply String.eqb_eq in E. now subst.
  - intros H. exists n. split; [assumption|apply String.eqb_refl].
Qed.

Lemma has_name_false (n : string) (l : list string) :
  has_name n l = false <-> ~ In n l.
Proof.
  rewrite <- has_name_In. destruct (has_name n l); intuition congruence.
Qed.

Lemma distinct_NoDup (l : list string) : distinct l = true <-> NoDup l.
Proof.
  induction l as [|c cs IH]; simpl.
  - split; [constructor|reflexivity].
  - rewrite andb_true_iff, negb_true_iff, has_name_false, IH.
    split.
    + intros [H1 H2]. now constructor.
    + intros H. inversion H. now split.
Qed.

Lemma resolves_In (n : string) (l : list string) :
  resolves n l = true -> In n l.
Proof.
  unfold resolves. intros H. apply Nat.eqb_eq in H.
  apply (count_occ_In string_dec). lia.
Qed.

Lemma resolves_NoDup (n : string) (l : list string) :
  NoDup l -> In n l -> resolves n l = true.
Proof.
  intros Hnd Hin. unfold resolves. apply Nat.eqb_eq.
  pose proof (proj1 (NoDup_count_occ string_dec l) Hnd n) as Hle.
  apply (count_occ_In string_dec) in Hin. lia.
Qed.

Lemma resolves_app_l (n : string) (l1 l2 : list string) :
  resolves n l1 = true -> ~ In n l2 -> resolves n (l1 ++ l2) = true.
Proof.
  unfold resolves. intros H1 H2. rewrite count_occ_app.
  apply (count_occ_not_In string_dec) in H2. rewrite H2.
  now rewrite Nat.add_0_r.
Qed.

Lemma resolves_app_r (n : string) (l1 l2 : list string) :
  ~ In n l1 -> resolves n l2 = true -> resolves n (l1 ++ l2) = true.
Proof.
  unfold resolves. intros H1 H2. rewrite count_occ_app.
  apply (count_occ_not_In string_dec) in H1. now rewrite H1.
Qed.

Lemma get_app_l (c1 c2 : list string) (r1 r2 : Row) (n : string) :
  List.length r1 = List.length c1 -> In n c1 ->
  get (c1 ++ c2) (r1 ++ r2) n = get c1 r1 n.
Proof.
  revert r1. induction c1 as [|c c1 IH]; intros [|v r1] Hl Hin;
    simpl in *; try discriminate; try contradiction.
  destruct (String.eqb n c) eqn:E; [reflexivity|].
  apply IH; [lia|]. destruct Hin as [->|]; [|assumption].
  rewrite String.eqb_refl in E. discriminate.
Qed.

Lemma get_app_r (c1 c2 : list string) (r1 r2 : Row) (n : string) :
  List.length r1 = List.length c1 -> ~ In n c1 ->
  get (c1 ++ c2) (r1 ++ r2) n = get c2 r2 n.
Proof.
  revert r1. induction c1 as [|c c1 IH]; intros [|v r1] Hl Hin;
    simpl in *; try discriminate; try reflexivity.
  destruct (String.eqb n c) eqn:E.
  - apply String.eqb_eq in E. subst. tauto.
  - apply IH; [lia|tauto].
Qed.

Lemma drop_names_app (ns c1 c2 : list string) :
  drop_names ns (c1 ++ c2) = drop_names ns c1 ++ drop_names ns c2.
Proof. apply filter_app. Qed.

Lemma drop_row_app (ns c1 c2 : list string) (r1 r2 : Row) :
  List.length r1 = List.length c1 ->
  drop_row ns (c1 ++ c2) (r1 ++ r2) = drop_row ns c1 r1 ++ drop_row ns c2 r2.
Proof.
  revert r1. induction c1 as [|c c1 IH]; intros [|v r1] Hl;
    simpl in *; try discriminate; try reflexivity.
  destruct (has_name c ns); rewrite IH by lia; reflexivity.
Qed.

Lemma drop_names_ext (ns1 ns2 cols : list string) :
  (forall c, In c cols -> has_name c ns1 = has_name c ns2) ->
  drop_names ns1 cols = drop_names ns2 cols.
Proof.
  intros H. apply filter_ext_in. intros c Hc. now rewrite H.
Qed.

Lemma drop_row_ext (ns1 ns2 cols : list string) (r : Row) :
  (forall c, In c cols -> has_name c ns1 = has_name c ns2) ->
  drop_row ns1 cols r = drop_row ns2 cols r.
Proof.
  revert r. induction cols as [|c cols IH]; intros [|v r] H; simpl;
    try reflexivity.
  rewrite (H c) by now left.
  rewrite IH by (intros; apply H; now right). reflexivity.
Qed.

Lemma drop_names_none (ns cols : list string) :
  (forall c, In c cols -> has_name c ns = false) -> drop_names ns cols = cols.
Proof.
  intros H. induction cols as [|c cols IH]; simpl; [reflexivity|].
  rewrite (H c) by now left. simpl. f_equal.
  apply IH. intros; apply H; now right.
Qed.

Lemma drop_row_none (ns cols : list string) (r : Row) :
  (forall c, In c cols -> has_name c ns = false) ->
  List.length r = List.length cols -> drop_row ns cols r = r.
Proof.
  revert r. induction cols as [|c cols IH]; intros [|v r] H Hl;
    simpl in *; try discriminate; try reflexivity.
  rewrite (H c) by now left. f_equal.
  apply IH; [intros; apply H; now right|lia].
Qed.

Lemma drop_row_length (ns cols : list string) (r : Row) :
  List.length r = List.length cols ->
  List.length (drop_row ns cols r) = List.length (drop_names ns cols).
Proof.
  revert r. induction cols as [|c cols IH]; intros [|v r] Hl;
    simpl in *; try discriminate; try reflexivity.
  destruct (has_name c ns); simpl; rewrite IH by lia; reflexivity.
Qed.

Lemma drop_names_In (ns cols : list string) (c : string) :
  In c (drop_names ns cols) <-> In c cols /\ has_name c ns = false.
Proof.
  unfold drop_names. rewrite filter_In, negb_true_iff. reflexivity.
Qed.

Lemma has_name_single (c n : string) :
  has_name c [n] = String.eqb c n.
Proof. simpl. apply orb_false_r. Qed.

Lemma drop_names_last (name : string) (cols : list string) :
  ~ In name cols -> drop_names [name] (cols ++ [name]) = cols.
Proof.
  intros H. rewrite drop_names_app. cbn [drop_names filter].
  rewrite has_name_single, String.eqb_refl. cbn [negb].
  rewrite app_nil_r. apply drop_names_none. intros c Hc.
  rewrite has_name_single. apply String.eqb_neq. now intros ->.
Qed.

Lemma drop_row_last (name : string) (cols : list string) (l : Row)
  (v : value) :
  ~ In name cols -> List.length l = List.length cols ->
  drop_row [name] (cols ++ [name]) (l ++ [v]) = l.
Proof.
  intros H Hl. rewrite drop_row_app by assumption. cbn [drop_row].
  rewrite has_name_single, String.eqb_refl, app_nil_r.
  apply drop_row_none; [|assumption].
  intros c Hc. rewrite has_name_single. apply String.eqb_neq. now intros ->.
Qed.

(** Reading a row back under distinct names. *)
Lemma map_get_ext (cols : list string) (r : Row) (v : value) (c : string)
  (names : list string) :
  ~ In c names ->
  map (get (c :: cols) (v :: r)) names = map (get cols r) names.
Proof.
  intros H. apply map_ext_in. intros n Hn. simpl.
  destruct (String.eqb n c) eqn:E; [|reflexivity].
  apply String.eqb_eq in E. subst. contradiction.
Qed.

Lemma map_get_self (cols : list string) (r : Row) :
  NoDup cols -> List.length r = List.length cols ->
  map (get cols r) cols = r.
Proof.
  revert r. induction cols as [|c cols IH]; intros [|v r] Hnd Hl;
    simpl in *; try discriminate; try reflexivity.
  inversion Hnd; subst. rewrite String.eqb_refl. f_equal.
  transitivity (map (get cols r) cols); [|apply IH; assumption || lia].
  apply map_ext_in. intros n Hn.
  destruct (String.eqb n c) eqn:E; [|reflexivity].
  apply String.eqb_eq in E. subst. contradiction.
Qed.

Lemma map_get_drop (ns cols : list string) (r : Row) :
  NoDup cols -> List.length r = List.length cols ->
  map (get cols r) (drop_names ns cols) = drop_row ns cols r.
Proof.
  revert r. induction cols as [|c cols IH]; intros [|v r] Hnd Hl;
    simpl in *; try discriminate; try reflexivity.
  inversion Hnd; subst.
  assert (Hc : ~ In c (drop_names ns cols)).
  { rewrite drop_names_In. tauto. }
  destruct (has_name c ns); simpl.
  - fold (drop_names ns cols).
    rewrite <- (IH r) by (assumption || lia).
    apply (map_get_ext cols r v c _ Hc).
  - rewrite String.eqb_refl. f_equal.
    fold (drop_names ns cols).
    rewrite <- (IH r) by (assumption || lia).
    apply (map_get_ext cols r v c _ Hc).
Qed.

(** ** Lists *)

Lemma map_flat_map {A B C : Type} (g : B -> C) (f : A -> list B) (l : list A) :
  map g (flat_map f l) = flat_map (fun x => map g (f x)) l.
Proof.
  induction l as [|x l IH]; simpl; [reflexivity|].
  now rewrite map_app, IH.
Qed.

Lemma flat_map_ext_in {A B : Type} (f g : A -> list B) (l : list A) :
  (forall x, In x l -> f x = g x) -> flat_map f l = flat_map g l.
Proof.
  induction l as [|x l IH]; intros H; simpl; [reflexivity|].
  rewrite (H x) by now left.
  rewrite IH by (intros; apply H; now right). reflexivity.
Qed.

Lemma combine_seq_map {A B : Type} (f : nat -> A -> B) (g : A -> B)
  (l : list A) (s : nat) :
  (forall i x, In x l -> f i x = g x) ->
  map (fun p => f (fst p) (snd p)) (combine (seq s (List.length l)) l)
  = map g l.
Proof.
  revert s. induction l as [|x l IH]; intros s H; simpl; [reflexivity|].
  rewrite (H s x) by now left.
  rewrite IH by (intros; apply H; now right). reflexivity.
Qed.

Lemma indexed_map {A B : Type} (f : nat -> A -> B) (g : A -> B) (l : list A) :
  (forall i x, In x l -> f i x = g x) ->
  map (fun p => f (fst p) (snd p)) (indexed l) = map g l.
Proof. apply combine_seq_map. Qed.

Lemma indexed_length {A : Type} (l : list A) :
  List.length (indexed l) = List.length l.
Proof.
  unfold indexed. rewrite length_combine, length_seq. apply Nat.min_id.
Qed.

Lemma indexed_nth_error {A : Type} (l : list A) (n : nat) (x : A) :
  nth_error l n = Some x -> nth_error (indexed l) n = Some (n, x).
Proof.
  unfold indexed. intros H.
  assert (G : forall s, nth_error (combine (seq s (List.length l)) l) n
                        = Some ((s + n)%nat, x)).
  { revert n H. induction l as [|y l IH]; intros [|n] H s; simpl in *;
      try discriminate.
    - injection H as ->. now rewrite Nat.add_0_r.
    - rewrite (IH n H (S s)). f_equal. f_equal. lia. }
  apply (G 0%nat).
Qed.

Lemma indexed_In {A : Type} (l : list A) (i : nat) (x : A) :
  In (i, x) (indexed l) -> nth_error l i = Some x.
Proof.
  unfold indexed.
  assert (G : forall s, In (i, x) (combine (seq s (List.length l)) l) ->
                        (s <= i)%nat /\ nth_error l (i - s) = Some x).
  { induction l as [|y l IH]; intros s H; simpl in *; [contradiction|].
    destruct H as [H|H].
    - injection H as -> ->. rewrite Nat.sub_diag. split; [lia|reflexivity].
    - apply IH in H. destruct H as [Hle H]. split; [lia|].
      replace (i - s)%nat with (S (i - S s)) by lia. exact H. }
  intros H. apply G in H. rewrite Nat.sub_0_r in H. apply H.
Qed.

Lemma filter_none {A : Type} (f : A -> bool) (l : list A) :
  (forall x, In x l -> f x = false) -> filter f l = [].
Proof.
  induction l as [|x l IH]; intros H; simpl; [reflexivity|].
  rewrite (H x) by now left. apply IH. intros; apply H; now right.
Qed.

(** A test met by one index only keeps that index. *)
Lemma filter_seq_one (f : nat -> bool) (j0 n s : nat) :
  (forall j, f j = true <-> j = j0) -> (s <= j0 < s + n)%nat ->
  filter f (seq s n) = [j0].
Proof.
  intros Hf. revert s. induction n as [|n IH]; intros s Hj; [lia|].
  simpl. destruct (f s) eqn:E.
  - apply Hf in E. subst s. f_equal.
    apply filter_none. intros j Hin. apply in_seq in Hin.
    destruct (f j) eqn:Ej; [|reflexivity].
    apply Hf in Ej. lia.
  - apply IH. assert (s <> j0) by (intros ->; rewrite (proj2 (Hf j0) eq_refl) in E; discriminate).
    lia.
Qed.


(** ** What the two transforms compute *)

Lemma shaped_spec (df : DataFrame) :
  shaped df = true ->
  forall r, In r (rows df) -> List.length r = List.length (columns df).
Proof.
  unfold shaped. rewrite forallb_forall. intros H r Hr.
  apply Nat.eqb_eq. now apply H.
Qed.

Lemma text_keys_spec (df : DataFrame) :
  text_keys df = true ->
  forall r, In r (rows df) ->
    get (columns df) r "join_col" = VStr (key_text (columns df) r).
Proof.
  unfold text_keys, key_text. rewrite forallb_forall. intros H r Hr.
  specialize (H r Hr). destruct (get (columns df) r "join_col");
    simpl in H; try discriminate. reflexivity.
Qed.

Lemma wf_small_spec (df : DataFrame) :
  wf_small df = true ->
  resolves "join_col" (columns df) = true
  /\ ~ In "id" (columns df)
  /\ ~ In "salted_col" (columns df)
  /\ shaped df = true /\ text_keys df = true.
Proof.
  unfold wf_small. rewrite !andb_true_iff, !negb_true_iff, !has_name_false.
  tauto.
Qed.

Lemma wf_skewed_spec (df : DataFrame) :
  wf_skewed df = true ->
  resolves "join_col" (columns df) = true
  /\ ~ In "salted_col" (columns df)
  /\ shaped df = true /\ text_keys df = true.
Proof.
  unfold wf_skewed. rewrite !andb_true_iff, !negb_true_iff, !has_name_false.
  tauto.
Qed.

Lemma salted_cell_text (v : value) (k : string) (i : Z) :
  cast_string v = Some k -> salted_cell v i = VStr (salted_key k i).
Proof.
  intros H. unfold salted_cell.
  assert (E : concat_values [v; VStr "-"; VLong i]
              = concat_values [VStr k; VStr "-"; VLong i])
    by (cbn [concat_values cast_string]; now rewrite H).
  now rewrite E, concat_key_index.
Qed.

Lemma salted_cell_null (i : Z) : salted_cell VNull i = VNull.
Proof. reflexivity. Qed.

Lemma keyed_small_spec (df : DataFrame) :
  keyed_small df = true ->
  resolves "join_col" (columns df) = true
  /\ ~ In "id" (columns df)
  /\ ~ In "salted_col" (columns df)
  /\ shaped df = true.
Proof.
  unfold keyed_small. rewrite !andb_true_iff, !negb_true_iff, !has_name_false.
  tauto.
Qed.

Lemma keyed_skewed_spec (df : DataFrame) :
  keyed_skewed df = true ->
  resolves "join_col" (columns df) = true
  /\ ~ In "salted_col" (columns df)
  /\ shaped df = true.
Proof.
  unfold keyed_skewed.
  rewrite !andb_true_iff, !negb_true_iff, !has_name_false. tauto.
Qed.

(** The small-side cell on any keys: the payload of every row, once per
    salt index, then the salted cell of its key. *)
Lemma small_df_salted_rows (salt_count : Z) (small_df : DataFrame) :
  keyed_small small_df = true ->
  small_df_salted salt_count small_df
  = Some (mkDF (drop_names ["join_col"] (columns small_df) ++ ["salted_col"])
            (flat_map
               (fun r => map (small_salted_cells (columns small_df) r)
                           (seq 0 (Z.to_nat salt_count)))
               (rows small_df))).
Proof.
  intros Hwf. destruct (keyed_small_spec _ Hwf) as (Hjc & Hid & Hsc & Hsh).
  destruct small_df as [rc rrows]. simpl in *.
  unfold small_df_salted, withColumn, crossJoin, salt_df, spark_range. simpl.
  unfold F_concat, F_col. simpl.
  rewrite (resolves_app_l "join_col" rc ["id"] Hjc)
    by (simpl; intuition discriminate).
  rewrite (resolves_app_r "id" rc ["id"] Hid eq_refl).
  replace (has_name "salted_col" (rc ++ ["id"])) with false.
  2:{ symmetry. apply has_name_false. rewrite in_app_iff.
      simpl. intuition discriminate. }
  unfold drop. simpl. f_equal. f_equal.
  - rewrite !drop_names_app. simpl. rewrite app_nil_r. f_equal.
    apply drop_names_ext. intros c Hc. simpl.
    destruct (String.eqb c "id") eqn:E; [|reflexivity].
    apply String.eqb_eq in E. subst. contradiction.
  - rewrite map_map.
    rewrite (indexed_map
               (fun (i : nat) (x : Row) =>
                  drop_row ["id"; "join_col"] ((rc ++ ["id"]) ++ ["salted_col"])
                    (x ++ [value_of_text
                             (concat_values
                                [get (rc ++ ["id"]) x "join_col"; VStr "-";
                                 get (rc ++ ["id"]) x "id"])]))
               (fun x =>
                  drop_row ["id"; "join_col"] ((rc ++ ["id"]) ++ ["salted_col"])
                    (x ++ [value_of_text
                             (concat_values
                                [get (rc ++ ["id"]) x "join_col"; VStr "-";
                                 get (rc ++ ["id"]) x "id"])])))
      by reflexivity.
    rewrite map_flat_map. apply flat_map_ext_in. intros r Hr.
    rewrite !map_map. apply map_ext. intros j.
    pose proof (shaped_spec _ Hsh r Hr) as Hlen. simpl in Hlen.
    rewrite (get_app_l rc ["id"] r [VLong (Z.of_nat j)] "join_col" Hlen
               (resolves_In _ _ Hjc)).
    rewrite (get_app_r rc ["id"] r [VLong (Z.of_nat j)] "id" Hlen Hid).
    change (get ["id"] [VLong (Z.of_nat j)] "id") with (VLong (Z.of_nat j)).
    fold (salted_cell (get rc r "join_col") (Z.of_nat j)).
    rewrite drop_row_app
      by (rewrite !length_app; simpl; lia).
    rewrite drop_row_app by assumption.
    change (drop_row ["id"; "join_col"] ["id"] [VLong (Z.of_nat j)])
      with (@nil value).
    change (drop_row ["id"; "join_col"] ["salted_col"]
              [salted_cell (get rc r "join_col") (Z.of_nat j)])
      with [salted_cell (get rc r "join_col") (Z.of_nat j)].
    rewrite app_nil_r. unfold small_salted_cells. f_equal.
    apply drop_row_ext. intros c Hc. simpl.
    destruct (String.eqb c "id") eqn:E; [|reflexivity].
    apply String.eqb_eq in E. subst. contradiction.
Qed.

Lemma small_df_salted_eq (salt_count : Z) (small_df : DataFrame) :
  wf_small small_df = true ->
  small_df_salted salt_count small_df
  = Some (mkDF (drop_names ["join_col"] (columns small_df) ++ ["salted_col"])
            (flat_map
               (fun r => map (small_salted_row (columns small_df) r)
                           (seq 0 (Z.to_nat salt_count)))
               (rows small_df))).
Proof.
  intros Hwf. destruct (wf_small_spec _ Hwf) as (Hjc & Hid & Hsc & Hsh & Htx).
  rewrite small_df_salted_rows.
  2:{ unfold keyed_small. rewrite Hjc, Hsh.
      now rewrite (proj2 (has_name_false _ _) Hid),
        (proj2 (has_name_false _ _) Hsc). }
  f_equal. f_equal. apply flat_map_ext_in. intros r Hr.
  apply map_ext. intros j.
  unfold small_salted_cells, small_salted_row, key_text.
  pose proof (text_keys_spec _ Htx r Hr) as Hk.
  now rewrite Hk, (salted_cell_text (VStr _) _ _ eq_refl).
Qed.

(** ** Doubles *)

Lemma pow2_pos (e : Z) : (0 < 2 ^ e)%Q.
Proof. apply Qpower_0_lt. reflexivity. Qed.

Lemma pow2_succ (e : Z) : (2 ^ (e + 1) == 2 * 2 ^ e)%Q.
Proof.
  rewrite Qpower_plus by discriminate. rewrite Qpower_1_r. ring.
Qed.

Lemma pow2_pred (e : Z) : (2 ^ (e - 1) == 2 ^ e / 2)%Q.
Proof.
  rewrite Qpower_minus by discriminate. rewrite Qpower_1_r. reflexivity.
Qed.

Lemma pow2_inject (e : Z) : 0 <= e -> (2 ^ e == inject_Z (2 ^ e))%Q.
Proof. intros He. now rewrite Zpower_Qpower. Qed.

Lemma pow2_le (a b : Z) : a <= b -> (2 ^ a <= 2 ^ b)%Q.
Proof. intros H. apply Qpower_le_compat_l; [assumption|discriminate]. Qed.

Lemma pow2_lt (a b : Z) : a < b -> (2 ^ a < 2 ^ b)%Q.
Proof. intros H. apply Qpower_lt_compat_l; [assumption|reflexivity]. Qed.

Lemma pow2_lt_inv (a b : Z) : (2 ^ a < 2 ^ b)%Q -> a < b.
Proof. intros H. apply (Qpower_lt_compat_l_inv 2); [assumption|reflexivity]. Qed.

Lemma ilog2_spec (q : Q) :
  (0 < q)%Q -> (2 ^ ilog2 q <= q < 2 ^ (ilog2 q + 1))%Q.
Proof.
  intros Hq. unfold ilog2.
  destruct q as [n d]. cbn [Qnum Qden].
  assert (Hn : 0 < n) by (unfold Qlt in Hq; simpl in Hq; lia).
  set (a := Z.log2 n). set (b := Z.log2 (Z.pos d)).
  assert (Ha : 2 ^ a <= n < 2 ^ (a + 1)).
  { pose proof (Z.log2_spec n Hn). unfold a. lia. }
  assert (Hb : 2 ^ b <= Z.pos d < 2 ^ (b + 1)).
  { pose proof (Z.log2_spec (Z.pos d) eq_refl). unfold b. lia. }
  assert (Ha0 : 0 <= a) by apply Z.log2_nonneg.
  assert (Hb0 : 0 <= b) by apply Z.log2_nonneg.
  assert (HA : (2 ^ a == inject_Z (2 ^ a))%Q) by now apply pow2_inject.
  assert (HB : (2 ^ b == inject_Z (2 ^ b))%Q) by now apply pow2_inject.
  assert (Hk : (2 ^ (a - b) == 2 ^ a / 2 ^ b)%Q)
    by (apply Qpower_minus; discriminate).
  assert (Hq' : (n # d == inject_Z n / inject_Z (Z.pos d))%Q)
    by apply Qmake_Qdiv.
  assert (Hd : (0 < inject_Z (Z.pos d))%Q) by reflexivity.
  assert (HBp : (0 < 2 ^ b)%Q) by apply pow2_pos.
  assert (HAp : (0 < 2 ^ a)%Q) by apply pow2_pos.
  assert (HaQ : (2 ^ a <= inject_Z n)%Q /\ (inject_Z n < 2 * 2 ^ a)%Q).
  { rewrite HA. split.
    - rewrite <- Zle_Qle. lia.
    - change 2%Q with (inject_Z 2). rewrite <- inject_Z_mult, <- Zlt_Qlt.
      replace (a + 1) with (Z.succ a) in Ha by lia.
      rewrite Z.pow_succ_r in Ha by assumption. lia. }
  assert (HbQ : (2 ^ b <= inject_Z (Z.pos d))%Q
                /\ (inject_Z (Z.pos d) < 2 * 2 ^ b)%Q).
  { rewrite HB. split.
    - rewrite <- Zle_Qle. lia.
    - change 2%Q with (inject_Z 2). rewrite <- inject_Z_mult, <- Zlt_Qlt.
      replace (b + 1) with (Z.succ b) in Hb by lia.
      rewrite Z.pow_succ_r in Hb by assumption. lia. }
  set (N := inject_Z n) in *. set (D := inject_Z (Z.pos d)) in *.
  set (A := (2 ^ a)%Q) in *. set (B := (2 ^ b)%Q) in *.
  assert (Hup : (N / D < 2 * (A / B))%Q).
  { apply Qlt_shift_div_r; [assumption|].
    setoid_replace (2 * (A / B) * D)%Q with ((2 * A) * (D / B))%Q
      by (field; intros E; rewrite E in HBp; discriminate).
    assert (1 <= D / B)%Q
      by (apply Qle_shift_div_l; [assumption|]; lra).
    nra. }
  assert (Hlo : (A / B / 2 <= N / D)%Q).
  { apply Qle_shift_div_l; [assumption|].
    setoid_replace (A / B / 2 * D)%Q with (A * (D / B / 2))%Q
      by (field; intros E; rewrite E in HBp; discriminate).
    assert (D / B / 2 <= 1)%Q.
    { apply Qle_shift_div_r; [reflexivity|].
      apply Qle_shift_div_r; [assumption|]. lra. }
    nra. }
  destruct (Qle_bool (2 ^ (a - b)) (n # d)) eqn:E.
  - apply Qle_bool_iff in E. split; [assumption|].
    rewrite pow2_succ, Hk, Hq'. assumption.
  - assert (E' : (n # d < 2 ^ (a - b))%Q).
    { apply Qnot_le_lt. intros H. apply Qle_bool_iff in H. congruence. }
    replace (a - b - 1 + 1) with (a - b) by lia.
    split; [|assumption].
    rewrite pow2_pred, Hk, Hq'. assumption.
Qed.

Lemma ilog2_le (q : Q) (e : Z) :
  (0 < q)%Q -> (q < 2 ^ (e + 1))%Q -> ilog2 q <= e.
Proof.
  intros Hq H. destruct (ilog2_spec q Hq) as [H1 _].
  assert (Hlt : (2 ^ ilog2 q < 2 ^ (e + 1))%Q) by lra.
  apply pow2_lt_inv in Hlt. lia.
Qed.

Lemma ilog2_ge (q : Q) (e : Z) :
  (2 ^ e <= q)%Q -> e <= ilog2 q.
Proof.
  intros H.
  assert (Hq : (0 < q)%Q) by (pose proof (pow2_pos e); lra).
  destruct (ilog2_spec q Hq) as [_ H2].
  assert (Hlt : (2 ^ e < 2 ^ (ilog2 q + 1))%Q) by lra.
  apply pow2_lt_inv in Hlt. lia.
Qed.

Lemma ilog2_comp (a b : Q) : (0 < a)%Q -> (a == b)%Q -> ilog2 a = ilog2 b.
Proof.
  intros Ha E. assert (Hb : (0 < b)%Q) by now rewrite <- E.
  destruct (ilog2_spec a Ha) as [A1 A2], (ilog2_spec b Hb) as [B1 B2].
  assert (A1' : (2 ^ ilog2 a <= b)%Q) by (rewrite <- E; exact A1).
  assert (A2' : (b < 2 ^ (ilog2 a + 1))%Q) by (rewrite <- E; exact A2).
  pose proof (ilog2_le b (ilog2 a) Hb A2').
  pose proof (ilog2_ge b (ilog2 a) A1'). lia.
Qed.

Lemma round_half_even_near (q : Q) :
  (q - (1 # 2) <= inject_Z (round_half_even q) <= q + (1 # 2))%Q.
Proof.
  unfold round_half_even.
  pose proof (Qfloor_le q) as H1. pose proof (Qlt_floor q) as H2.
  rewrite inject_Z_plus in H2. change (inject_Z 1) with 1%Q in H2.
  destruct (q - inject_Z (Qfloor q) ?= 1 # 2)%Q eqn:E.
  - apply Qeq_alt in E.
    destruct (Z.even (Qfloor q)); [|rewrite inject_Z_plus;
                                    change (inject_Z 1) with 1%Q]; lra.
  - apply Qlt_alt in E. lra.
  - apply Qgt_alt in E. rewrite inject_Z_plus.
    change (inject_Z 1) with 1%Q. lra.
Qed.

Lemma round_half_even_comp (a b : Q) :
  (a == b)%Q -> round_half_even a = round_half_even b.
Proof.
  intros E. unfold round_half_even.
  rewrite (Qfloor_comp a b E).
  assert (Hc : (a - inject_Z (Qfloor b) ?= 1 # 2)%Q
               = (b - inject_Z (Qfloor b) ?= 1 # 2)%Q).
  { apply Qcompare_comp; [now rewrite E|reflexivity]. }
  now rewrite Hc.
Qed.

Lemma round_half_even_le (q : Q) (n : Z) :
  (q <= inject_Z n)%Q -> round_half_even q <= n.
Proof.
  intros H. pose proof (round_half_even_near q) as [_ Hn].
  assert (Hlt : (inject_Z (round_half_even q) < inject_Z (n + 1))%Q).
  { rewrite inject_Z_plus. change (inject_Z 1) with 1%Q. lra. }
  rewrite <- Zlt_Qlt in Hlt. lia.
Qed.

Lemma round_half_even_ge (q : Q) (n : Z) :
  (inject_Z n <= q)%Q -> n <= round_half_even q.
Proof.
  intros H. pose proof (round_half_even_near q) as [Hn _].
  assert (Hlt : (inject_Z (n - 1) < inject_Z (round_half_even q))%Q).
  { replace (n - 1) with (n + -1) by lia. rewrite inject_Z_plus.
    change (inject_Z (-1)) with (- (1))%Q. lra. }
  rewrite <- Zlt_Qlt in Hlt. lia.
Qed.

Lemma round_half_even_lt (q : Q) (n : Z) :
  (q < inject_Z n - (1 # 2))%Q -> round_half_even q <= n - 1.
Proof.
  intros H. pose proof (round_half_even_near q) as [_ Hn].
  assert (Hlt : (inject_Z (round_half_even q) < inject_Z n)%Q) by lra.
  rewrite <- Zlt_Qlt in Hlt. lia.
Qed.

Lemma ulp_pos (q : Q) : (0 < ulp q)%Q.
Proof. apply pow2_pos. Qed.

Lemma round_double_eval (x : Q) :
  ~ (x == 0)%Q ->
  (round_double x == inject_Z (round_half_even (x / ulp x)) * ulp x)%Q.
Proof.
  intros Hx. unfold round_double.
  destruct (Qeq_bool x 0) eqn:E.
  - apply Qeq_bool_eq in E. contradiction.
  - apply Qred_correct.
Qed.

Lemma round_double_0 (x : Q) : (x == 0)%Q -> round_double x = 0%Q.
Proof.
  intros E. unfold round_double. now rewrite (proj2 (Qeq_bool_iff x 0) E).
Qed.

(** A bound that is a multiple of a power of two at least as coarse as
    the doubles around x stays a bound of the double of x. *)
Lemma round_double_le_multiple (x : Q) (n c : Z) :
  (0 < x)%Q -> ilog2 x - 52 <= c -> -1074 <= c ->
  (x <= inject_Z n * 2 ^ c)%Q ->
  (round_double x <= inject_Z n * 2 ^ c)%Q.
Proof.
  intros Hx Hc Hc' Hb.
  rewrite round_double_eval by lra.
  assert (Habs : ilog2 (Qabs x) = ilog2 x).
  { apply ilog2_comp; [|apply Qabs_pos; lra].
    rewrite Qabs_pos; lra. }
  unfold ulp. rewrite Habs.
  set (cx := Z.max (ilog2 x) (-1022) - 52).
  assert (Hcx : cx <= c) by (unfold cx; lia).
  assert (Hsplit : (2 ^ c == inject_Z (2 ^ (c - cx)) * 2 ^ cx)%Q).
  { rewrite <- pow2_inject by lia. rewrite <- Qpower_plus by discriminate.
    now replace (c - cx + cx) with c by lia. }
  pose proof (pow2_pos cx) as Hu. set (u := (2 ^ cx)%Q) in *.
  rewrite Hsplit in Hb |- *.
  rewrite Qmult_assoc, <- inject_Z_mult in Hb |- *.
  apply Qmult_le_compat_r; [|lra].
  rewrite <- Zle_Qle. apply round_half_even_le.
  apply Qle_shift_div_r; assumption.
Qed.

Lemma round_double_ge_multiple (x : Q) (n c : Z) :
  (0 < x)%Q -> ilog2 x - 52 <= c -> -1074 <= c ->
  (inject_Z n * 2 ^ c <= x)%Q ->
  (inject_Z n * 2 ^ c <= round_double x)%Q.
Proof.
  intros Hx Hc Hc' Hb.
  rewrite round_double_eval by lra.
  assert (Habs : ilog2 (Qabs x) = ilog2 x).
  { apply ilog2_comp; [|apply Qabs_pos; lra].
    rewrite Qabs_pos; lra. }
  unfold ulp. rewrite Habs.
  set (cx := Z.max (ilog2 x) (-1022) - 52).
  assert (Hcx : cx <= c) by (unfold cx; lia).
  assert (Hsplit : (2 ^ c == inject_Z (2 ^ (c - cx)) * 2 ^ cx)%Q).
  { rewrite <- pow2_inject by lia. rewrite <- Qpower_plus by discriminate.
    now replace (c - cx + cx) with c by lia. }
  pose proof (pow2_pos cx) as Hu. set (u := (2 ^ cx)%Q) in *.
  rewrite Hsplit in Hb |- *.
  rewrite Qmult_assoc, <- inject_Z_mult in Hb |- *.
  apply Qmult_le_compat_r; [|lra].
  rewrite <- Zle_Qle. apply round_half_even_ge.
  apply Qle_shift_div_l; assumption.
Qed.

Lemma round_double_nonneg (x : Q) : (0 <= x)%Q -> (0 <= round_double x)%Q.
Proof.
  intros Hx. destruct (Qeq_dec x 0) as [E|N].
  - rewrite (round_double_0 x E). apply Qle_refl.
  - assert (Hpos : (0 < x)%Q) by lra.
    rewrite round_double_eval by assumption.
    apply Qmult_le_0_compat; [|apply Qlt_le_weak, ulp_pos].
    change 0%Q with (inject_Z 0). rewrite <- Zle_Qle.
    apply round_half_even_ge. change (inject_Z 0) with 0%Q.
    apply Qle_shift_div_l; [apply ulp_pos|]. rewrite Qmult_0_l. lra.
Qed.

(** The double of x is within half an ulp of x. *)
Lemma round_double_error (x : Q) :
  (x - ulp x / 2 <= round_double x <= x + ulp x / 2)%Q.
Proof.
  pose proof (ulp_pos x) as Hu.
  destruct (Qeq_dec x 0) as [E|N].
  - rewrite (round_double_0 x E).
    assert (H : (0 < ulp x / 2)%Q) by (apply Qlt_shift_div_l; lra).
    set (u := ulp x) in *. lra.
  - rewrite round_double_eval by assumption.
    pose proof (round_half_even_near (x / ulp x)) as [H1 H2].
    set (m := inject_Z (round_half_even (x / ulp x))) in *.
    set (u := ulp x) in *.
    assert (E : (x == x / u * u)%Q) by (field; lra).
    split.
    + setoid_replace (x - u / 2)%Q with ((x / u - (1 # 2)) * u)%Q
        by (field; lra).
      apply Qmult_le_compat_r; lra.
    + setoid_replace (x + u / 2)%Q with ((x / u + (1 # 2)) * u)%Q
        by (field; lra).
      apply Qmult_le_compat_r; lra.
Qed.

(** Divisions by a constant, written as products for lra. *)
Ltac qconst :=
  try unfold Qdiv in *;
  repeat match goal with
    | H : context [Qinv (Qmake ?a ?b)] |- _ =>
        let v := eval vm_compute in (Qinv (Qmake a b)) in
        change (Qinv (Qmake a b)) with v in H
    | |- context [Qinv (Qmake ?a ?b)] =>
        let v := eval vm_compute in (Qinv (Qmake a b)) in
        change (Qinv (Qmake a b)) with v
    end.
Ltac qlra := qconst; lra.
Ltac qnra := qconst; nra.

Lemma double_of_draw_range (r : Q) :
  (0 <= r < 1)%Q ->
  exists j, 0 <= j < 9007199254740992
            /\ (double_of_draw r == inject_Z j / 9007199254740992)%Q.
Proof.
  intros [H0 H1]. exists (Qfloor (r * 9007199254740992)).
  split; [|apply Qred_correct].
  pose proof (Qfloor_le (r * 9007199254740992)) as Hf.
  pose proof (Qlt_floor (r * 9007199254740992)) as Hg.
  rewrite inject_Z_plus in Hg. change (inject_Z 1) with 1%Q in Hg.
  split.
  - assert (H : (inject_Z (-1) < inject_Z (Qfloor (r * 9007199254740992)))%Q).
    { change (inject_Z (-1)) with (- (1))%Q. qlra. }
    rewrite <- Zlt_Qlt in H. lia.
  - rewrite Zlt_Qlt. change (inject_Z 9007199254740992) with 9007199254740992%Q.
    qlra.
Qed.

Lemma ulp_of_pos (x : Q) (e : Z) :
  (2 ^ e <= x < 2 ^ (e + 1))%Q -> -1022 <= e -> ulp x = (2 ^ (e - 52))%Q.
Proof.
  intros [H1 H2] He. unfold ulp.
  assert (Hx : (0 < x)%Q) by (pose proof (pow2_pos e); qlra).
  assert (Habs : ilog2 (Qabs x) = ilog2 x).
  { apply ilog2_comp; [|apply Qabs_pos; qlra]. rewrite Qabs_pos; qlra. }
  rewrite Habs.
  pose proof (ilog2_le x e Hx H2). pose proof (ilog2_ge x e H1).
  replace (ilog2 x) with e by lia. now rewrite Z.max_l by lia.
Qed.

Lemma pow2_shift (e k : Z) : (2 ^ e == 2 ^ k * 2 ^ (e - k))%Q.
Proof.
  rewrite <- Qpower_plus by discriminate. now replace (k + (e - k)) with e by lia.
Qed.

(** The product of a draw and a salt count, in doubles, stays below the
    salt count. *)
Lemma salt_product_range (r : Q) (s : Z) :
  (0 <= r < 1)%Q -> 1 <= s ->
  (0 <= round_double (double_of_draw r * double_of_long s)
   < inject_Z s)%Q.
Proof.
  intros Hr Hs.
  destruct (double_of_draw_range r Hr) as (j & Hj & Ed).
  set (d := double_of_draw r) in *.
  assert (HsQ : (1 <= inject_Z s)%Q)
    by (change 1%Q with (inject_Z 1); rewrite <- Zle_Qle; lia).
  assert (Hspos : (0 < inject_Z s)%Q) by qlra.
  set (e := ilog2 (inject_Z s)).
  destruct (ilog2_spec (inject_Z s) Hspos) as [He1 He2]. fold e in He1, He2.
  assert (He0 : 0 <= e).
  { apply ilog2_ge. change (2 ^ 0)%Q with 1%Q. assumption. }
  assert (Hulp : ulp (inject_Z s) = (2 ^ (e - 52))%Q)
    by (apply ulp_of_pos; [split; assumption|lia]).
  pose proof (pow2_pos (e - 52)) as HU.
  assert (E0 : (2 ^ e == 4503599627370496 * 2 ^ (e - 52))%Q)
    by (rewrite (pow2_shift e 52); reflexivity).
  assert (E1 : (2 ^ (e + 1) == 9007199254740992 * 2 ^ (e - 52))%Q).
  { rewrite (pow2_shift (e + 1) 53).
    now replace (e + 1 - 53) with (e - 52) by lia. }
  assert (E2 : (2 ^ (e - 53) == 2 ^ (e - 52) / 2)%Q).
  { replace (e - 53) with (e - 52 - 1) by lia. apply pow2_pred. }
  set (U := (2 ^ (e - 52))%Q) in *.
  set (m := round_half_even (inject_Z s / U)).
  assert (Es' : (double_of_long s == inject_Z m * U)%Q).
  { unfold double_of_long. rewrite round_double_eval by qlra.
    rewrite Hulp. reflexivity. }
  pose proof (round_half_even_near (inject_Z s / U)) as Hm. fold m in Hm.
  assert (HsU : (inject_Z s == inject_Z s / U * U)%Q) by (field; qlra).
  assert (Hm1 : 4503599627370496 <= m).
  { apply round_half_even_ge.
    change (inject_Z 4503599627370496) with 4503599627370496%Q.
    apply Qle_shift_div_l; [assumption|]. qlra. }
  assert (Hm2 : m <= 9007199254740992).
  { apply round_half_even_le.
    change (inject_Z 9007199254740992) with 9007199254740992%Q.
    apply Qle_shift_div_r; [assumption|]. qlra. }
  assert (Hm1Q : (4503599627370496 <= inject_Z m)%Q)
    by (change 4503599627370496%Q with (inject_Z 4503599627370496);
        rewrite <- Zle_Qle; lia).
  assert (Hm2Q : (inject_Z m <= 9007199254740992)%Q)
    by (change 9007199254740992%Q with (inject_Z 9007199254740992);
        rewrite <- Zle_Qle; lia).
  assert (Hd0 : (0 <= d)%Q).
  { rewrite Ed. apply Qle_shift_div_l; [reflexivity|]. rewrite Qmult_0_l.
    change 0%Q with (inject_Z 0). rewrite <- Zle_Qle. lia. }
  assert (Hd1 : (d <= 1 - 1 / 9007199254740992)%Q).
  { rewrite Ed. apply Qle_shift_div_r; [reflexivity|].
    setoid_replace ((1 - 1 / 9007199254740992) * 9007199254740992)%Q
      with (inject_Z 9007199254740991) by reflexivity.
    rewrite <- Zle_Qle. lia. }
  split.
  { apply round_double_nonneg. rewrite Es'.
    apply Qmult_le_0_compat; [assumption|].
    apply Qmult_le_0_compat; qlra. }
  set (x := (d * double_of_long s)%Q).
  assert (Ex : (x == d * inject_Z m * U)%Q)
    by (unfold x; rewrite Es'; ring).
  assert (HUdef : (2 ^ (e - 52))%Q = U) by reflexivity.
  clearbody x d m U.
  destruct (Qeq_dec x 0) as [Ez|Hnz].
  { rewrite (round_double_0 x Ez). assumption. }
  assert (HmU : (0 < inject_Z m * U)%Q) by qnra.
  assert (Hxpos : (0 < x)%Q).
  { assert (0 <= x)%Q by (rewrite Ex; qnra). qlra. }
  assert (Hxub : (x <= inject_Z m * U - inject_Z m * U / 9007199254740992)%Q).
  { rewrite Ex.
    setoid_replace (inject_Z m * U - inject_Z m * U / 9007199254740992)%Q
      with ((1 - 1 / 9007199254740992) * (inject_Z m * U))%Q by field.
    rewrite <- Qmult_assoc. apply Qmult_le_compat_r; qlra. }
  assert (Hserr : (inject_Z m * U - U / 2 <= inject_Z s)%Q).
  { destruct Hm as [_ Hm]. rewrite HsU.
    setoid_replace (inject_Z m * U - U / 2)%Q
      with ((inject_Z m - (1 # 2)) * U)%Q by field.
    apply Qmult_le_compat_r; qlra. }
  destruct (Z.eq_dec m 4503599627370496) as [Em|Nm].
  - (* the double of s is the power of two 2^e *)
    rewrite Em in *.
    change (inject_Z 4503599627370496) with 4503599627370496%Q in *.
    assert (Hb : (x <= inject_Z 9007199254740991 * 2 ^ (e - 53))%Q).
    { rewrite E2. change (inject_Z 9007199254740991) with 9007199254740991%Q.
      qlra. }
    assert (Hlog : ilog2 x - 52 <= e - 53).
    { assert (ilog2 x <= e - 1); [|lia].
      apply ilog2_le; [assumption|].
      replace (e - 1 + 1) with e by lia. qlra. }
    pose proof (round_double_le_multiple x 9007199254740991 (e - 53)
                  Hxpos Hlog ltac:(lia) Hb) as Hround.
    rewrite E2 in Hround.
    change (inject_Z 9007199254740991) with 9007199254740991%Q in Hround.
    qlra.
  - assert (Hm3 : (4503599627370497 <= inject_Z m)%Q)
      by (change 4503599627370497%Q with (inject_Z 4503599627370497);
          rewrite <- Zle_Qle; lia).
    assert (Hgoal : (round_double x <= inject_Z (m - 1) * U)%Q).
    { destruct (Qlt_le_dec (inject_Z (m - 1) * U) x) as [Hgt|Hle].
      - (* x lies in the binade of the double of s *)
        assert (Hm' : (inject_Z (m - 1) == inject_Z m - 1)%Q).
        { unfold Z.sub. rewrite inject_Z_plus. reflexivity. }
        rewrite Hm' in Hgt |- *.
        assert (Hbin : (2 ^ e <= x < 2 ^ (e + 1))%Q).
        { rewrite E0, E1. split; qnra. }
        rewrite round_double_eval by assumption.
        rewrite (ulp_of_pos x e Hbin ltac:(lia)), HUdef.
        apply Qmult_le_compat_r; [|qlra].
        rewrite <- Hm', <- Zle_Qle. apply round_half_even_lt.
        apply Qlt_shift_div_r; [assumption|].
        setoid_replace ((inject_Z m - (1 # 2)) * U)%Q
          with (inject_Z m * U - U / 2)%Q by field.
        assert (U / 2 < inject_Z m * U / 9007199254740992)%Q.
        { setoid_replace (inject_Z m * U / 9007199254740992)%Q
            with (inject_Z m / 9007199254740992 * U)%Q by field.
          setoid_replace (U / 2)%Q with ((1 # 2) * U)%Q by field.
          apply Qmult_lt_compat_r; [assumption|].
          apply Qlt_shift_div_l; [reflexivity|]. qlra. }
        qlra.
      - assert (Hlog : ilog2 x - 52 <= e - 52).
        { assert (ilog2 x <= e); [|lia].
          apply ilog2_le; [assumption|]. rewrite E1.
          assert (Hm' : (inject_Z (m - 1) == inject_Z m - 1)%Q).
          { unfold Z.sub. rewrite inject_Z_plus. reflexivity. }
          rewrite Hm' in Hle. qnra. }
        pose proof (round_double_le_multiple x (m - 1) (e - 52)
                      Hxpos Hlog ltac:(lia)) as HR.
        rewrite HUdef in HR. now apply HR. }
    assert (Hm' : (inject_Z (m - 1) == inject_Z m - 1)%Q).
    { unfold Z.sub. rewrite inject_Z_plus. reflexivity. }
    rewrite Hm' in Hgoal. qlra.
Qed.

Lemma round_half_up_comp (a b : Q) (d : nat) :
  (a == b)%Q -> round_half_up a d = round_half_up b d.
Proof.
  intros E. unfold round_half_up.
  assert (Hb : Qle_bool 0 a = Qle_bool 0 b).
  { destruct (Qle_bool 0 a) eqn:Ea, (Qle_bool 0 b) eqn:Eb; try reflexivity.
    - apply Qle_bool_iff in Ea. rewrite E in Ea. apply Qle_bool_iff in Ea.
      congruence.
    - apply Qle_bool_iff in Eb. rewrite <- E in Eb. apply Qle_bool_iff in Eb.
      congruence. }
  rewrite Hb. destruct (Qle_bool 0 b); apply Qred_complete; now rewrite E.
Qed.

Lemma round_half_up_near (q : Q) :
  (q - (1 # 2000) <= round_half_up q 3 <= q + (1 # 2000))%Q.
Proof.
  unfold round_half_up.
  change (inject_Z (10 ^ Z.of_nat 3)) with (1000 # 1)%Q.
  destruct (Qle_bool 0 q); rewrite Qred_correct.
  - pose proof (Qfloor_le (q * (1000 # 1) + (1 # 2))) as H1.
    pose proof (Qlt_floor (q * (1000 # 1) + (1 # 2))) as H2.
    rewrite inject_Z_plus in H2.
    set (f := inject_Z (Qfloor (q * (1000 # 1) + (1 # 2)))) in *.
    change (inject_Z 1) with 1%Q in H2.
    unfold Qdiv. change (/ (1000 # 1))%Q with (1 # 1000)%Q.
    split; lra.
  - pose proof (Qfloor_le (- q * (1000 # 1) + (1 # 2))) as H1.
    pose proof (Qlt_floor (- q * (1000 # 1) + (1 # 2))) as H2.
    rewrite inject_Z_plus in H2.
    set (f := inject_Z (Qfloor (- q * (1000 # 1) + (1 # 2)))) in *.
    change (inject_Z 1) with 1%Q in H2.
    unfold Qdiv. change (/ (1000 # 1))%Q with (1 # 1000)%Q.
    split; lra.
Qed.

Lemma shortest_from_spec (fuel : nat) (q : Q) (j : Z) :
  shortest_from fuel q j = q
  \/ (round_double (shortest_from fuel q j) == q)%Q.
Proof.
  revert j. induction fuel as [|fuel IH]; intros j; [now left|].
  cbn [shortest_from].
  set (lo := (inject_Z (Qfloor (q / 10 ^ j)) * 10 ^ j)%Q).
  set (hi := (lo + 10 ^ j)%Q).
  destruct (reads_back q lo) eqn:El, (reads_back q hi) eqn:Eh.
  - destruct (Qle_bool (q - lo) (hi - q)); right;
      now apply Qeq_bool_eq.
  - right. now apply Qeq_bool_eq.
  - right. now apply Qeq_bool_eq.
  - apply IH.
Qed.

Lemma Qabs_pos_lt (a : Q) : ~ (a == 0)%Q -> (0 < Qabs a)%Q.
Proof.
  intros Ha. pose proof (Qabs_nonneg a) as H0.
  destruct (Qeq_dec (Qabs a) 0) as [Z|NZ]; [|lra].
  exfalso. apply Ha.
  assert (H : (Qabs a <= 0)%Q) by lra.
  apply Qabs_Qle_condition in H. lra.
Qed.

Lemma round_double_comp (a b : Q) :
  (a == b)%Q -> round_double a = round_double b.
Proof.
  intros E. unfold round_double.
  assert (Hz : Qeq_bool a 0 = Qeq_bool b 0).
  { destruct (Qeq_bool a 0) eqn:Ea, (Qeq_bool b 0) eqn:Eb; try reflexivity.
    - apply Qeq_bool_eq in Ea. rewrite E in Ea.
      apply Qeq_bool_iff in Ea. congruence.
    - apply Qeq_bool_eq in Eb. rewrite <- E in Eb.
      apply Qeq_bool_iff in Eb. congruence. }
  rewrite Hz. destruct (Qeq_bool b 0) eqn:Eb; [reflexivity|].
  assert (Hb : ~ (b == 0)%Q).
  { intros H. apply Qeq_bool_iff in H. congruence. }
  assert (Ha : ~ (a == 0)%Q) by now rewrite E.
  assert (Hu : ulp a = ulp b).
  { unfold ulp. f_equal. f_equal. f_equal. apply ilog2_comp.
    - now apply Qabs_pos_lt.
    - now apply Qabs_wd. }
  rewrite Hu. apply Qred_complete.
  rewrite (round_half_even_comp (a / ulp b) (b / ulp b)); [reflexivity|].
  now rewrite E.
Qed.

(** The double of x is within 2^(k-53) of x when |x| < 2^(k+1). *)
Lemma round_double_near (x : Q) (k : Z) :
  (Qabs x < 2 ^ (k + 1))%Q -> -1022 <= k ->
  (x - 2 ^ (k - 53) <= round_double x <= x + 2 ^ (k - 53))%Q.
Proof.
  intros Hx Hk. pose proof (pow2_pos (k - 53)) as Hp.
  destruct (Qeq_dec x 0) as [E|N].
  - rewrite (round_double_0 x E). lra.
  - pose proof (round_double_error x) as Herr.
    assert (Hu : (ulp x / 2 <= 2 ^ (k - 53))%Q).
    { unfold ulp.
      pose proof (ilog2_le (Qabs x) k (Qabs_pos_lt x N) Hx) as Hl.
      replace (k - 53) with (k - 52 - 1) by lia. rewrite pow2_pred.
      apply Qmult_le_compat_r; [|discriminate].
      apply pow2_le. lia. }
    lra.
Qed.

Lemma double_of_long_exact (z : Z) :
  0 < z < 9007199254740992 -> (double_of_long z == inject_Z z)%Q.
Proof.
  intros Hz. unfold double_of_long.
  assert (Hpos : (0 < inject_Z z)%Q)
    by (change 0%Q with (inject_Z 0); rewrite <- Zlt_Qlt; lia).
  assert (Hlog : ilog2 (inject_Z z) - 52 <= 0).
  { assert (ilog2 (inject_Z z) <= 52); [|lia].
    apply ilog2_le; [assumption|].
    change (2 ^ (52 + 1))%Q with (inject_Z 9007199254740992).
    rewrite <- Zlt_Qlt. lia. }
  assert (E : (inject_Z z * 2 ^ 0 == inject_Z z)%Q)
    by (change (2 ^ 0)%Q with 1%Q; ring).
  pose proof (round_double_le_multiple (inject_Z z) z 0 Hpos Hlog ltac:(lia))
    as H1.
  pose proof (round_double_ge_multiple (inject_Z z) z 0 Hpos Hlog ltac:(lia))
    as H2.
  rewrite E in H1, H2.
  apply Qle_antisym; [apply H1|apply H2]; apply Qle_refl.
Qed.

Lemma shortest_from_nonneg (fuel : nat) (q : Q) (j : Z) :
  (0 <= q)%Q -> (0 <= shortest_from fuel q j)%Q.
Proof.
  intros Hq. revert j. induction fuel as [|fuel IH]; intros j; [assumption|].
  cbn [shortest_from].
  pose proof (Qpower_0_lt 10 j eq_refl) as Hstep.
  set (step := (10 ^ j)%Q) in *.
  assert (Hlo : (0 <= inject_Z (Qfloor (q / step)) * step)%Q).
  { apply Qmult_le_0_compat; [|lra].
    change 0%Q with (inject_Z 0). rewrite <- Zle_Qle.
    rewrite <- (Qfloor_Z 0). apply Qfloor_resp_le.
    apply Qle_shift_div_l; [assumption|]. now rewrite Qmult_0_l. }
  destruct (reads_back q _), (reads_back q _);
    try destruct (Qle_bool _ _); try apply IH; lra.
Qed.

Lemma shortest_decimal_spec (q : Q) :
  (0 <= q)%Q ->
  (0 <= shortest_decimal q)%Q
  /\ ((shortest_decimal q == q)%Q
      \/ (round_double (shortest_decimal q) == q)%Q).
Proof.
  intros Hq. unfold shortest_decimal.
  rewrite (proj2 (Qle_bool_iff 0 q) Hq).
  pose proof (Qabs_pos q Hq) as Ea.
  set (j := (ilog2 (Qabs q) + 1) * 30103 / 100000 + 2).
  assert (Ha : (0 <= Qabs q)%Q) by apply Qabs_nonneg.
  split.
  - rewrite Qred_correct. now apply shortest_from_nonneg.
  - destruct (shortest_from_spec 40 (Qabs q) j) as [E|E].
    + left. rewrite Qred_correct, E. assumption.
    + right.
      rewrite (round_double_comp _ (shortest_from 40 (Qabs q) j))
        by apply Qred_correct.
      now rewrite E.
Qed.

(** A double of at least 2^k is the double of something of at least 2^k
    only. *)
Lemma round_double_ge_pow2 (x : Q) (k : Z) :
  -1022 <= k -> (2 ^ k <= x)%Q -> (2 ^ k <= round_double x)%Q.
Proof.
  intros Hk Hx.
  assert (Hpos : (0 < x)%Q) by (pose proof (pow2_pos k); lra).
  pose proof (ilog2_ge x k Hx) as Hl.
  destruct (ilog2_spec x Hpos) as [H1 _].
  set (e := ilog2 x) in *.
  assert (E : (inject_Z 4503599627370496 * 2 ^ (e - 52) == 2 ^ e)%Q).
  { rewrite (pow2_shift e 52). reflexivity. }
  pose proof (round_double_ge_multiple x 4503599627370496 (e - 52) Hpos
                ltac:(fold e; lia) ltac:(lia)) as H.
  rewrite E in H. specialize (H H1).
  pose proof (pow2_le k e Hl). lra.
Qed.

(** The percentage cell of the diagnostic is within 0.0005 (and the
    rounding of four operations on doubles) of the exact share. *)
Lemma pct_near (c n : Z) :
  1 <= c <= n -> n < 9007199254740992 ->
  let p := round_decimals
             (round_double
                (round_double (double_of_long c / double_of_long n)
                 * double_of_long 100)) 3 in
  (inject_Z c / inject_Z n * 100 - ((1 # 2000) + (1 # 17592186044416))
   <= p
   <= inject_Z c / inject_Z n * 100 + ((1 # 2000) + (1 # 17592186044416)))%Q.
Proof.
  intros Hc Hn.
  assert (EC : (double_of_long c == inject_Z c)%Q)
    by (apply double_of_long_exact; lia).
  assert (EN : (double_of_long n == inject_Z n)%Q)
    by (apply double_of_long_exact; lia).
  assert (EH : (double_of_long 100 == 100)%Q)
    by (apply (double_of_long_exact 100); lia).
  assert (HN : (0 < inject_Z n)%Q)
    by (change 0%Q with (inject_Z 0); rewrite <- Zlt_Qlt; lia).
  assert (HC : (0 < inject_Z c)%Q)
    by (change 0%Q with (inject_Z 0); rewrite <- Zlt_Qlt; lia).
  assert (HCN : (inject_Z c <= inject_Z n)%Q) by (rewrite <- Zle_Qle; lia).
  set (q1 := (inject_Z c / inject_Z n)%Q).
  assert (Hq1 : (0 < q1 <= 1)%Q).
  { unfold q1. split.
    - apply Qlt_shift_div_l; [assumption|]. now rewrite Qmult_0_l.
    - apply Qle_shift_div_r; [assumption|]. now rewrite Qmult_1_l. }
  rewrite (round_double_comp (double_of_long c / double_of_long n) q1)
    by (unfold q1; now rewrite EC, EN).
  set (d1 := round_double q1).
  assert (Hd1 : (q1 - (1 # 9007199254740992) <= d1
                 <= q1 + (1 # 9007199254740992))%Q).
  { apply (round_double_near q1 0); [|lia].
    rewrite Qabs_pos by lra. change (2 ^ (0 + 1))%Q with 2%Q. lra. }
  assert (Hd1r : (0 <= d1 <= 1)%Q).
  { split; [apply round_double_nonneg; lra|].
    assert (Hl : ilog2 q1 - 52 <= 0).
    { assert (ilog2 q1 <= 0); [|lia]. apply ilog2_le; [lra|].
      change (2 ^ (0 + 1))%Q with 2%Q. lra. }
    pose proof (round_double_le_multiple q1 1 0 ltac:(lra) Hl ltac:(lia))
      as H. change (inject_Z 1 * 2 ^ 0)%Q with 1%Q in H. apply H. lra. }
  rewrite (round_double_comp (d1 * double_of_long 100) (d1 * 100))
    by now rewrite EH.
  set (q2 := (d1 * 100)%Q).
  assert (Hq2 : (0 <= q2 <= 100)%Q) by (unfold q2; lra).
  set (d2 := round_double q2).
  assert (Hd2 : (q2 - (1 # 140737488355328) <= d2
                 <= q2 + (1 # 140737488355328))%Q).
  { apply (round_double_near q2 6); [|lia].
    rewrite Qabs_pos by lra. change (2 ^ (6 + 1))%Q with 128%Q. lra. }
  assert (Hd2r : (0 <= d2 <= 100)%Q).
  { split; [apply round_double_nonneg; lra|].
    destruct (Qeq_dec q2 0) as [Z|NZ].
    - unfold d2. rewrite (round_double_0 q2 Z). discriminate.
    - assert (Hl : ilog2 q2 - 52 <= 0).
      { assert (ilog2 q2 <= 6); [|lia]. apply ilog2_le; [lra|].
        change (2 ^ (6 + 1))%Q with 128%Q. lra. }
      pose proof (round_double_le_multiple q2 100 0 ltac:(lra) Hl ltac:(lia))
        as H. change (inject_Z 100 * 2 ^ 0)%Q with 100%Q in H.
      apply H. lra. }
  unfold round_decimals.
  destruct (shortest_decimal_spec d2 ltac:(lra)) as [Hs0 Hs].
  set (s := shortest_decimal d2) in *.
  assert (Hsd : (d2 - (1 # 140737488355328) <= s
                 <= d2 + (1 # 140737488355328))%Q).
  { destruct Hs as [E|E]; [lra|].
    assert (Hlt : (s < 128)%Q).
    { apply Qnot_le_lt. intros Hge.
      pose proof (round_double_ge_pow2 s 7 ltac:(lia) Hge) as H.
      change (2 ^ 7)%Q with 128%Q in H. lra. }
    pose proof (round_double_near s 6) as H.
    rewrite Qabs_pos in H by assumption.
    change (2 ^ (6 + 1))%Q with 128%Q in H.
    change (2 ^ (6 - 53))%Q with (1 # 140737488355328)%Q in H.
    specialize (H Hlt ltac:(lia)). lra. }
  pose proof (round_half_up_near s) as Ht.
  set (t := round_half_up s 3) in *.
  assert (Hp : (t - (1 # 140737488355328) <= round_double t
                <= t + (1 # 140737488355328))%Q).
  { apply (round_double_near t 6); [|lia].
    apply Qabs_Qlt_condition. change (2 ^ (6 + 1))%Q with 128%Q. lra. }
  cbv zeta. fold q1. unfold q2 in *.
  clearbody t s d2 d1 q1. lra.
Qed.

(** ** The salt index *)

Section Salting.

Variable rand : Z -> nat -> Q.
Variable layout : list nat.

(** The generator draws in [0, 1). *)
Hypothesis rand_range : forall seed i, (0 <= rand seed i < 1)%Q.

Lemma salt_index_eval (seed_no salt_count : Z) (i : nat) :
  floor_value (mul_values (VDouble (draw rand layout seed_no i))
                 (VLong salt_count))
  = VLong (salt_index rand layout seed_no salt_count i).
Proof. reflexivity. Qed.

Lemma draw_range (seed_no : Z) (i : nat) :
  (0 <= draw rand layout seed_no i < 1)%Q.
Proof.
  unfold draw.
  destruct (double_of_draw_range _
              (rand_range (seed_no + Z.of_nat (fst (locate layout i)))
                 (snd (locate layout i)))) as (j & Hj & ->).
  split.
  - apply Qle_shift_div_l; [reflexivity|]. rewrite Qmult_0_l.
    change 0%Q with (inject_Z 0). rewrite <- Zle_Qle. lia.
  - apply Qlt_shift_div_r; [reflexivity|]. rewrite Qmult_1_l.
    change 9007199254740992%Q with (inject_Z 9007199254740992).
    rewrite <- Zlt_Qlt. lia.
Qed.

Lemma salt_floor_range (seed_no salt_count : Z) (i : nat) :
  1 <= salt_count ->
  0 <= Qfloor (round_double
                 (draw rand layout seed_no i * double_of_long salt_count))
    < salt_count.
Proof.
  intros HS. unfold draw.
  pose proof (salt_product_range
                (rand (seed_no + Z.of_nat (fst (locate layout i)))
                   (snd (locate layout i)))
                salt_count (rand_range _ _) HS) as [H0 H1].
  set (p := round_double _) in *.
  split.
  - rewrite <- (Qfloor_Z 0). now apply Qfloor_resp_le.
  - rewrite Zlt_Qlt. apply Qle_lt_trans with (y := p); [apply Qfloor_le|].
    assumption.
Qed.

Lemma salt_index_range (seed_no salt_count : Z) (i : nat) :
  1 <= salt_count ->
  0 <= salt_index rand layout seed_no salt_count i < salt_count.
Proof.
  intros HS. pose proof (salt_floor_range seed_no salt_count i HS) as H.
  unfold salt_index, long_of_Q, min_long, max_long. lia.
Qed.

Lemma salt_index_floor (seed_no salt_count : Z) (i : nat) :
  1 <= salt_count <= max_long + 1 ->
  salt_index rand layout seed_no salt_count i
  = Qfloor (round_double
              (draw rand layout seed_no i * double_of_long salt_count)).
Proof.
  intros HS.
  pose proof (salt_floor_range seed_no salt_count i ltac:(lia)) as H.
  unfold salt_index, long_of_Q, min_long, max_long in *. lia.
Qed.

(** Next to the floor of the exact product: the double of the product
    can reach the next integer, never more. *)
Lemma salt_index_exact (seed_no salt_count : Z) (i : nat) :
  1 <= salt_count < 9007199254740992 ->
  Qfloor (draw rand layout seed_no i * inject_Z salt_count)
  <= salt_index rand layout seed_no salt_count i
  <= Qfloor (draw rand layout seed_no i * inject_Z salt_count) + 1.
Proof.
  intros HS.
  rewrite salt_index_floor by (unfold max_long; lia).
  pose proof (draw_range seed_no i) as [Hd0 Hd1].
  set (d := draw rand layout seed_no i) in *.
  assert (HsQ : (1 <= inject_Z salt_count)%Q)
    by (change 1%Q with (inject_Z 1); rewrite <- Zle_Qle; lia).
  rewrite (round_double_comp (d * double_of_long salt_count)
             (d * inject_Z salt_count))
    by (rewrite double_of_long_exact by lia; reflexivity).
  set (x := (d * inject_Z salt_count)%Q).
  assert (Hx0 : (0 <= x)%Q) by (unfold x; apply Qmult_le_0_compat; lra).
  assert (Hx1 : (x < inject_Z salt_count)%Q).
  { unfold x. rewrite <- (Qmult_1_l (inject_Z salt_count)) at 2.
    apply Qmult_lt_compat_r; lra. }
  destruct (Qeq_dec x 0) as [Z|NZ].
  - rewrite (round_double_0 x Z), (Qfloor_comp x 0 Z).
    change (Qfloor 0) with 0. lia.
  - assert (Hpos : (0 < x)%Q) by lra.
    assert (Hlog : ilog2 x - 52 <= 0).
    { assert (ilog2 x <= 52); [|lia]. apply ilog2_le; [assumption|].
      change (2 ^ (52 + 1))%Q with (inject_Z 9007199254740992).
      apply Qlt_trans with (y := inject_Z salt_count); [assumption|].
      rewrite <- Zlt_Qlt. lia. }
    pose proof (Qfloor_le x) as Hf. pose proof (Qlt_floor x) as Hg.
    set (n := Qfloor x) in *.
    pose proof (round_double_ge_multiple x n 0 Hpos Hlog ltac:(lia)) as Hlo.
    pose proof (round_double_le_multiple x (n + 1) 0 Hpos Hlog ltac:(lia))
      as Hhi.
    change (2 ^ 0)%Q with 1%Q in Hlo, Hhi. rewrite Qmult_1_r in Hlo, Hhi.
    specialize (Hlo Hf). specialize (Hhi (Qlt_le_weak _ _ Hg)).
    split.
    + rewrite <- (Qfloor_Z n). now apply Qfloor_resp_le.
    + rewrite <- (Qfloor_Z (n + 1)). now apply Qfloor_resp_le.
Qed.

(** The salting cell on any DataFrame with one column join_col and no
    salted_col: every row gets the concatenation of its key, "-" and
    its salt index as a last cell. *)
Lemma skewed_df_salted_rows (seed_no salt_count : Z) (skewed_df : DataFrame) :
  resolves "join_col" (columns skewed_df) = true ->
  has_name "salted_col" (columns skewed_df) = false ->
  skewed_df_salted rand layout seed_no salt_count skewed_df
  = Some (mkDF (columns skewed_df ++ ["salted_col"])
            (map (fun p =>
                    snd p
                      ++ [value_of_text
                            (concat_values
                               [get (columns skewed_df) (snd p) "join_col";
                                VStr "-";
                                VLong (salt_index rand layout seed_no
                                         salt_count (fst p))])])
               (indexed (rows skewed_df)))).
Proof.
  intros Hjc Hsc. destruct skewed_df as [lc lrows]. simpl in *.
  unfold skewed_df_salted, withColumn, F_concat, F_col, F_floor, col_mul,
    F_rand, F_lit, lift1, lift2.
  cbn -[concat_values mul_values floor_value resolves has_name draw].
  rewrite Hjc, Hsc. reflexivity.
Qed.

Lemma skewed_df_salted_eq (seed_no salt_count : Z) (skewed_df : DataFrame) :
  wf_skewed skewed_df = true ->
  skewed_df_salted rand layout seed_no salt_count skewed_df
  = Some (mkDF (columns skewed_df ++ ["salted_col"])
            (map (skewed_salted_row rand layout (columns skewed_df) seed_no
                    salt_count)
               (indexed (rows skewed_df)))).
Proof.
  intros Hwf. destruct (wf_skewed_spec _ Hwf) as (Hjc & Hsc & Hsh & Htx).
  rewrite (skewed_df_salted_rows seed_no salt_count skewed_df Hjc
             (proj2 (has_name_false _ _) Hsc)).
  f_equal. f_equal. apply map_ext_in. intros [i r] Hin.
  apply indexed_In, nth_error_In in Hin.
  pose proof (text_keys_spec _ Htx r Hin) as Hk.
  unfold skewed_salted_row, key_text. cbn [fst snd].
  now rewrite Hk, concat_key_index.
Qed.

End Salting.

(** ** Matching on the salted key *)

Lemma key_match_text (a b : string) :
  key_match (VStr a) (VStr b) = true <-> a = b.
Proof.
  unfold key_match, value_eqb.
  destruct (value_eq_dec (VStr a) (VStr b)) as [E|N].
  - split; [intros _; congruence|reflexivity].
  - split; [discriminate|intros ->; contradiction].
Qed.

Lemma key_match_text_false (a b : string) :
  key_match (VStr a) (VStr b) = false <-> a <> b.
Proof.
  rewrite <- key_match_text.
  destruct (key_match (VStr a) (VStr b)); intuition congruence.
Qed.

Lemma NoDup_app_disjoint {A : Type} (l1 l2 : list A) (a : A) :
  NoDup (l1 ++ l2) -> In a l1 -> ~ In a l2.
Proof.
  induction l1 as [|x l1 IH]; simpl; intros Hnd Hin; [contradiction|].
  inversion Hnd as [|? ? Hx Hnd']; subst.
  destruct Hin as [->|Hin]; [|now apply IH].
  intros H. apply Hx. apply in_or_app. now right.
Qed.

Section JoinRows.

Variables lc rc : list string.

Let P := drop_names ["join_col"] rc.

Hypothesis rc_key : resolves "join_col" rc = true.
Hypothesis rc_free : ~ In "salted_col" rc.
Lemma payload_free : ~ In "salted_col" P.
Proof. unfold P. rewrite drop_names_In. tauto. Qed.

Lemma small_salted_row_key (r : Row) (j : nat) :
  List.length r = List.length rc ->
  get (P ++ ["salted_col"]) (small_salted_row rc r j) "salted_col"
  = VStr (salted_key (key_text rc r) (Z.of_nat j)).
Proof.
  intros Hl. unfold small_salted_row.
  rewrite get_app_r; [reflexivity| |apply payload_free].
  now apply drop_row_length.
Qed.

Lemma small_salted_row_payload (r : Row) (j : nat) :
  List.length r = List.length rc ->
  drop_row ["salted_col"] (P ++ ["salted_col"]) (small_salted_row rc r j)
  = drop_row ["join_col"] rc r.
Proof.
  intros Hl. unfold small_salted_row.
  rewrite drop_row_app by now apply drop_row_length.
  simpl. rewrite app_nil_r. apply drop_row_none.
  - intros c Hc. rewrite has_name_single. apply String.eqb_neq.
    intros ->. now apply payload_free.
  - now apply drop_row_length.
Qed.

(** Of the salted rows of the small side, a salted key [k-z] meets the
    row of index [z] of every small row keyed [k], and no other. *)
Lemma salted_matches (rrows : list Row) (k : string) (z salt_count : Z) :
  (forall r, In r rrows -> List.length r = List.length rc) ->
  (forall r, In r rrows -> get rc r "join_col" = VStr (key_text rc r)) ->
  0 <= z < salt_count ->
  filter
    (fun r' => key_match (VStr (salted_key k z))
                 (get (P ++ ["salted_col"]) r' "salted_col"))
    (flat_map (fun r => map (small_salted_row rc r)
                          (seq 0 (Z.to_nat salt_count))) rrows)
  = map (fun r => small_salted_row rc r (Z.to_nat z))
      (filter (fun r => key_match (VStr k) (get rc r "join_col")) rrows).
Proof.
  intros Hsh Htx Hz.
  induction rrows as [|r rs IH]; [reflexivity|].
  cbn [flat_map filter].
  rewrite filter_app, IH
    by (intros; (apply Hsh || apply Htx); now right).
  clear IH. f_equal.
  assert (Hl : List.length r = List.length rc) by (apply Hsh; now left).
  rewrite (Htx r) by now left.
  rewrite filter_map_swap.
  destruct (key_match (VStr k) (VStr (key_text rc r))) eqn:E.
  - apply key_match_text in E. subst k. cbn [map app].
    rewrite (filter_seq_one _ (Z.to_nat z)); [reflexivity| |lia].
    intros j. rewrite (small_salted_row_key r j Hl), key_match_text.
    split.
    + intros Heq. apply salted_key_inj in Heq; lia.
    + intros ->. now rewrite Z2Nat.id by lia.
  - apply key_match_text_false in E.
    rewrite filter_none; [reflexivity|].
    intros j Hj. rewrite (small_salted_row_key r j Hl).
    apply key_match_text_false. intros Heq.
    apply salted_key_inj in Heq; try lia. tauto.
Qed.

Hypothesis names_distinct : NoDup (lc ++ P).
Hypothesis lc_key : In "join_col" lc.
Hypothesis lc_free : ~ In "salted_col" lc.

(** Reading the columns of the direct join in a row of the salted one. *)
Lemma select_joined_row (x : value) (l p : Row) :
  List.length l = List.length lc -> List.length p = List.length P ->
  map (get ("salted_col" :: lc ++ P) (x :: l ++ p))
    ("join_col" :: drop_names ["join_col"] lc ++ P)
  = get lc l "join_col" :: drop_row ["join_col"] lc l ++ p.
Proof.
  intros Hl Hp.
  assert (Hnd1 : NoDup lc) by (eapply NoDup_app_remove_r; eauto).
  assert (Hnd2 : NoDup P) by (eapply NoDup_app_remove_l; eauto).
  rewrite map_get_ext.
  2:{ intros [E|H]; [discriminate|].
      apply in_app_iff in H. destruct H as [H|H].
      - apply drop_names_In in H. tauto.
      - now apply payload_free. }
  cbn [map]. f_equal; [now apply get_app_l|].
  rewrite map_app. f_equal.
  - rewrite <- (map_get_drop ["join_col"] lc l Hnd1 Hl).
    apply map_ext_in. intros n Hn. apply get_app_l; [assumption|].
    apply drop_names_In in Hn. tauto.
  - rewrite <- (map_get_self P p Hnd2 Hp) at 2.
    apply map_ext_in. intros n Hn. apply get_app_r; [assumption|].
    intros Hin. exact (NoDup_app_disjoint lc P n names_distinct Hin Hn).
Qed.

End JoinRows.

Lemma flat_map_map {A B C : Type} (f : B -> list C) (g : A -> B)
  (l : list A) :
  flat_map f (map g l) = flat_map (fun x => f (g x)) l.
Proof.
  induction l as [|x l IH]; simpl; [reflexivity|now rewrite IH].
Qed.

Lemma flat_map_indexed {A B : Type} (f : nat * A -> list B)
  (g : A -> list B) (l : list A) :
  (forall i x, In x l -> f (i, x) = g x) ->
  flat_map f (indexed l) = flat_map g l.
Proof.
  unfold indexed. generalize 0%nat as s.
  induction l as [|x l IH]; intros s H; simpl; [reflexivity|].
  rewrite (H s x) by now left.
  rewrite IH by (intros; apply H; now right). reflexivity.
Qed.

(** ** One left row, joined both ways *)

Section JoinBothWays.

Variables (h : how) (lc rc : list string) (rrows : list Row).

Let P := drop_names ["join_col"] rc.

Hypothesis rc_key : resolves "join_col" rc = true.
Hypothesis rc_free : ~ In "salted_col" rc.
Hypothesis rrows_shaped :
  forall r, In r rrows -> List.length r = List.length rc.
Hypothesis rrows_text :
  forall r, In r rrows -> get rc r "join_col" = VStr (key_text rc r).
Hypothesis names_distinct : NoDup (lc ++ P).
Hypothesis lc_key : In "join_col" lc.
Hypothesis lc_free : ~ In "salted_col" lc.

Lemma drop_salted_left (l : Row) (v : value) :
  List.length l = List.length lc ->
  drop_row ["salted_col"] (lc ++ ["salted_col"]) (l ++ [v]) = l.
Proof.
  intros Hl. rewrite drop_row_app by assumption. simpl.
  rewrite app_nil_r. apply drop_row_none; [|assumption].
  intros c Hc. rewrite has_name_single. apply String.eqb_neq.
  now intros ->.
Qed.

Lemma drop_salted_names (cols : list string) :
  ~ In "salted_col" cols ->
  drop_names ["salted_col"] (cols ++ ["salted_col"]) = cols.
Proof.
  intros H. rewrite drop_names_app. simpl. rewrite app_nil_r.
  apply drop_names_none. intros c Hc. rewrite has_name_single.
  apply String.eqb_neq. now intros ->.
Qed.

(** The rows a left row gets from the salted small side, read under the
    columns of the direct join, are the rows it gets from the small side
    itself. *)
Lemma join_rows_salted (l : Row) (z salt_count : Z) :
  List.length l = List.length lc ->
  get lc l "join_col" = VStr (key_text lc l) ->
  0 <= z < salt_count ->
  map (fun row => map (get ("salted_col" :: lc ++ P) row)
                    ("join_col" :: drop_names ["join_col"] lc ++ P))
    (join_rows h (lc ++ ["salted_col"]) (P ++ ["salted_col"]) "salted_col"
       (flat_map (fun r => map (small_salted_row rc r)
                             (seq 0 (Z.to_nat salt_count))) rrows)
       (l ++ [VStr (salted_key (key_text lc l) z)]))
  = join_rows h lc rc "join_col" rrows l.
Proof.
  intros Hl Hk Hz. unfold join_rows. unfold P in *.
  rewrite (get_app_r lc ["salted_col"] l _ "salted_col" Hl lc_free).
  simpl (get ["salted_col"] _ "salted_col").
  rewrite (drop_salted_left l _ Hl).
  rewrite (drop_salted_names (drop_names ["join_col"] rc)) by (apply payload_free; assumption).
  rewrite (salted_matches rc rc_free rrows _ z salt_count
             rrows_shaped rrows_text Hz).
  rewrite Hk.
  assert (Hms : forall r,
             In r (filter (fun r => key_match (VStr (key_text lc l))
                                      (get rc r "join_col")) rrows) ->
             In r rrows) by (intros r Hr; apply filter_In in Hr; tauto).
  destruct (filter (fun r => key_match (VStr (key_text lc l))
                               (get rc r "join_col")) rrows) as [|m ms].
  - change (map (fun r : Row => small_salted_row rc r (Z.to_nat z)) [])
      with (@nil Row).
    cbv iota. destruct h; [reflexivity|].
    change (map ?f [?x]) with [f x]. cbv beta. f_equal.
    rewrite (select_joined_row lc rc rc_free names_distinct lc_key lc_free);
      [now rewrite Hk|assumption|apply repeat_length].
  - change (map (fun r : Row => small_salted_row rc r (Z.to_nat z)) (m :: ms))
      with (small_salted_row rc m (Z.to_nat z)
              :: map (fun r : Row => small_salted_row rc r (Z.to_nat z)) ms).
    cbv iota.
    change (small_salted_row rc m (Z.to_nat z)
              :: map (fun r : Row => small_salted_row rc r (Z.to_nat z)) ms)
      with (map (fun r : Row => small_salted_row rc r (Z.to_nat z)) (m :: ms)).
    rewrite !map_map. apply map_ext_in. intros r Hr.
    assert (Hrl : List.length r = List.length rc)
      by (apply rrows_shaped, Hms, Hr).
    rewrite (small_salted_row_payload rc rc_free r _ Hrl).
    rewrite (select_joined_row lc rc rc_free names_distinct lc_key lc_free);
      [now rewrite Hk|assumption|now apply drop_row_length].
Qed.

End JoinBothWays.

(** ** Reading the salted rows *)

Lemma skewed_salted_row_key (rand : Z -> nat -> Q) (layout : list nat) (lc : list string)
  (seed_no salt_count : Z) (i : nat) (l : Row) :
  List.length l = List.length lc -> In "join_col" lc ->
  get (lc ++ ["salted_col"])
    (skewed_salted_row rand layout lc seed_no salt_count (i, l)) "join_col"
  = get lc l "join_col".
Proof.
  intros Hl Hin. unfold skewed_salted_row. cbn [fst snd].
  now apply get_app_l.
Qed.

Lemma skewed_salted_row_salt (rand : Z -> nat -> Q) (layout : list nat) (lc : list string)
  (seed_no salt_count : Z) (i : nat) (l : Row) :
  List.length l = List.length lc -> ~ In "salted_col" lc ->
  get (lc ++ ["salted_col"])
    (skewed_salted_row rand layout lc seed_no salt_count (i, l)) "salted_col"
  = VStr (salted_key (key_text lc l) (salt_index rand layout seed_no salt_count i)).
Proof.
  intros Hl Hin. unfold skewed_salted_row. cbn [fst snd].
  rewrite get_app_r by assumption. reflexivity.
Qed.

Lemma skewed_salted_nth (rand : Z -> nat -> Q) (layout : list nat) (lc : list string)
  (seed_no salt_count : Z) (lrows : list Row) (n : nat) (l : Row) :
  nth_error lrows n = Some l ->
  nth_error (map (skewed_salted_row rand layout lc seed_no salt_count)
               (indexed lrows)) n
  = Some (skewed_salted_row rand layout lc seed_no salt_count (n, l)).
Proof.
  intros H. rewrite nth_error_map, (indexed_nth_error lrows n l H).
  reflexivity.
Qed.

Lemma skewed_salted_In (rand : Z -> nat -> Q) (layout : list nat) (lc : list string)
  (seed_no salt_count : Z) (lrows : list Row) (a : Row) :
  In a (map (skewed_salted_row rand layout lc seed_no salt_count) (indexed lrows)) ->
  exists i l, In l lrows
              /\ a = skewed_salted_row rand layout lc seed_no salt_count (i, l).
Proof.
  intros H. apply in_map_iff in H. destruct H as ([i l] & <- & Hin).
  exists i, l. split; [|reflexivity].
  apply indexed_In in Hin. eapply nth_error_In; eauto.
Qed.

Lemma small_salted_In (rc : list string) (rrows : list Row) (n : nat)
  (b : Row) :
  In b (flat_map (fun r => map (small_salted_row rc r) (seq 0 n)) rrows)
  <-> exists r j, In r rrows /\ (j < n)%nat /\ b = small_salted_row rc r j.
Proof.
  rewrite in_flat_map. split.
  - intros (r & Hr & Hb). apply in_map_iff in Hb.
    destruct Hb as (j & <- & Hj). apply in_seq in Hj.
    exists r, j. repeat split; [assumption|lia].
  - intros (r & j & Hr & Hj & ->). exists r. split; [assumption|].
    apply in_map. apply in_seq. lia.
Qed.

(** Every index below salt_count is there for every small row. *)
Lemma small_side_covers (rc : list string) (rrows : list Row)
  (salt_count z : Z) (r : Row) :
  ~ In "salted_col" rc ->
  List.length r = List.length rc ->
  In r rrows -> 0 <= z < salt_count ->
  In (VStr (salted_key (key_text rc r) z))
    (column "salted_col"
       (mkDF (drop_names ["join_col"] rc ++ ["salted_col"])
          (flat_map
             (fun r => map (small_salted_row rc r)
                         (seq 0 (Z.to_nat salt_count))) rrows))).
Proof.
  intros Hsc Hl Hr Hz. unfold column. cbn [columns rows].
  apply in_map_iff. exists (small_salted_row rc r (Z.to_nat z)). split.
  - rewrite (small_salted_row_key rc Hsc r _ Hl).
    now rewrite Z2Nat.id by lia.
  - apply small_salted_In. exists r, (Z.to_nat z).
    repeat split; [assumption|lia].
Qed.

Lemma column_In (name : string) (df : DataFrame) (v : value) :
  In v (column name df)
  <-> exists r, In r (rows df) /\ get (columns df) r name = v.
Proof.
  unfold column. rewrite in_map_iff. split; intros (r & H1 & H2);
    exists r; tauto.
Qed.
(** ** The diagnostic *)

Lemma double_of_long_pos (n : Z) : 0 < n -> (1 <= double_of_long n)%Q.
Proof.
  intros Hn. unfold double_of_long.
  apply (round_double_ge_pow2 (inject_Z n) 0); [lia|].
  change (2 ^ 0)%Q with (inject_Z 1). rewrite <- Zle_Qle. lia.
Qed.

(** The cell of a count: a double, computed by a division, a product
    and F.round. *)
Lemma pct_cell_eval (count row_ct : Z) :
  0 < row_ct ->
  pct_cell count row_ct
  = VDouble
      (round_decimals
         (round_double
            (round_double (double_of_long count / double_of_long row_ct)
             * double_of_long 100)) 3).
Proof.
  intros Hr. unfold pct_cell, div_values, mul_values, round_value, to_double.
  assert (Hnz : Qeq_bool (double_of_long row_ct) 0 = false).
  { destruct (Qeq_bool (double_of_long row_ct) 0) eqn:E; [|reflexivity].
    apply Qeq_bool_eq in E. pose proof (double_of_long_pos row_ct Hr). lra. }
  now rewrite Hnz.
Qed.

Lemma spec_share_nonneg (count total : Z) :
  0 <= count -> 0 < total -> (0 <= spec_share count total)%Q.
Proof.
  intros Hc Ht. unfold spec_share.
  apply Qmult_le_0_compat; [|discriminate].
  apply Qle_shift_div_l.
  - change (inject_Z 0 < inject_Z total)%Q. rewrite <- Zlt_Qlt. lia.
  - rewrite Qmult_0_l. change (inject_Z 0 <= inject_Z count)%Q.
    rewrite <- Zle_Qle. lia.
Qed.

Lemma pct_of_data_eq (row_ct : Z) (df : DataFrame) :
  resolves "join_col" (columns df) = true ->
  pct_of_data row_ct df
  = Some (mkDF ["join_col"; "count"; "pct_of_data"]
            (map (fun k => [k; VLong (key_count df k);
                            pct_cell (key_count df k) row_ct])
               (nodup value_eq_dec (column "join_col" df)))).
Proof.
  intros Hjc. unfold pct_of_data, groupBy_count. rewrite Hjc.
  unfold withColumn, F_round, col_mul, col_div, F_col, F_lit, lift1, lift2.
  cbn [columns rows].
  change (resolves "count" ["join_col"; "count"]) with true.
  change (has_name "pct_of_data" ["join_col"; "count"]) with false.
  cbv iota. f_equal. f_equal.
  rewrite (indexed_map
             (fun (i : nat) (x : Row) =>
                x ++ [round_value 3
                        (mul_values
                           (div_values (get ["join_col"; "count"] x "count")
                              (VLong row_ct)) (VLong 100))])
             (fun x =>
                x ++ [round_value 3
                        (mul_values
                           (div_values (get ["join_col"; "count"] x "count")
                              (VLong row_ct)) (VLong 100))]))
    by reflexivity.
  rewrite map_map. apply map_ext. intros k. reflexivity.
Qed.

(** ** The demo generator *)

Lemma demo_rand_range (seed : Z) (i : nat) : (0 <= demo_rand seed i < 1)%Q.
Proof.
  unfold demo_rand.
  pose proof (Z.mod_pos_bound (seed + 7 * Z.of_nat i) 10 eq_refl) as [H0 H1].
  set (m := (seed + 7 * Z.of_nat i) mod 10) in *.
  split.
  - apply Qle_shift_div_l; [reflexivity|].
    rewrite Qmult_0_l. change (inject_Z 0 <= inject_Z m)%Q.
    rewrite <- Zle_Qle. assumption.
  - apply Qlt_shift_div_r; [reflexivity|].
    rewrite Qmult_1_l. change (inject_Z m < inject_Z 10)%Q.
    rewrite <- Zlt_Qlt. assumption.
Qed.

(** ** The tables of the page, on the demo data *)

(** The first twenty rows of the salted skewed_df, as the page prints
    them under seed 123: they lie in the first partition, and Spark's
    generator gives them these salt indices. *)
Example skewed_df_salted_page :
  match skewed_df 20 with
  | Some df =>
      option_map (fun sk => (columns sk, column "salted_col" sk))
        (skewed_df_salted XORShiftRandom [] 123 10 df)
  | None => None
  end
  = Some (["id"; "join_col"; "salted_col"],
          map VStr
            ["A-5"; "A-9"; "A-8"; "A-8"; "A-3"; "A-4"; "A-1"; "A-5"; "A-9";
             "A-1"; "A-8"; "A-2"; "A-2"; "A-0"; "A-4"; "A-7"; "A-9"; "A-7";
             "A-4"; "A-1"]).
Proof. vm_compute. reflexivity. Qed.

Example skewed_df_salted_demo :
  option_map (fun df => (columns df, firstn 3 (rows df)))
    (skewed_df_salted demo_rand demo_layout 123 10 demo_skewed)
  = Some (["id"; "join_col"; "salted_col"],
          [[VLong 0; VStr "A"; VStr "A-2"];
           [VLong 1; VStr "B"; VStr "B-0"];
           [VLong 2; VStr "C"; VStr "C-7"]]).
Proof. vm_compute. reflexivity. Qed.

(** A draw of 0.6 and a salt count of 10: the product of the doubles is
    6, where the exact product is below 6. *)
Example salt_product_rounds :
  floor_value
    (mul_values (VDouble (5404319552844595 # 9007199254740992)) (VLong 10))
  = VLong 6
  /\ Qfloor ((5404319552844595 # 9007199254740992) * 10) = 5.
Proof. vm_compute. split; reflexivity. Qed.

(** 23 rows of 320: the doubles give 7.187499999999999, rounded to 7.187,
    where the exact share 7.1875 rounds to 7.188. *)
Example pct_cell_doubles :
  pct_cell 23 320 = VDouble (round_double (7187 # 1000))
  /\ mul_values (div_values (VLong 23) (VLong 320)) (VLong 100)
     = VDouble (round_double (7187499999999999 # 1000000000000000))
  /\ Qeq_bool (round_half_up (spec_share 23 320) 3) (7188 # 1000) = true.
Proof. vm_compute. repeat split; reflexivity. Qed.

(** The percentages the page prints for its ten million rows. *)
Example pct_cells_page :
  map (fun c => pct_cell c 10000000) [9900000; 900; 90000; 9000; 100]
  = map (fun q => VDouble (round_double q))
      [99; 9 # 1000; 9 # 10; 9 # 100; 1 # 1000]%Q.
Proof. vm_compute. reflexivity. Qed.

Example small_df_salted_demo :
  option_map (fun df => (columns df, firstn 3 (rows df)))
    (small_df_salted 2 demo_small)
  = Some (["number_col"; "salted_col"],
          [[VLong 1; VStr "A-0"]; [VLong 1; VStr "A-1"];
           [VLong 2; VStr "B-0"]]).
Proof. reflexivity. Qed.

Example left_join_unmatched_demo :
  option_map (fun df => (columns df, firstn 1 (rows df)))
    (salted_join_df demo_rand demo_layout how_left 123 10 demo_skewed
       (mkDF ["join_col"; "number_col"] []))
  = Some (["salted_col"; "id"; "join_col"; "number_col"],
          [[VStr "A-2"; VLong 0; VStr "A"; VNull]]).
Proof. vm_compute. reflexivity. Qed.

(** * The claims *)
















(** C8. The diagnostic on a DataFrame with the key column, with row_ct
    its row count as on the page (fewer than 2^53 rows), returns one row
    per distinct key: the key, its row count and its share of all rows
    in percent as the page computes it, in doubles and rounded to three
    decimals, which is within 0.0005 (and 2^-44 for the arithmetic on
    doubles) of the exact share.  It reads its input only; on a
    DataFrame without rows it returns no rows, whatever row_ct is. *)
Theorem pct_of_data_mapping (df : DataFrame) :
  resolves "join_col" (columns df) = true ->
  Z.of_nat (List.length (rows df)) < 9007199254740992 ->
  exists out,
    pct_of_data (Z.of_nat (List.length (rows df))) df = Some out
    /\ columns out = ["join_col"; "count"; "pct_of_data"]
    /\ NoDup (column "join_col" out)
    /\ (forall k, In k (column "join_col" out)
                  <-> In k (column "join_col" df))
    /\ (forall r,
          In r (rows out) ->
          exists k p,
            r = [k; VLong (key_count df k); VDouble p]
            /\ In k (column "join_col" df)
            /\ 1 <= key_count df k
            /\ VDouble p
               = round_value 3
                   (mul_values
                      (div_values (VLong (key_count df k))
                         (VLong (Z.of_nat (List.length (rows df)))))
                      (VLong 100))
            /\ (spec_share (key_count df k)
                  (Z.of_nat (List.length (rows df)))
                - ((1 # 2000) + (1 # 17592186044416))
                <= p
                <= spec_share (key_count df k)
                     (Z.of_nat (List.length (rows df)))
                   + ((1 # 2000) + (1 # 17592186044416)))%Q)
    /\ (forall row_ct,
          rows df = [] ->
          exists out0, pct_of_data row_ct df = Some out0 /\ rows out0 = []).
Proof.
  intros Hjc Hsize. rewrite (pct_of_data_eq _ df Hjc).
  eexists. split; [reflexivity|]. split; [reflexivity|].
  assert (Hkeys : column "join_col"
                    (mkDF ["join_col"; "count"; "pct_of_data"]
                       (map (fun k => [k; VLong (key_count df k);
                                       pct_cell (key_count df k)
                                         (Z.of_nat (List.length (rows df)))])
                          (nodup value_eq_dec (column "join_col" df))))
                  = nodup value_eq_dec (column "join_col" df)).
  { unfold column at 1. cbn [columns rows]. rewrite map_map.
    rewrite <- (map_id (nodup value_eq_dec (column "join_col" df))) at 2.
    apply map_ext. reflexivity. }
  split; [rewrite Hkeys; apply NoDup_nodup|].
  split; [intros k; rewrite Hkeys; apply nodup_In|].
  split.
  - cbn [rows]. intros r Hr. apply in_map_iff in Hr.
    destruct Hr as (k & <- & Hk). apply nodup_In in Hk.
    assert (Hcount : 1 <= key_count df k).
    { unfold key_count. apply (count_occ_In value_eq_dec) in Hk. lia. }
    assert (Hle : key_count df k <= Z.of_nat (List.length (rows df))).
    { unfold key_count, column.
      pose proof (count_occ_bound value_eq_dec k
                    (map (fun r => get (columns df) r "join_col") (rows df)))
        as Hb.
      rewrite length_map in Hb. lia. }
    set (n := Z.of_nat (List.length (rows df))) in *.
    exists k,
      (round_decimals
         (round_double
            (round_double
               (double_of_long (key_count df k) / double_of_long n)
             * double_of_long 100)) 3).
    split; [now rewrite pct_cell_eval by lia|].
    split; [assumption|]. split; [assumption|].
    split; [fold (pct_cell (key_count df k) n);
            now rewrite pct_cell_eval by lia|].
    unfold spec_share. apply pct_near; lia.
  - intros row_ct Hempty. rewrite (pct_of_data_eq row_ct df Hjc).
    eexists. split; [reflexivity|]. cbn [rows]. unfold column.
    now rewrite Hempty.
Qed.

Lemma pct_of_data_mapping_demo :
  exists out,
    pct_of_data (Z.of_nat (List.length (rows demo_skewed))) demo_skewed
    = Some out
    /\ columns out = ["join_col"; "count"; "pct_of_data"]
    /\ NoDup (column "join_col" out)
    /\ (forall k, In k (column "join_col" out)
                  <-> In k (column "join_col" demo_skewed))
    /\ (forall r,
          In r (rows out) ->
          exists k p,
            r = [k; VLong (key_count demo_skewed k); VDouble p]
            /\ In k (column "join_col" demo_skewed)
            /\ 1 <= key_count demo_skewed k
            /\ VDouble p
               = round_value 3
                   (mul_values
                      (div_values (VLong (key_count demo_skewed k))
                         (VLong (Z.of_nat (List.length (rows demo_skewed)))))
                      (VLong 100))
            /\ (spec_share (key_count demo_skewed k)
                  (Z.of_nat (List.length (rows demo_skewed)))
                - ((1 # 2000) + (1 # 17592186044416))
                <= p
                <= spec_share (key_count demo_skewed k)
                     (Z.of_nat (List.length (rows demo_skewed)))
                   + ((1 # 2000) + (1 # 17592186044416)))%Q)
    /\ (forall row_ct,
          rows demo_skewed = [] ->
          exists out0,
            pct_of_data row_ct demo_skewed = Some out0 /\ rows out0 = []).
Proof.
  apply (pct_of_data_mapping demo_skewed); [reflexivity|].
  cbn. lia.
Defined.



Lemma resolves_split (n : string) (cols : list string) :
  resolves n cols = true ->
  exists cpre cpost,
    cols = cpre ++ n :: cpost /\ ~ In n cpre /\ ~ In n cpost.
Proof.
  intros H. pose proof (resolves_In _ _ H) as Hin.
  apply in_split in Hin. destruct Hin as (cpre & cpost & ->).
  exists cpre, cpost. split; [reflexivity|].
  unfold resolves in H. apply Nat.eqb_eq in H.
  rewrite count_occ_app, count_occ_cons_eq in H by reflexivity.
  split; intros Hin; apply (count_occ_In string_dec) in Hin; lia.
Qed.

Lemma drop_names_split (n : string) (cpre cpost : list string) :
  ~ In n cpre -> ~ In n cpost ->
  drop_names [n] (cpre ++ n :: cpost) = cpre ++ cpost.
Proof.
  intros H1 H2. rewrite drop_names_app. cbn [drop_names filter].
  rewrite has_name_single, String.eqb_refl. cbn [negb]. f_equal.
  - apply drop_names_none. intros c Hc. rewrite has_name_single.
    apply String.eqb_neq. now intros ->.
  - apply drop_names_none. intros c Hc. rewrite has_name_single.
    apply String.eqb_neq. now intros ->.
Qed.

Lemma drop_row_split (n : string) (cpre cpost : list string)
  (pre post : Row) (key : value) :
  ~ In n cpre -> ~ In n cpost ->
  List.length pre = List.length cpre ->
  List.length post = List.length cpost ->
  drop_row [n] (cpre ++ n :: cpost) (pre ++ key :: post) = pre ++ post.
Proof.
  intros H1 H2 L1 L2. rewrite drop_row_app by assumption.
  cbn [drop_row]. rewrite has_name_single, String.eqb_refl. f_equal.
  - apply drop_row_none; [|assumption]. intros c Hc.
    rewrite has_name_single. apply String.eqb_neq. now intros ->.
  - apply drop_row_none; [|assumption]. intros c Hc.
    rewrite has_name_single. apply String.eqb_neq. now intros ->.
Qed.

Lemma get_split (n : string) (cpre cpost : list string)
  (pre post : Row) (key : value) :
  ~ In n cpre -> List.length pre = List.length cpre ->
  get (cpre ++ n :: cpost) (pre ++ key :: post) n = key.
Proof.
  intros H1 L1. rewrite get_app_r by assumption.
  cbn [get]. now rewrite String.eqb_refl.
Qed.

Lemma row_split (cpre cpost : list string) (n : string) (r : Row) :
  List.length r = List.length (cpre ++ n :: cpost) ->
  exists pre key post,
    r = pre ++ key :: post
    /\ List.length pre = List.length cpre
    /\ List.length post = List.length cpost.
Proof.
  rewrite length_app. cbn [List.length]. intros H.
  destruct (skipn (List.length cpre) r) as [|key post] eqn:E.
  - pose proof (length_skipn (List.length cpre) r) as Hs.
    rewrite E in Hs. cbn [List.length] in Hs. lia.
  - exists (firstn (List.length cpre) r), key, post.
    split; [now rewrite <- E, firstn_skipn|].
    split; [rewrite length_firstn; lia|].
    pose proof (length_skipn (List.length cpre) r) as Hs.
    rewrite E in Hs. cbn [List.length] in Hs. lia.
Qed.

Lemma app_same_length {A : Type} (a a' b b' : list A) :
  List.length a = List.length a' -> a ++ b = a' ++ b' -> a = a' /\ b = b'.
Proof.
  revert a'. induction a as [|x a IH]; intros [|x' a'] L E;
    try discriminate L.
  - now split.
  - cbn [app] in E. injection E as -> E. injection L as L.
    destruct (IH a' L E) as [-> ->]. now split.
Qed.



(** * Further properties of the pages *)

(** ** The cell that builds skewed_df *)

Lemma lt_values_long (a b : Z) : lt_values (VLong a) (VLong b) = Some (a <? b).
Proof.
  unfold lt_values, to_Q, Qle_bool. simpl. f_equal.
  rewrite !Z.mul_1_r. symmetry. apply Z.ltb_antisym.
Qed.

Lemma skewed_df_eq (row_ct : Z) :
  skewed_df row_ct
  = Some (mkDF ["id"; "join_col"]
            (map (fun i => [VLong (Z.of_nat i); VStr (letter_of (Z.of_nat i))])
               (seq 0 (Z.to_nat row_ct)))).
Proof.
  unfold skewed_df, withColumn, spark_range. cbn [columns rows].
  unfold otherwise, when, F_when, col_lt, F_col, F_lit.
  cbn -[lt_values first_true]. f_equal. f_equal.
  rewrite (indexed_map
             (fun (i : nat) (x : Row) =>
                x ++ [first_true
                        [(fun (_ : nat) (r : Row) =>
                            lt_values (get ["id"] r "id") (VLong 100),
                          fun (_ : nat) (_ : Row) => VStr "A");
                         (fun (_ : nat) (r : Row) =>
                            lt_values (get ["id"] r "id") (VLong 1000),
                          fun (_ : nat) (_ : Row) => VStr "B");
                         (fun (_ : nat) (r : Row) =>
                            lt_values (get ["id"] r "id") (VLong 10000),
                          fun (_ : nat) (_ : Row) => VStr "C");
                         (fun (_ : nat) (r : Row) =>
                            lt_values (get ["id"] r "id") (VLong 100000),
                          fun (_ : nat) (_ : Row) => VStr "D")]
                        (VStr "E") i x])
             (fun x =>
                x ++ [VStr (letter_of match x with
                                      | [VLong z] => z
                                      | _ => 0
                                      end)])).
  - rewrite map_map. reflexivity.
  - intros i x Hx. apply in_map_iff in Hx. destruct Hx as (j & <- & _).
    cbn [app]. f_equal. f_equal.
    cbn -[lt_values]. rewrite !lt_values_long. unfold letter_of.
    destruct (Z.of_nat j <? 100); [reflexivity|].
    destruct (Z.of_nat j <? 1000); [reflexivity|].
    destruct (Z.of_nat j <? 10000); [reflexivity|].
    destruct (Z.of_nat j <? 100000); reflexivity.
Qed.

(** Counting a range of positions in 0 .. n-1. *)
Lemma count_occ_map_seq (f : nat -> value) (v : value) (a b : Z) (n : nat) :
  0 <= a <= b ->
  (forall i, (i < n)%nat -> f i = v <-> a <= Z.of_nat i < b) ->
  Z.of_nat (count_occ value_eq_dec (map f (seq 0 n)) v)
  = Z.min (Z.of_nat n) b - Z.min (Z.of_nat n) a.
Proof.
  intros Hab. induction n as [|n IH]; intros Hf; [simpl; lia|].
  rewrite seq_S, map_app, count_occ_app, Nat2Z.inj_add, IH
    by (intros i Hi; apply Hf; lia).
  cbn [map count_occ plus].
  destruct (value_eq_dec (f n) v) as [E|N].
  - apply Hf in E; lia.
  - assert (~ (a <= Z.of_nat n < b)) by (intros H; apply N, Hf; [lia|exact H]).
    simpl. lia.
Qed.

Lemma letter_of_cases (z : Z) :
  (z < 100 /\ letter_of z = "A")
  \/ (100 <= z < 1000 /\ letter_of z = "B")
  \/ (1000 <= z < 10000 /\ letter_of z = "C")
  \/ (10000 <= z < 100000 /\ letter_of z = "D")
  \/ (100000 <= z /\ letter_of z = "E").
Proof.
  unfold letter_of.
  destruct (Z.ltb_spec z 100); [left; split; [lia|reflexivity]|].
  destruct (Z.ltb_spec z 1000); [right; left; split; [lia|reflexivity]|].
  destruct (Z.ltb_spec z 10000);
    [right; right; left; split; [lia|reflexivity]|].
  destruct (Z.ltb_spec z 100000);
    [right; right; right; left; split; [lia|reflexivity]|].
  right; right; right; right. split; [lia|reflexivity].
Qed.

Lemma letter_count (row_ct : Z) (L : string) (a b : Z) :
  0 <= a <= b ->
  (forall z, 0 <= z < Z.max 0 row_ct -> letter_of z = L <-> a <= z < b) ->
  key_count
    (mkDF ["id"; "join_col"]
       (map (fun i => [VLong (Z.of_nat i); VStr (letter_of (Z.of_nat i))])
          (seq 0 (Z.to_nat row_ct))))
    (VStr L)
  = Z.min (Z.max 0 row_ct) b - Z.min (Z.max 0 row_ct) a.
Proof.
  intros Hab HL. unfold key_count, column. cbn [columns rows].
  rewrite map_map. cbn [get String.eqb Ascii.eqb Bool.eqb].
  rewrite (count_occ_map_seq _ (VStr L) a b _ Hab).
  - lia.
  - intros i Hi. rewrite <- HL by lia. split; [now intros [= ->]|now intros ->].
Qed.

(** X1. For every row_ct the cell that builds skewed_df succeeds: the
    result has the columns id and join_col and max(0, row_ct) rows, the
    row at position n holds n and the letter of n, it meets what the
    salting cells assume, and the number of rows of each letter follows
    from the thresholds 100, 1000, 10000 and 100000 (for row_ct = 10^7:
    100, 900, 9000, 90000 and 9900000, the table of the page). *)
Theorem skewed_df_letters (row_ct : Z) :
  exists df,
    skewed_df row_ct = Some df
    /\ columns df = ["id"; "join_col"]
    /\ count df = Z.max 0 row_ct
    /\ wf_skewed df = true
    /\ (forall n r, nth_error (rows df) n = Some r ->
                    r = [VLong (Z.of_nat n); VStr (letter_of (Z.of_nat n))])
    /\ key_count df (VStr "A") = Z.min (Z.max 0 row_ct) 100
    /\ key_count df (VStr "B")
       = Z.min (Z.max 0 row_ct) 1000 - Z.min (Z.max 0 row_ct) 100
    /\ key_count df (VStr "C")
       = Z.min (Z.max 0 row_ct) 10000 - Z.min (Z.max 0 row_ct) 1000
    /\ key_count df (VStr "D")
       = Z.min (Z.max 0 row_ct) 100000 - Z.min (Z.max 0 row_ct) 10000
    /\ key_count df (VStr "E")
       = Z.max 0 row_ct - Z.min (Z.max 0 row_ct) 100000.
Proof.
  rewrite skewed_df_eq. eexists. split; [reflexivity|].
  split; [reflexivity|].
  split; [unfold count; cbn [rows]; rewrite length_map, length_seq; lia|].
  split.
  { unfold wf_skewed, shaped, text_keys. cbn [columns rows].
    change (resolves "join_col" ["id"; "join_col"]) with true.
    change (has_name "salted_col" ["id"; "join_col"]) with false.
    cbn [negb andb]. apply andb_true_iff.
    split; apply forallb_forall; intros r Hr; apply in_map_iff in Hr;
      destruct Hr as (i & <- & _); reflexivity. }
  split.
  { cbn [rows]. intros n r Hn. rewrite nth_error_map in Hn.
    destruct (nth_error (seq 0 (Z.to_nat row_ct)) n) as [i|] eqn:E;
      [|discriminate].
    injection Hn as <-.
    assert (Hlt : (n < List.length (seq 0 (Z.to_nat row_ct)))%nat)
      by (apply nth_error_Some; congruence).
    rewrite length_seq in Hlt.
    apply (nth_error_nth _ _ 0%nat) in E. rewrite seq_nth in E by assumption.
    simpl in E. now subst i. }
  split.
  { rewrite (letter_count row_ct "A" 0 100) by
      (try lia; intros z Hz;
       destruct (letter_of_cases z) as [[H ->]|[[H ->]|[[H ->]|[[H ->]|[H ->]]]]];
       split; (lia || discriminate || reflexivity)).
    lia. }
  split.
  { apply (letter_count row_ct "B" 100 1000); [lia|]. intros z Hz.
    destruct (letter_of_cases z) as [[H ->]|[[H ->]|[[H ->]|[[H ->]|[H ->]]]]];
      split; (lia || discriminate || reflexivity). }
  split.
  { apply (letter_count row_ct "C" 1000 10000); [lia|]. intros z Hz.
    destruct (letter_of_cases z) as [[H ->]|[[H ->]|[[H ->]|[[H ->]|[H ->]]]]];
      split; (lia || discriminate || reflexivity). }
  split.
  { apply (letter_count row_ct "D" 10000 100000); [lia|]. intros z Hz.
    destruct (letter_of_cases z) as [[H ->]|[[H ->]|[[H ->]|[[H ->]|[H ->]]]]];
      split; (lia || discriminate || reflexivity). }
  rewrite (letter_count row_ct "E" 100000 (Z.max (Z.max 0 row_ct) 100000)).
  - lia.
  - lia.
  - intros z Hz.
    destruct (letter_of_cases z) as [[H ->]|[[H ->]|[[H ->]|[[H ->]|[H ->]]]]];
      split; (lia || discriminate || reflexivity).
Qed.

(** The table of the page: row_ct = 10 ** 7. *)
Lemma skewed_df_letters_page :
  exists df,
    skewed_df (10 ^ 7) = Some df
    /\ count df = 10000000
    /\ key_count df (VStr "A") = 100
    /\ key_count df (VStr "B") = 900
    /\ key_count df (VStr "C") = 9000
    /\ key_count df (VStr "D") = 90000
    /\ key_count df (VStr "E") = 9900000.
Proof.
  destruct (skewed_df_letters (10 ^ 7))
    as (df & H & _ & Hn & _ & _ & HA & HB & HC & HD & HE).
  exists df. repeat split; assumption.
Defined.

(** ** The two joins, written out *)

Lemma joined_df_eq (h : how) (skewed_df small_df : DataFrame) :
  resolves "join_col" (columns skewed_df) = true ->
  resolves "join_col" (columns small_df) = true ->
  joined_df h skewed_df small_df
  = Some (mkDF
            ("join_col" :: drop_names ["join_col"] (columns skewed_df)
               ++ drop_names ["join_col"] (columns small_df))
            (flat_map
               (join_rows h (columns skewed_df) (columns small_df) "join_col"
                  (rows small_df))
               (rows skewed_df))).
Proof.
  intros H1 H2. unfold joined_df, join. now rewrite H1, H2.
Qed.

Lemma salted_join_df_eq (rand : Z -> nat -> Q) (layout : list nat) (h : how)
  (seed_no salt_count : Z) (skewed_df small_df : DataFrame) :
  wf_skewed skewed_df = true ->
  wf_small small_df = true ->
  salted_join_df rand layout h seed_no salt_count skewed_df small_df
  = Some (mkDF
            ("salted_col" :: columns skewed_df
               ++ drop_names ["join_col"] (columns small_df))
            (flat_map
               (join_rows h (columns skewed_df ++ ["salted_col"])
                  (drop_names ["join_col"] (columns small_df)
                     ++ ["salted_col"])
                  "salted_col"
                  (flat_map
                     (fun r => map (small_salted_row (columns small_df) r)
                                 (seq 0 (Z.to_nat salt_count)))
                     (rows small_df)))
               (map (skewed_salted_row rand layout (columns skewed_df)
                       seed_no salt_count)
                  (indexed (rows skewed_df))))).
Proof.
  intros Hsk Hsm.
  destruct (wf_skewed_spec _ Hsk) as (Hjc & Hsc & Hsh & Htx).
  destruct (wf_small_spec _ Hsm) as (Hjc' & Hid' & Hsc' & Hsh' & Htx').
  unfold salted_join_df.
  rewrite (skewed_df_salted_eq rand layout seed_no salt_count skewed_df Hsk).
  rewrite (small_df_salted_eq salt_count small_df Hsm).
  assert (HscP : ~ In "salted_col"
                   (drop_names ["join_col"] (columns small_df)))
    by (rewrite drop_names_In; tauto).
  unfold join. cbn [columns rows].
  rewrite (resolves_app_r "salted_col" _ ["salted_col"] Hsc eq_refl).
  rewrite (resolves_app_r "salted_col" _ ["salted_col"] HscP eq_refl).
  cbn [andb]. now rewrite !drop_salted_names by assumption.
Qed.

(** The salted join read under the columns of the direct join. *)
Lemma salted_join_rows (rand : Z -> nat -> Q) (layout : list nat)
  (rand_range : forall seed i, (0 <= rand seed i < 1)%Q)
  (h : how) (seed_no salt_count : Z) (skewed_df small_df : DataFrame) :
  1 <= salt_count ->
  wf_skewed skewed_df = true ->
  wf_small small_df = true ->
  distinct (columns skewed_df
              ++ drop_names ["join_col"] (columns small_df)) = true ->
  exists sj dj,
    salted_join_df rand layout h seed_no salt_count skewed_df small_df = Some sj
    /\ joined_df h skewed_df small_df = Some dj
    /\ columns sj = "salted_col" :: columns skewed_df
                      ++ drop_names ["join_col"] (columns small_df)
    /\ columns dj = "join_col" :: drop_names ["join_col"] (columns skewed_df)
                      ++ drop_names ["join_col"] (columns small_df)
    /\ NoDup (columns sj) /\ NoDup (columns dj)
    /\ incl (columns dj) (columns sj)
    /\ rows dj = map (fun r => map (get (columns sj) r) (columns dj)) (rows sj).
Proof.
  intros HS Hsk Hsm Hd.
  destruct (wf_skewed_spec _ Hsk) as (Hjc & Hsc & Hsh & Htx).
  destruct (wf_small_spec _ Hsm) as (Hjc' & Hid' & Hsc' & Hsh' & Htx').
  apply distinct_NoDup in Hd.
  rewrite (salted_join_df_eq rand layout h seed_no salt_count _ _ Hsk Hsm).
  rewrite (joined_df_eq h _ _ Hjc Hjc').
  destruct skewed_df as [lc lrows], small_df as [rc rrows].
  cbn [columns rows] in *.
  assert (HscP : ~ In "salted_col" (drop_names ["join_col"] rc))
    by (rewrite drop_names_In; tauto).
  assert (Hincl : incl ("join_col" :: drop_names ["join_col"] lc
                          ++ drop_names ["join_col"] rc)
                    ("salted_col" :: lc ++ drop_names ["join_col"] rc)).
  { intros n Hn. right. apply in_or_app. destruct Hn as [<-|Hn].
    - left. now apply resolves_In.
    - apply in_app_or in Hn. destruct Hn as [Hn|Hn]; [left|now right].
      apply drop_names_In in Hn. tauto. }
  eexists. eexists. split; [reflexivity|]. split; [reflexivity|].
  cbn [columns rows].
  split; [reflexivity|]. split; [reflexivity|].
  split; [constructor; [rewrite in_app_iff; tauto|assumption]|].
  split.
  { constructor.
    - rewrite in_app_iff, !drop_names_In. cbn. intros [[_ H]|[_ H]];
        discriminate H.
    - apply NoDup_app.
      + apply NoDup_filter. eapply NoDup_app_remove_r; eauto.
      + eapply NoDup_app_remove_l; eauto.
      + intros a Ha. apply drop_names_In in Ha.
        apply (NoDup_app_disjoint _ _ a Hd). tauto. }
  split; [exact Hincl|].
  rewrite map_flat_map, flat_map_map. symmetry.
  apply flat_map_indexed.
  intros i l Hl. unfold skewed_salted_row. cbn [fst snd].
  apply (join_rows_salted h lc rc rrows Hsc' (shaped_spec _ Hsh')
           (text_keys_spec _ Htx') Hd (resolves_In _ _ Hjc) Hsc).
  - apply (shaped_spec _ Hsh l Hl).
  - apply (text_keys_spec _ Htx l Hl).
  - now apply salt_index_range.
Qed.

(** ** Row counts of the joins *)

Lemma flat_map_length_ext {A B C : Type} (f : A -> list B) (g : A -> list C)
  (l : list A) :
  (forall x, In x l -> List.length (f x) = List.length (g x)) ->
  List.length (flat_map f l) = List.length (flat_map g l).
Proof.
  induction l as [|x l IH]; intros H; [reflexivity|].
  cbn [flat_map]. rewrite !length_app, (H x) by now left.
  rewrite IH by (intros; apply H; now right). reflexivity.
Qed.

Lemma flat_map_length_bounds {A B : Type} (f : A -> list B) (l : list A)
  (lo hi : nat) :
  (forall x, In x l -> (lo <= List.length (f x) <= hi)%nat) ->
  (lo * List.length l <= List.length (flat_map f l) <= hi * List.length l)%nat.
Proof.
  induction l as [|x l IH]; intros H; [simpl; lia|].
  cbn [flat_map List.length]. rewrite length_app.
  specialize (H x (or_introl eq_refl)) as Hx.
  assert (IH' := IH (fun y Hy => H y (or_intror Hy))). nia.
Qed.

Lemma join_rows_length (h : how) (lc rc : list string) (on : string)
  (rrows : list Row) (l : Row) :
  List.length (join_rows h lc rc on rrows l)
  = match List.length
            (filter (fun r => key_match (get lc l on) (get rc r on)) rrows)
    with
    | O => match h with how_inner => 0 | how_left => 1 end
    | S n => S n
    end%nat.
Proof.
  unfold join_rows.
  destruct (filter (fun r => key_match (get lc l on) (get rc r on)) rrows)
    as [|m ms]; [destruct h; reflexivity|].
  now rewrite length_map.
Qed.

Lemma join_rows_salted_length (h : how) (lc rc : list string)
  (rrows : list Row) (l : Row) (z salt_count : Z) :
  ~ In "salted_col" rc -> ~ In "salted_col" lc ->
  (forall r, In r rrows -> List.length r = List.length rc) ->
  (forall r, In r rrows -> get rc r "join_col" = VStr (key_text rc r)) ->
  List.length l = List.length lc ->
  get lc l "join_col" = VStr (key_text lc l) ->
  0 <= z < salt_count ->
  List.length
    (join_rows h (lc ++ ["salted_col"])
       (drop_names ["join_col"] rc ++ ["salted_col"]) "salted_col"
       (flat_map (fun r => map (small_salted_row rc r)
                             (seq 0 (Z.to_nat salt_count))) rrows)
       (l ++ [VStr (salted_key (key_text lc l) z)]))
  = List.length (join_rows h lc rc "join_col" rrows l).
Proof.
  intros Hrc Hlc Hsh Htx Hl Hk Hz. rewrite !join_rows_length.
  rewrite (get_app_r lc ["salted_col"] l _ "salted_col" Hl Hlc).
  simpl (get ["salted_col"] _ "salted_col").
  rewrite (salted_matches rc Hrc rrows _ z salt_count Hsh Htx Hz).
  now rewrite length_map, Hk.
Qed.

(** With distinct keys on the right a key meets one row at most. *)
Lemma unique_key_matches (rc : list string) (rrows : list Row) (k : value) :
  NoDup (map (fun r => get rc r "join_col") rrows) ->
  (List.length
     (filter (fun r => key_match k (get rc r "join_col")) rrows) <= 1)%nat.
Proof.
  assert (Hm : forall v, key_match k v = true -> v = k).
  { intros v. unfold key_match, value_eqb.
    destruct k; try discriminate;
      destruct (value_eq_dec _ v); congruence. }
  induction rrows as [|r rs IH]; intros Hnd; [simpl; lia|].
  inversion Hnd as [|? ? Hnotin Hnd']; subst. cbn [filter].
  destruct (key_match k (get rc r "join_col")) eqn:E; [|now apply IH].
  apply Hm in E. cbn [List.length].
  rewrite filter_none; [simpl; lia|].
  intros x Hx. destruct (key_match k (get rc x "join_col")) eqn:Ex;
    [|reflexivity].
  apply Hm in Ex. exfalso. apply Hnotin. rewrite E, <- Ex.
  now apply (in_map (fun r => get rc r "join_col")).
Qed.



(** ** The grouped counts the page compares *)

Lemma get_map_self (cols : list string) (f : string -> value) (n : string) :
  In n cols -> get cols (map f cols) n = f n.
Proof.
  induction cols as [|c cols IH]; intros Hin; [contradiction|].
  cbn [map get]. destruct (String.eqb n c) eqn:E.
  - apply String.eqb_eq in E. now subst.
  - apply IH. destruct Hin as [->|]; [|assumption].
    rewrite String.eqb_refl in E. discriminate.
Qed.

Lemma resolves_all_incl (names cols : list string) :
  NoDup cols -> incl names cols ->
  forallb (fun n => resolves n cols) names = true.
Proof.
  intros Hnd Hincl. apply forallb_forall. intros n Hn.
  apply resolves_NoDup; [assumption|now apply Hincl].
Qed.



(** ** Edge cases of the salting cells *)

Lemma flat_map_nil {A B : Type} (l : list A) :
  flat_map (fun _ : A => @nil B) l = [].
Proof.
  induction l as [|x l IH]; [reflexivity|exact IH].
Qed.

Lemma flat_map_singleton {A B : Type} (f : A -> B) (l : list A) :
  flat_map (fun x => [f x]) l = map f l.
Proof.
  induction l as [|x l IH]; [reflexivity|]. cbn [flat_map map app].
  now rewrite IH.
Qed.



Lemma same_name_refl (a : string) : same_name a a = true.
Proof. unfold same_name. now rewrite String.eqb_refl. Qed.

Lemma has_same_name_false (name : string) (names : list string) :
  has_same_name name names = false -> ~ In name names.
Proof.
  unfold has_same_name. intros H Hin.
  assert (E : existsb (same_name name) names = true)
    by (apply existsb_exists; exists name; split;
        [assumption|apply same_name_refl]).
  congruence.
Qed.

(** A name no column carries, or several columns carry, does not
    resolve. *)
Lemma unresolved_name (name : string) (cols : list string) :
  has_same_name name cols = false
  \/ (2 <= count_occ string_dec cols name)%nat ->
  resolves name cols = false.
Proof.
  intros [H|H]; unfold resolves; apply Nat.eqb_neq.
  - apply has_same_name_false in H.
    rewrite (proj1 (count_occ_not_In string_dec _ _) H). discriminate.
  - lia.
Qed.

(** X5. What the analysis refuses.  When no column of the skewed
    DataFrame is named join_col in any spelling, or several are named
    join_col, the salting cell, both joins and the diagnostic fail.
    When the small DataFrame has no column join_col in any spelling, or
    several, or a column id of its own (its id and the id of salt_df are
    then ambiguous after the cross join), the small-side cell and the
    salted join fail. *)
Theorem unresolved_columns_refused (rand : Z -> nat -> Q) (layout : list nat)
  (h : how) (seed_no salt_count row_ct : Z)
  (skewed_df small_df : DataFrame) :
  (has_same_name "join_col" (columns skewed_df) = false
   \/ (2 <= count_occ string_dec (columns skewed_df) "join_col")%nat ->
   skewed_df_salted rand layout seed_no salt_count skewed_df = None
   /\ joined_df h skewed_df small_df = None
   /\ salted_join_df rand layout h seed_no salt_count skewed_df small_df = None
   /\ pct_of_data row_ct skewed_df = None)
  /\ (has_same_name "join_col" (columns small_df) = false
      \/ (2 <= count_occ string_dec (columns small_df) "join_col")%nat
      \/ In "id" (columns small_df) ->
      small_df_salted salt_count small_df = None
      /\ salted_join_df rand layout h seed_no salt_count skewed_df small_df
         = None).
Proof.
  split.
  - intros Hbad. pose proof (unresolved_name _ _ Hbad) as Hno.
    assert (Hsk : skewed_df_salted rand layout seed_no salt_count skewed_df
                  = None).
    { unfold skewed_df_salted, withColumn, F_concat, F_col.
      cbn [resolve_all]. now rewrite Hno. }
    split; [exact Hsk|].
    split; [unfold joined_df, join; now rewrite Hno|].
    split; [unfold salted_join_df; now rewrite Hsk|].
    unfold pct_of_data, groupBy_count. now rewrite Hno.
  - intros Hbad.
    assert (Hbad' : resolves "join_col" (columns small_df) = false
                    \/ In "id" (columns small_df)).
    { destruct Hbad as [H|[H|H]]; [left|left|now right];
        apply unresolved_name; tauto. }
    clear Hbad.
    assert (Hsm : small_df_salted salt_count small_df = None).
    { unfold small_df_salted, withColumn, crossJoin, salt_df, spark_range,
        F_concat, F_col, F_lit.
      cbn [columns rows resolve_all].
      destruct Hbad' as [Hno|Hid].
      - replace (resolves "join_col" (columns small_df ++ ["id"])) with false;
          [reflexivity|].
        unfold resolves in *. rewrite count_occ_app. simpl.
        now rewrite Nat.add_0_r.
      - replace (resolves "id" (columns small_df ++ ["id"])) with false;
          [now destruct (resolves "join_col" (columns small_df ++ ["id"]))|].
        unfold resolves. rewrite count_occ_app. simpl.
        apply (count_occ_In string_dec) in Hid. symmetry.
        apply Nat.eqb_neq. lia. }
    split; [exact Hsm|].
    unfold salted_join_df. rewrite Hsm.
    now destruct (skewed_df_salted rand layout seed_no salt_count skewed_df).
Qed.

Lemma unresolved_columns_refused_demo :
  (skewed_df_salted demo_rand demo_layout 123 10 (mkDF ["id"] [[VLong 0]])
   = None
   /\ joined_df how_left (mkDF ["id"] [[VLong 0]]) small_df = None
   /\ salted_join_df demo_rand demo_layout how_left 123 10
        (mkDF ["id"] [[VLong 0]]) small_df = None
   /\ pct_of_data 1 (mkDF ["id"] [[VLong 0]]) = None)
  /\ small_df_salted 10 (mkDF ["id"; "join_col"] [[VLong 7; VStr "A"]]) = None.
Proof.
  split.
  - apply (unresolved_columns_refused demo_rand demo_layout how_left 123 10 1
             (mkDF ["id"] [[VLong 0]]) small_df).
    left. reflexivity.
  - apply (unresolved_columns_refused demo_rand demo_layout how_left 123 10 1
             demo_skewed (mkDF ["id"; "join_col"] [[VLong 7; VStr "A"]])).
    right. right. now left.
Defined.

(** ** What salting leaves alone *)

Lemma indexed_map_indexed {A B : Type} (g : nat * A -> B) (l : list A) :
  indexed (map g (indexed l)) = map (fun p => (fst p, g p)) (indexed l).
Proof.
  unfold indexed. rewrite length_map, length_combine, length_seq, Nat.min_id.
  generalize 0%nat as s.
  induction l as [|x l IH]; intros s; [reflexivity|].
  cbn [List.length seq combine map fst]. f_equal. apply IH.
Qed.

Lemma set_row_last (name : string) (cols : list string) (r : Row)
  (v w : value) :
  List.length r = List.length cols -> ~ In name cols ->
  set_row name (cols ++ [name]) (r ++ [v]) w = r ++ [w].
Proof.
  revert r. induction cols as [|c cols IH]; intros [|x r] Hl Hin;
    simpl in *; try discriminate.
  - now rewrite String.eqb_refl.
  - destruct (String.eqb name c) eqn:E.
    + apply String.eqb_eq in E. subst. tauto.
    + f_equal. apply IH; [lia|tauto].
Qed.



(** ** Groups and their sizes *)

Lemma list_sum_map_add {A : Type} (f g : A -> nat) (l : list A) :
  list_sum (map (fun x => f x + g x)%nat l)
  = (list_sum (map f l) + list_sum (map g l))%nat.
Proof.
  induction l as [|x l IH]; [reflexivity|]. simpl in *. lia.
Qed.

Lemma count_occ_cons_add (x v : value) (l : list value) :
  count_occ value_eq_dec (x :: l) v
  = ((if value_eq_dec x v then 1 else 0) + count_occ value_eq_dec l v)%nat.
Proof.
  cbn [count_occ]. now destruct (value_eq_dec x v).
Qed.

Lemma list_sum_indicator (x : value) (l : list value) :
  list_sum (map (fun k => if value_eq_dec x k then 1 else 0)%nat l)
  = count_occ value_eq_dec l x.
Proof.
  induction l as [|y l IH]; [reflexivity|]. simpl. rewrite IH.
  destruct (value_eq_dec x y), (value_eq_dec y x);
    congruence || reflexivity.
Qed.

(** The counts of the distinct values of a list add up to its length. *)
Lemma sum_count_nodup (l : list value) :
  list_sum (map (count_occ value_eq_dec l) (nodup value_eq_dec l))
  = List.length l.
Proof.
  induction l as [|x l IH]; [reflexivity|].
  assert (Hsplit : forall L,
             list_sum (map (count_occ value_eq_dec (x :: l)) L)
             = (count_occ value_eq_dec L x
                + list_sum (map (count_occ value_eq_dec l) L))%nat).
  { intros L.
    rewrite (map_ext _ (fun k => ((if value_eq_dec x k then 1 else 0)
                                  + count_occ value_eq_dec l k)%nat))
      by (intros k; apply count_occ_cons_add).
    now rewrite list_sum_map_add, list_sum_indicator. }
  cbn [nodup List.length]. destruct (in_dec value_eq_dec x l) as [Hin|Hout].
  - rewrite Hsplit, IH.
    assert (H1 : count_occ value_eq_dec (nodup value_eq_dec l) x = 1%nat).
    { apply NoDup_count_occ'; [apply NoDup_nodup|now apply nodup_In]. }
    lia.
  - change (list_sum (map ?f (x :: ?L)))
      with (f x + list_sum (map f L))%nat.
    rewrite Hsplit, IH.
    assert (H0 : count_occ value_eq_dec (nodup value_eq_dec l) x = 0%nat).
    { apply count_occ_not_In. now rewrite nodup_In. }
    assert (H0' : count_occ value_eq_dec l x = 0%nat)
      by now apply count_occ_not_In.
    rewrite count_occ_cons_eq by reflexivity. lia.
Qed.

Lemma sum_longs_map (f : value -> nat) (l : list value) :
  sum_longs (map (fun k => VLong (Z.of_nat (f k))) l)
  = Z.of_nat (list_sum (map f l)).
Proof.
  induction l as [|x l IH]; [reflexivity|].
  change (list_sum (map f (x :: l))) with (f x + list_sum (map f l))%nat.
  cbn [map sum_longs]. rewrite IH. lia.
Qed.

(** X7. The counts of the diagnostic add up: grouping by join_col and
    counting gives at most as many rows as the DataFrame has, every count
    is at least 1, and the counts sum to the number of rows of the
    DataFrame, whatever row_ct is. *)
Theorem pct_of_data_counts_sum (row_ct : Z) (df : DataFrame) :
  resolves "join_col" (columns df) = true ->
  exists out,
    pct_of_data row_ct df = Some out
    /\ sum_longs (column "count" out) = count df
    /\ count out <= count df
    /\ (forall c, In c (column "count" out) -> exists z, c = VLong z /\ 1 <= z).
Proof.
  intros Hjc. rewrite (pct_of_data_eq row_ct df Hjc).
  eexists. split; [reflexivity|].
  assert (Hcol : column "count"
                   (mkDF ["join_col"; "count"; "pct_of_data"]
                      (map (fun k => [k; VLong (key_count df k);
                                      pct_cell (key_count df k) row_ct])
                         (nodup value_eq_dec (column "join_col" df))))
                 = map (fun k => VLong (Z.of_nat
                                          (count_occ value_eq_dec
                                             (column "join_col" df) k)))
                     (nodup value_eq_dec (column "join_col" df))).
  { unfold column at 1. cbn [columns rows]. rewrite map_map.
    apply map_ext. reflexivity. }
  rewrite Hcol. split; [|split].
  - rewrite sum_longs_map, sum_count_nodup. unfold count, column.
    now rewrite length_map.
  - unfold count. cbn [rows]. rewrite length_map.
    pose proof (NoDup_incl_length
                  (NoDup_nodup value_eq_dec (column "join_col" df))
                  (fun k Hk => proj1 (nodup_In value_eq_dec _ k) Hk)) as Hle.
    unfold column in Hle at 2. rewrite length_map in Hle. lia.
  - intros c Hc. apply in_map_iff in Hc. destruct Hc as (k & <- & Hk).
    eexists. split; [reflexivity|]. apply nodup_In in Hk.
    apply (count_occ_In value_eq_dec) in Hk. lia.
Qed.

Lemma pct_of_data_counts_sum_demo :
  exists out,
    pct_of_data 12 demo_skewed = Some out
    /\ sum_longs (column "count" out) = count demo_skewed
    /\ count out <= count demo_skewed
    /\ (forall c, In c (column "count" out) -> exists z, c = VLong z /\ 1 <= z).
Proof.
  apply (pct_of_data_counts_sum 12 demo_skewed). reflexivity.
Defined.

Lemma list_sum_indicator_filter (f : nat -> bool) (l : list nat) :
  list_sum (map (fun i => if f i then 1 else 0)%nat l)
  = List.length (filter f l).
Proof.
  induction l as [|x l IH]; [reflexivity|]. simpl. rewrite IH.
  now destruct (f x).
Qed.

(** The salted keys of a list of (key, index) pairs, counted over all
    indices of one key. *)
Lemma salted_counts_sum (L : list (string * Z)) (k : string) (n : nat) :
  (forall p, In p L -> 0 <= snd p < Z.of_nat n) ->
  list_sum
    (map (fun i =>
            count_occ value_eq_dec
              (map (fun p => VStr (salted_key (fst p) (snd p))) L)
              (VStr (salted_key k (Z.of_nat i))))
       (seq 0 n))
  = count_occ value_eq_dec (map (fun p => VStr (fst p)) L) (VStr k).
Proof.
  induction L as [|[kt z] L IH]; intros Hz.
  - cbn [map count_occ]. induction (seq 0 n) as [|i l IHl];
      [reflexivity|exact IHl].
  - cbn [map fst snd].
    rewrite (map_ext _ (fun i =>
               ((if value_eqb (VStr (salted_key kt z))
                      (VStr (salted_key k (Z.of_nat i))) then 1 else 0)
                + count_occ value_eq_dec
                    (map (fun p => VStr (salted_key (fst p) (snd p))) L)
                    (VStr (salted_key k (Z.of_nat i))))%nat)).
    2:{ intros i. rewrite count_occ_cons_add. unfold value_eqb.
        now destruct (value_eq_dec _ _). }
    rewrite list_sum_map_add, IH by (intros p Hp; apply Hz; now right).
    rewrite count_occ_cons_add. f_equal.
    rewrite list_sum_indicator_filter.
    specialize (Hz (kt, z) (or_introl eq_refl)). cbn [snd] in Hz.
    destruct (value_eq_dec (VStr kt) (VStr k)) as [E|N].
    + injection E as ->.
      rewrite (filter_seq_one _ (Z.to_nat z)); [reflexivity| |lia].
      intros j. unfold value_eqb.
      destruct (value_eq_dec (VStr (salted_key k z))
                  (VStr (salted_key k (Z.of_nat j)))) as [E|N].
      * injection E as E. apply salted_key_inj in E; lia.
      * split; [discriminate|]. intros ->. exfalso. apply N.
        now rewrite Z2Nat.id by lia.
    + rewrite filter_none; [reflexivity|].
      intros j Hj. unfold value_eqb.
      destruct (value_eq_dec (VStr (salted_key kt z))
                  (VStr (salted_key k (Z.of_nat j)))) as [E|_];
        [|reflexivity].
      injection E as E. apply salted_key_inj in E; try lia.
      exfalso. apply N. now f_equal.
Qed.

(** X8. Salting splits the rows of every key among its salt_count
    salted keys: the numbers of rows of k-0, k-1, ..., k-(salt_count-1)
    in the salted skewed DataFrame add up to the number of rows of k, so
    no salted key has more rows than its key had. *)
Theorem salting_splits_groups (rand : Z -> nat -> Q) (layout : list nat)
  (rand_range : forall seed i, (0 <= rand seed i < 1)%Q)
  (seed_no salt_count : Z) (skewed_df : DataFrame) :
  1 <= salt_count ->
  wf_skewed skewed_df = true ->
  exists sk,
    skewed_df_salted rand layout seed_no salt_count skewed_df = Some sk
    /\ (forall k,
          list_sum
            (map (fun i =>
                    count_occ value_eq_dec (column "salted_col" sk)
                      (VStr (salted_key k (Z.of_nat i))))
               (seq 0 (Z.to_nat salt_count)))
          = count_occ value_eq_dec (column "join_col" skewed_df) (VStr k))
    /\ (forall k i,
          0 <= i < salt_count ->
          (count_occ value_eq_dec (column "salted_col" sk)
             (VStr (salted_key k i))
           <= count_occ value_eq_dec (column "join_col" skewed_df) (VStr k))
          %nat).
Proof.
  intros HS Hsk.
  destruct (wf_skewed_spec _ Hsk) as (Hjc & Hsc & Hsh & Htx).
  rewrite (skewed_df_salted_eq rand layout seed_no salt_count skewed_df Hsk).
  eexists. split; [reflexivity|].
  set (L := map (fun p : nat * Row =>
                   (key_text (columns skewed_df) (snd p),
                    salt_index rand layout seed_no salt_count (fst p)))
              (indexed (rows skewed_df))).
  assert (Hsalted : column "salted_col"
                      (mkDF (columns skewed_df ++ ["salted_col"])
                         (map (skewed_salted_row rand layout (columns skewed_df)
                                 seed_no salt_count)
                            (indexed (rows skewed_df))))
                    = map (fun p => VStr (salted_key (fst p) (snd p))) L).
  { unfold column, L. cbn [columns rows]. rewrite !map_map.
    apply map_ext_in. intros [i l] Hin. cbn [fst snd].
    apply indexed_In, nth_error_In in Hin.
    apply skewed_salted_row_salt; [exact (shaped_spec _ Hsh l Hin)|assumption]. }
  assert (Hkeys : column "join_col" skewed_df
                  = map (fun p => VStr (fst p)) L).
  { unfold column, L. rewrite map_map. symmetry.
    apply (indexed_map
             (fun (i : nat) (l : Row) => VStr (key_text (columns skewed_df) l))
             (fun l => get (columns skewed_df) l "join_col")).
    intros i l Hl. symmetry. exact (text_keys_spec _ Htx l Hl). }
  assert (HL : forall p, In p L -> 0 <= snd p < Z.of_nat (Z.to_nat salt_count)).
  { intros p Hp. unfold L in Hp. apply in_map_iff in Hp.
    destruct Hp as ([i l] & <- & _). cbn [fst snd].
    pose proof (salt_index_range rand layout rand_range seed_no salt_count i HS).
    lia. }
  assert (Hsum : forall k,
             list_sum
               (map (fun i =>
                       count_occ value_eq_dec
                         (map (fun p => VStr (salted_key (fst p) (snd p))) L)
                         (VStr (salted_key k (Z.of_nat i))))
                  (seq 0 (Z.to_nat salt_count)))
             = count_occ value_eq_dec (map (fun p => VStr (fst p)) L) (VStr k))
    by (intros k; now apply salted_counts_sum).
  rewrite Hsalted, Hkeys. split; [exact Hsum|].
  intros k i Hi. rewrite <- Hsum.
  assert (Hin : In (Z.to_nat i) (seq 0 (Z.to_nat salt_count)))
    by (apply in_seq; lia).
  apply in_split in Hin. destruct Hin as (l1 & l2 & ->).
  rewrite map_app, list_sum_app. cbn [map list_sum].
  change (list_sum (?x :: ?l)) with (x + list_sum l)%nat.
  rewrite Z2Nat.id by lia. lia.
Qed.

Lemma salting_splits_groups_demo :
  exists sk,
    skewed_df_salted demo_rand demo_layout 123 10 demo_skewed = Some sk
    /\ (forall k,
          list_sum
            (map (fun i =>
                    count_occ value_eq_dec (column "salted_col" sk)
                      (VStr (salted_key k (Z.of_nat i))))
               (seq 0 (Z.to_nat 10)))
          = count_occ value_eq_dec (column "join_col" demo_skewed) (VStr k))
    /\ (forall k i,
          0 <= i < 10 ->
          (count_occ value_eq_dec (column "salted_col" sk)
             (VStr (salted_key k i))
           <= count_occ value_eq_dec (column "join_col" demo_skewed) (VStr k))
          %nat).
Proof.
  apply (salting_splits_groups demo_rand demo_layout demo_rand_range 123 10 demo_skewed);
    [lia | reflexivity].
Defined.

(** ** The union page *)

Lemma withColumn_null (name t : string) (df : DataFrame) :
  has_name name (columns df) = false ->
  withColumn name (lit_None_cast t) df
  = Some (mkDF (columns df ++ [name]) (map (fun r => r ++ [VNull]) (rows df))).
Proof.
  intros H. unfold withColumn, lit_None_cast, F_lit. rewrite H.
  f_equal. f_equal.
  apply (indexed_map (fun (_ : nat) (r : Row) => r ++ [VNull])
           (fun r => r ++ [VNull])).
  reflexivity.
Qed.

Lemma add_empty_columns_eq (col_dict : list (string * string))
  (df : DataFrame) :
  add_empty_columns df col_dict
  = Some (mkDF
            (columns df ++ missing_columns (columns df) (map fst col_dict))
            (map (fun r =>
                    r ++ repeat VNull
                           (List.length
                              (missing_columns (columns df)
                                 (map fst col_dict))))
               (rows df))).
Proof.
  revert df. induction col_dict as [|[col t] rest IH]; intros [cols rws].
  - cbn [add_empty_columns map missing_columns columns rows List.length repeat].
    rewrite app_nil_r. f_equal. f_equal.
    rewrite <- (map_id rws) at 1. apply map_ext. intros r.
    now rewrite app_nil_r.
  - cbn [add_empty_columns map missing_columns columns rows fst].
    destruct (has_name col cols) eqn:E.
    + apply IH.
    + rewrite (withColumn_null col t (mkDF cols rws) E), IH.
      cbn [columns rows List.length repeat]. f_equal. f_equal.
      * now rewrite <- app_assoc.
      * rewrite map_map. apply map_ext. intros r. now rewrite <- app_assoc.
Qed.

Lemma has_name_app (n : string) (l1 l2 : list string) :
  has_name n (l1 ++ l2) = has_name n l1 || has_name n l2.
Proof. unfold has_name. apply existsb_app. Qed.

Lemma missing_columns_filter (cols keys : list string) :
  NoDup keys ->
  missing_columns cols keys = filter (fun k => negb (has_name k cols)) keys.
Proof.
  revert cols. induction keys as [|k ks IH]; intros cols Hnd; [reflexivity|].
  inversion Hnd as [|? ? Hk Hnd']; subst. cbn [missing_columns filter].
  destruct (has_name k cols); cbn [negb]; [now apply IH|].
  f_equal. rewrite IH by assumption. apply filter_ext_in. intros x Hx.
  rewrite has_name_app, has_name_single.
  destruct (String.eqb x k) eqn:E; [|now rewrite orb_false_r].
  apply String.eqb_eq in E. subst. contradiction.
Qed.

Lemma get_repeat_null (cols : list string) (n : nat) (c : string) :
  get cols (repeat VNull n) c = VNull.
Proof.
  revert n. induction cols as [|x cols IH]; intros [|n]; try reflexivity.
  cbn [repeat get]. destruct (String.eqb c x); [reflexivity|apply IH].
Qed.

(** With no other spelling in sight, a name that no column carries is a
    name the resolver finds in no column. *)
Lemma case_free_has_name (keys names : list string) (k : string) :
  case_free keys names = true -> In k keys ->
  has_same_name k names = has_name k names.
Proof.
  intros H Hk. unfold case_free in H. rewrite forallb_forall in H.
  specialize (H k Hk). rewrite forallb_forall in H.
  unfold has_same_name, has_name.
  induction names as [|n names IH]; [reflexivity|]. cbn [existsb].
  rewrite IH by (intros x Hx; apply H; now right).
  f_equal. specialize (H n (or_introl eq_refl)).
  destruct (same_name k n) eqn:E1, (String.eqb k n) eqn:E2;
    try reflexivity; try discriminate H.
  apply String.eqb_eq in E2. subst. now rewrite same_name_refl in E1.
Qed.

(** X9. add_empty_columns on names that meet no other spelling of
    themselves, with types the engine knows: the result has the columns
    of the DataFrame, then the keys of col_dict it does not have, in
    their order; the rows are those of the DataFrame, each followed by
    one null per added column.  So every key of col_dict is a column of
    the result, the row count is kept, a key the DataFrame lacks is
    lacked in every spelling (the new column replaces none), and every
    cell is read back where it was and every added column reads
    null. *)
Theorem add_empty_columns_adds_nulls (col_dict : list (string * string))
  (df : DataFrame) :
  NoDup (map fst col_dict) ->
  case_free (map fst col_dict) (columns df ++ map fst col_dict) = true ->
  forallb (fun p => known_type (snd p)) col_dict = true ->
  exists out,
    add_empty_columns df col_dict = Some out
    /\ columns out
       = columns df
           ++ filter (fun k => negb (has_name k (columns df)))
                (map fst col_dict)
    /\ rows out
       = map (fun r =>
                r ++ repeat VNull
                       (List.length
                          (filter (fun k => negb (has_name k (columns df)))
                             (map fst col_dict))))
           (rows df)
    /\ (forall k, In k (map fst col_dict) -> In k (columns out))
    /\ (forall k, In k (map fst col_dict) ->
                  has_same_name k (columns df) = has_name k (columns df))
    /\ count out = count df
    /\ (shaped df = true ->
        forall r c,
          In r (rows df) ->
          let r' := r ++ repeat VNull
                          (List.length
                             (filter (fun k => negb (has_name k (columns df)))
                                (map fst col_dict))) in
          (In c (columns df) -> get (columns out) r' c = get (columns df) r c)
          /\ (~ In c (columns df) -> In c (map fst col_dict) ->
              get (columns out) r' c = VNull)).
Proof.
  intros Hnd Hcf _. rewrite add_empty_columns_eq.
  rewrite (missing_columns_filter _ _ Hnd).
  eexists. split; [reflexivity|]. cbn [columns rows].
  split; [reflexivity|]. split; [reflexivity|].
  split.
  { intros k Hk. apply in_or_app.
    destruct (has_name k (columns df)) eqn:E.
    - left. now apply has_name_In.
    - right. apply filter_In. split; [assumption|now rewrite E]. }
  split.
  { intros k Hk.
    pose proof (case_free_has_name _ _ k Hcf Hk) as E.
    unfold has_same_name, has_name in *. rewrite !existsb_app in E.
    destruct (existsb (same_name k) (columns df)) eqn:E1,
      (existsb (String.eqb k) (columns df)) eqn:E2; try reflexivity.
    - exfalso. unfold case_free in Hcf. rewrite forallb_forall in Hcf.
      specialize (Hcf k Hk). rewrite forallb_forall in Hcf.
      apply existsb_exists in E1. destruct E1 as (n & Hn & E1).
      specialize (Hcf n (in_or_app _ _ _ (or_introl Hn))).
      rewrite E1 in Hcf. cbn [implb] in Hcf. apply String.eqb_eq in Hcf.
      subst n.
      assert (E3 : existsb (String.eqb k) (columns df) = true)
        by (apply existsb_exists; exists k; split;
            [assumption|apply String.eqb_refl]).
      congruence.
    - exfalso. apply existsb_exists in E2. destruct E2 as (n & Hn & E2).
      apply String.eqb_eq in E2. subst n.
      assert (E3 : existsb (same_name k) (columns df) = true)
        by (apply existsb_exists; exists k; split;
            [assumption|apply same_name_refl]).
      congruence. }
  split; [unfold count; cbn [rows]; now rewrite length_map|].
  intros Hsh r c Hr. cbv zeta.
  pose proof (shaped_spec _ Hsh r Hr) as Hl.
  split.
  - intros Hc. now apply get_app_l.
  - intros Hc _. rewrite get_app_r by assumption. apply get_repeat_null.
Qed.

Lemma add_empty_columns_adds_nulls_demo :
  exists out,
    add_empty_columns wimbledon3 wimbledon_dict = Some out
    /\ columns out = ["tournament_year"; "champion"; "event"]
    /\ rows out = [[VLong 2021; VNull; VNull]; [VLong 2021; VNull; VNull]].
Proof.
  destruct (add_empty_columns_adds_nulls wimbledon_dict wimbledon3)
    as (out & H & Hc & Hr & _).
  - repeat constructor; simpl; intuition discriminate.
  - reflexivity.
  - reflexivity.
  - exists out. repeat split; assumption.
Defined.

Lemma add_empty_columns_present (col_dict : list (string * string))
  (df : DataFrame) :
  (forall k, In k (map fst col_dict) -> In k (columns df)) ->
  add_empty_columns df col_dict = Some df.
Proof.
  induction col_dict as [|[col t] rest IH]; intros H; [reflexivity|].
  cbn [add_empty_columns].
  rewrite (proj2 (has_name_In col (columns df))) by (apply H; now left).
  apply IH. intros k Hk. apply H. now right.
Qed.


Lemma select_add_empty_columns (col_dict : list (string * string))
  (df : DataFrame) :
  NoDup (map fst col_dict) -> NoDup (columns df) -> shaped df = true ->
  exists out,
    add_empty_columns df col_dict = Some out
    /\ select (map fst col_dict) out
       = Some (mkDF (map fst col_dict)
                 (map (aligned_row (columns df) (map fst col_dict))
                    (rows df))).
Proof.
  intros Hk Hc Hsh. rewrite add_empty_columns_eq.
  rewrite (missing_columns_filter _ _ Hk).
  eexists. split; [reflexivity|].
  set (keys := map fst col_dict) in *.
  set (M := filter (fun k => negb (has_name k (columns df))) keys).
  assert (HM : forall k, In k M -> ~ In k (columns df)).
  { intros k Hin. apply filter_In in Hin. destruct Hin as [_ Hin].
    apply negb_true_iff in Hin. now apply has_name_false. }
  assert (Hnd : NoDup (columns df ++ M)).
  { apply NoDup_app; [assumption|now apply NoDup_filter|].
    intros a Ha Hb. exact (HM a Hb Ha). }
  unfold select. cbn [columns rows].
  replace (forallb (fun n => resolves n (columns df ++ M)) keys) with true.
  2:{ symmetry. apply resolves_all_incl; [assumption|].
      intros k Hin. apply in_or_app.
      destruct (has_name k (columns df)) eqn:E.
      - left. now apply has_name_In.
      - right. apply filter_In. split; [assumption|now rewrite E]. }
  f_equal. f_equal. rewrite map_map. apply map_ext_in. intros r Hr.
  pose proof (shaped_spec _ Hsh r Hr) as Hl.
  unfold aligned_row. apply map_ext. intros k.
  destruct (has_name k (columns df)) eqn:E.
  - apply get_app_l; [assumption|now apply has_name_In].
  - rewrite get_app_r; [apply get_repeat_null|assumption|].
    now apply has_name_false.
Qed.



(** ** The sampling page *)

Lemma insert_by_perm {A : Type} (leb : A -> A -> bool) (x : A) (l : list A) :
  Permutation (insert_by leb x l) (x :: l).
Proof.
  induction l as [|y l IH]; [reflexivity|]. cbn [insert_by].
  destruct (leb x y); [reflexivity|].
  rewrite IH. apply perm_swap.
Qed.

Lemma sort_by_perm {A : Type} (leb : A -> A -> bool) (l : list A) :
  Permutation (sort_by leb l) l.
Proof.
  induction l as [|x l IH]; [reflexivity|].
  unfold sort_by in *. cbn [fold_right].
  rewrite insert_by_perm. now apply perm_skip.
Qed.



Lemma Qle_bool_false (a b : Q) : Qle_bool a b = false <-> (b < a)%Q.
Proof.
  split.
  - intros H. apply Qnot_le_lt. intros Hle.
    apply Qle_bool_iff in Hle. congruence.
  - intros H. destruct (Qle_bool a b) eqn:E; [|reflexivity].
    apply Qle_bool_iff in E. exfalso. exact (Qlt_not_le _ _ H E).
Qed.

Lemma interval_split {A : Type} (d : A -> Q) (lb m ub : Q) (l : list A) :
  (lb <= m)%Q -> (m <= ub)%Q ->
  Permutation
    (filter (fun p => Qle_bool lb (d p) && negb (Qle_bool ub (d p))) l)
    (filter (fun p => Qle_bool lb (d p) && negb (Qle_bool m (d p))) l
       ++ filter (fun p => Qle_bool m (d p) && negb (Qle_bool ub (d p))) l).
Proof.
  intros H1 H2. induction l as [|x l IH]; [reflexivity|]. cbn [filter].
  destruct (Qle_bool lb (d x)) eqn:E1, (Qle_bool m (d x)) eqn:E2,
    (Qle_bool ub (d x)) eqn:E3; cbn [andb negb];
    try apply Qle_bool_iff in E1; try apply Qle_bool_iff in E2;
    try apply Qle_bool_iff in E3; try apply Qle_bool_false in E1;
    try apply Qle_bool_false in E2; try apply Qle_bool_false in E3;
    try (exfalso; lra); try exact IH.
  - now apply Permutation_cons_app.
  - cbn [app]. now apply perm_skip.
Qed.

Lemma splits_from_perm (rand : Z -> nat -> Q) (seed : Z) (df : DataFrame)
  (ubs : list Q) (lb : Q) :
  bounds_chain lb ubs ->
  (lb <= final_bound lb ubs)%Q
  /\ Permutation
       (List.concat (map rows (splits_from rand seed df lb ubs)))
       (map snd
          (filter (fun p => Qle_bool lb (rand seed (fst p))
                            && negb (Qle_bool (final_bound lb ubs)
                                       (rand seed (fst p))))
             (indexed (rows df)))).
Proof.
  revert lb. induction ubs as [|ub ubs IH]; intros lb Hc.
  - cbn [final_bound splits_from map List.concat]. split; [apply Qle_refl|].
    rewrite filter_none; [reflexivity|].
    intros p _. destruct (Qle_bool lb (rand seed (fst p))); reflexivity.
  - destruct Hc as [Hlb Hc]. destruct (IH ub Hc) as [Hle Hperm].
    cbn [final_bound splits_from map List.concat rows]. split.
    + eapply Qle_trans; eassumption.
    + rewrite Hperm, <- map_app. apply Permutation_map. symmetry.
      now apply (interval_split (fun p : nat * Row => rand seed (fst p))).
Qed.

Lemma cumulative_chain (acc : Q) (ws : list Q) :
  (forall w, In w ws -> (0 <= w)%Q) -> bounds_chain acc (cumulative acc ws).
Proof.
  revert acc. induction ws as [|w ws IH]; intros acc H; [exact I|].
  cbn [cumulative bounds_chain]. split.
  - specialize (H w (or_introl eq_refl)). lra.
  - apply IH. intros x Hx. apply H. now right.
Qed.

Lemma final_cumulative (acc : Q) (ws : list Q) :
  (final_bound acc (cumulative acc ws) == acc + total_weight ws)%Q.
Proof.
  revert acc. induction ws as [|w ws IH]; intros acc;
    cbn [cumulative final_bound total_weight]; [lra|].
  rewrite IH. lra.
Qed.

Lemma total_weight_scaled (ws : list Q) (W : Q) :
  (total_weight (map (fun w => w / W) ws) == total_weight ws / W)%Q.
Proof.
  induction ws as [|w ws IH]; cbn [map total_weight].
  - unfold Qdiv. now rewrite Qmult_0_l.
  - rewrite IH. unfold Qdiv. now rewrite Qmult_plus_distr_l.
Qed.

Lemma splits_from_shape (rand : Z -> nat -> Q) (seed : Z) (df : DataFrame)
  (ubs : list Q) (lb : Q) :
  List.length (splits_from rand seed df lb ubs) = List.length ubs
  /\ (forall s, In s (splits_from rand seed df lb ubs) ->
                columns s = columns df).
Proof.
  revert lb. induction ubs as [|ub ubs IH]; intros lb.
  - split; [reflexivity|intros s []].
  - destruct (IH ub) as [Hl Hc]. cbn [splits_from List.length]. split.
    + now rewrite Hl.
    + intros s [<-|Hs]; [reflexivity|now apply Hc].
Qed.

Lemma cumulative_length (acc : Q) (ws : list Q) :
  List.length (cumulative acc ws) = List.length ws.
Proof.
  revert acc. induction ws as [|w ws IH]; intros acc; [reflexivity|].
  cbn [cumulative List.length]. now rewrite IH.
Qed.

Lemma concat_count (ls : list DataFrame) :
  Z.of_nat (List.length (List.concat (map rows ls)))
  = fold_right Z.add 0 (map count ls).
Proof.
  induction ls as [|d ls IH]; [reflexivity|].
  cbn [map List.concat fold_right]. rewrite length_app. unfold count at 1.
  lia.
Qed.

Lemma map_snd_indexed {A : Type} (l : list A) : map snd (indexed l) = l.
Proof.
  rewrite <- (map_id l) at 2.
  apply (indexed_map (fun (_ : nat) (x : A) => x) (fun x => x)). reflexivity.
Qed.

(** X13. randomSplit gives every row to exactly one split: for weights
    that are not negative and not all zero there is one split per
    weight, every split has the columns of the DataFrame, the rows of
    the splits together are the rows of the DataFrame, and the counts of
    the splits add up to its count (the check of the page). *)
Theorem randomSplit_partitions (rand : Z -> nat -> Q)
  (rand_range : forall seed i, (0 <= rand seed i < 1)%Q)
  (weights : list Q) (seed : Z) (df : DataFrame) :
  forallb (Qle_bool 0) weights = true ->
  Qle_bool (total_weight weights) 0 = false ->
  List.length (randomSplit rand weights seed df) = List.length weights
  /\ (forall s, In s (randomSplit rand weights seed df) ->
                columns s = columns df)
  /\ Permutation (List.concat (map rows (randomSplit rand weights seed df)))
       (rows df)
  /\ fold_right Z.add 0 (map count (randomSplit rand weights seed df))
     = count df.
Proof.
  intros Hpos Hsum. apply Qle_bool_false in Hsum.
  assert (Hw : forall w, In w weights -> (0 <= w)%Q).
  { intros w Hin. apply Qle_bool_iff.
    exact (proj1 (forallb_forall _ _) Hpos w Hin). }
  set (W := total_weight weights) in *.
  set (ubs := cumulative 0 (map (fun w => (w / W)%Q) weights)).
  assert (Hchain : bounds_chain 0 ubs).
  { apply cumulative_chain. intros x Hx. apply in_map_iff in Hx.
    destruct Hx as (w & <- & Hin). apply Qle_shift_div_l; [assumption|].
    rewrite Qmult_0_l. now apply Hw. }
  assert (Hfinal : (final_bound 0 ubs == 1)%Q).
  { unfold ubs. rewrite final_cumulative, total_weight_scaled.
    fold W. field. intros H0. rewrite H0 in Hsum.
    exact (Qlt_irrefl _ Hsum). }
  destruct (splits_from_perm rand seed df ubs 0%Q Hchain) as [_ Hperm].
  destruct (splits_from_shape rand seed df ubs 0%Q) as [Hlen Hcols].
  assert (Hall : Permutation
                   (List.concat (map rows (randomSplit rand weights seed df)))
                   (rows df)).
  { unfold randomSplit. fold W. fold ubs. rewrite Hperm.
    rewrite forallb_filter_id; [now rewrite map_snd_indexed|].
    apply forallb_forall. intros p _.
    destruct (rand_range seed (fst p)) as [H0 H1].
    rewrite (proj2 (Qle_bool_iff 0 _) H0). cbn [andb].
    apply negb_true_iff, Qle_bool_false. now rewrite Hfinal. }
  assert (Hrs : randomSplit rand weights seed df
                = splits_from rand seed df 0 ubs) by reflexivity.
  rewrite Hrs in *.
  split; [rewrite Hlen; unfold ubs; now rewrite cumulative_length, length_map|].
  split; [exact Hcols|]. split; [exact Hall|].
  rewrite <- concat_count, (Permutation_length Hall). reflexivity.
Qed.

Lemma randomSplit_partitions_demo :
  List.length (randomSplit demo_rand [1 # 2; 4 # 10; 1 # 10] 3 demo_skewed)
  = List.length [1 # 2; 4 # 10; 1 # 10]
  /\ (forall s,
        In s (randomSplit demo_rand [1 # 2; 4 # 10; 1 # 10] 3 demo_skewed) ->
        columns s = columns demo_skewed)
  /\ Permutation
       (List.concat
          (map rows
             (randomSplit demo_rand [1 # 2; 4 # 10; 1 # 10] 3 demo_skewed)))
       (rows demo_skewed)
  /\ fold_right Z.add 0
       (map count
          (randomSplit demo_rand [1 # 2; 4 # 10; 1 # 10] 3 demo_skewed))
     = count demo_skewed.
Proof.
  apply (randomSplit_partitions demo_rand demo_rand_range
           [1 # 2; 4 # 10; 1 # 10] 3 demo_skewed);
    reflexivity.
Defined.

(** ** The cross-join page *)

Lemma flat_map_pairs_length {A B C : Type} (f : A -> B -> C) (la : list A)
  (lb : list B) :
  List.length (flat_map (fun x => map (f x) lb) la)
  = (List.length la * List.length lb)%nat.
Proof.
  induction la as [|x la IH]; [reflexivity|].
  cbn [flat_map List.length]. rewrite length_app, length_map, IH. lia.
Qed.

(** X14. A cross join returns every combination of a row of the one
    DataFrame with a row of the other, under the columns of both: its
    row count is the product of the two row counts, and well-shaped
    inputs give a well-shaped result. *)
Theorem crossJoin_product (a b : DataFrame) :
  columns (crossJoin a b) = columns a ++ columns b
  /\ count (crossJoin a b) = count a * count b
  /\ (forall r, In r (rows (crossJoin a b))
                <-> exists x y, In x (rows a) /\ In y (rows b) /\ r = x ++ y)
  /\ (shaped a = true -> shaped b = true -> shaped (crossJoin a b) = true).
Proof.
  split; [reflexivity|]. split; [|split].
  - unfold count, crossJoin. cbn [rows].
    rewrite <- Nat2Z.inj_mul. f_equal.
    apply (flat_map_pairs_length (fun x y : Row => x ++ y)).
  - intros r. unfold crossJoin. cbn [rows]. rewrite in_flat_map. split.
    + intros (x & Hx & Hr). apply in_map_iff in Hr.
      destruct Hr as (y & <- & Hy). now exists x, y.
    + intros (x & y & Hx & Hy & ->). exists x. split; [assumption|].
      now apply in_map.
  - intros Ha Hb. unfold shaped, crossJoin. cbn [columns rows].
    apply forallb_forall. intros r Hr. apply in_flat_map in Hr.
    destruct Hr as (x & Hx & Hr). apply in_map_iff in Hr.
    destruct Hr as (y & <- & Hy). apply Nat.eqb_eq.
    rewrite !length_app, (shaped_spec _ Ha x Hx), (shaped_spec _ Hb y Hy).
    reflexivity.
Qed.

(** ** The padding page *)

Lemma string_length_app (s t : string) :
  String.length (s ++ t) = (String.length s + String.length t)%nat.
Proof.
  induction s as [|c s IH]; [reflexivity|]. cbn. now rewrite IH.
Qed.

Lemma first_chars_length (n : nat) (s : string) :
  String.length (first_chars n s) = Nat.min n (String.length s).
Proof.
  revert s. induction n as [|n IH]; intros [|c s]; try reflexivity.
  cbn. now rewrite IH.
Qed.

Lemma first_chars_all (n : nat) (s : string) :
  (String.length s <= n)%nat -> first_chars n s = s.
Proof.
  revert s. induction n as [|n IH]; intros [|c s] H; try reflexivity.
  - cbn in H. lia.
  - cbn in *. f_equal. apply IH. lia.
Qed.

Lemma repeat_string_length (n : nat) (s : string) :
  String.length (repeat_string n s) = (n * String.length s)%nat.
Proof.
  induction n as [|n IH]; [reflexivity|]. cbn [repeat_string].
  rewrite string_length_app, IH. lia.
Qed.

Lemma padding_length (spaces : nat) (pad : string) :
  pad <> "" -> String.length (padding spaces pad) = spaces.
Proof.
  intros Hpad. unfold padding.
  assert (HL : (String.length pad <> 0)%nat)
    by (destruct pad; [contradiction|discriminate]).
  rewrite string_length_app, repeat_string_length, first_chars_length.
  pose proof (Nat.div_mod_eq spaces (String.length pad)) as Hdm.
  pose proof (Nat.mod_upper_bound spaces (String.length pad) HL) as Hub.
  nia.
Qed.

Lemma pad_fits (s : string) (len : Z) (pad : string) :
  pad <> "" -> Z.of_nat (String.length s) <= len ->
  lpad_text s len pad
  = (padding (Z.to_nat len - String.length s) pad ++ s)%string
  /\ rpad_text s len pad
     = (s ++ padding (Z.to_nat len - String.length s) pad)%string
  /\ String.length (padding (Z.to_nat len - String.length s) pad)
     = (Z.to_nat len - String.length s)%nat.
Proof.
  intros Hpad H.
  assert (HL : (String.length pad =? 0)%nat = false).
  { apply Nat.eqb_neq. destruct pad; [contradiction|discriminate]. }
  split; [|split]; [| |now apply padding_length].
  - unfold lpad_text. cbv zeta.
    destruct (Z.leb_spec (len - Z.of_nat (String.length s)) 0) as [Hle|Hgt].
    + assert (H0 : (Z.to_nat len - String.length s = 0)%nat) by lia.
      rewrite H0. cbn [orb].
      assert (Hp0 : padding 0 pad = "").
      { unfold padding. rewrite Nat.Div0.div_0_l. reflexivity. }
      rewrite Hp0. cbn [append]. apply first_chars_all. lia.
    + rewrite HL. cbn [orb].
      replace (Z.to_nat (len - Z.of_nat (String.length s)))
        with (Z.to_nat len - String.length s)%nat by lia.
      reflexivity.
  - unfold rpad_text. cbv zeta.
    destruct (Z.leb_spec (len - Z.of_nat (String.length s)) 0) as [Hle|Hgt].
    + assert (H0 : (Z.to_nat len - String.length s = 0)%nat) by lia.
      rewrite H0. cbn [orb].
      assert (Hp0 : padding 0 pad = "").
      { unfold padding. rewrite Nat.Div0.div_0_l. reflexivity. }
      rewrite Hp0, append_nil_r. apply first_chars_all. lia.
    + rewrite HL. cbn [orb].
      replace (Z.to_nat (len - Z.of_nat (String.length s)))
        with (Z.to_nat len - String.length s)%nat by lia.
      reflexivity.
Qed.

(** X15. lpad and rpad give a text of the asked width: with a pad that
    is not empty and a width of at least 0 the result has exactly len
    characters.  A text that fits is kept whole, after (lpad) or before
    (rpad) the padding, and a text of exactly len characters is returned
    as it is; a text longer than len is cut to its first len characters,
    by lpad as well as by rpad, so it is not returned whole. *)
Theorem pad_fixed_width (s : string) (len : Z) (pad : string) :
  0 <= len -> pad <> "" ->
  String.length (lpad_text s len pad) = Z.to_nat len
  /\ String.length (rpad_text s len pad) = Z.to_nat len
  /\ (Z.of_nat (String.length s) <= len ->
      lpad_text s len pad
      = (padding (Z.to_nat len - String.length s) pad ++ s)%string
      /\ rpad_text s len pad
         = (s ++ padding (Z.to_nat len - String.length s) pad)%string
      /\ String.length (padding (Z.to_nat len - String.length s) pad)
         = (Z.to_nat len - String.length s)%nat)
  /\ (len = Z.of_nat (String.length s) ->
      lpad_text s len pad = s /\ rpad_text s len pad = s)
  /\ (len < Z.of_nat (String.length s) ->
      lpad_text s len pad = first_chars (Z.to_nat len) s
      /\ rpad_text s len pad = first_chars (Z.to_nat len) s
      /\ lpad_text s len pad <> s).
Proof.
  intros Hlen Hpad.
  assert (HL : (String.length pad =? 0)%nat = false).
  { apply Nat.eqb_neq. destruct pad; [contradiction|discriminate]. }
  assert (Hfit : Z.of_nat (String.length s) < len ->
                 lpad_text s len pad
                 = (padding (Z.to_nat len - String.length s) pad ++ s)%string
                 /\ rpad_text s len pad
                    = (s ++ padding (Z.to_nat len - String.length s) pad)
                      %string).
  { intros H. unfold lpad_text, rpad_text. cbv zeta. rewrite HL.
    rewrite (proj2 (Z.leb_gt _ _)) by lia. cbn [orb].
    replace (Z.to_nat (len - Z.of_nat (String.length s)))
      with (Z.to_nat len - String.length s)%nat by lia.
    now split. }
  assert (Hcut : len <= Z.of_nat (String.length s) ->
                 lpad_text s len pad = first_chars (Z.to_nat len) s
                 /\ rpad_text s len pad = first_chars (Z.to_nat len) s).
  { intros H. unfold lpad_text, rpad_text. cbv zeta.
    rewrite (proj2 (Z.leb_le _ _)) by lia. now split. }
  split; [|split; [|split; [|split]]].
  - destruct (Z.lt_ge_cases (Z.of_nat (String.length s)) len) as [H|H].
    + rewrite (proj1 (Hfit H)), string_length_app, padding_length
        by assumption. lia.
    + rewrite (proj1 (Hcut H)), first_chars_length. lia.
  - destruct (Z.lt_ge_cases (Z.of_nat (String.length s)) len) as [H|H].
    + rewrite (proj2 (Hfit H)), string_length_app, padding_length
        by assumption. lia.
    + rewrite (proj2 (Hcut H)), first_chars_length. lia.
  - intros H. destruct (Z.eq_dec len (Z.of_nat (String.length s))) as [E|N].
    + assert (H0 : (Z.to_nat len - String.length s = 0)%nat) by lia.
      rewrite H0. assert (Hp0 : padding 0 pad = "").
      { unfold padding. rewrite Nat.Div0.div_0_l. reflexivity. }
      rewrite Hp0. cbn [append String.length].
      destruct (Hcut ltac:(lia)) as [-> ->].
      rewrite first_chars_all by lia.
      repeat split. clear. induction s as [|c s IH]; [reflexivity|].
      cbn. now rewrite <- IH.
    + destruct (Hfit ltac:(lia)) as [-> ->].
      repeat split. now apply padding_length.
  - intros E. destruct (Hcut ltac:(lia)) as [-> ->].
    rewrite first_chars_all by lia. now split.
  - intros H. destruct (Hcut ltac:(lia)) as [-> ->].
    repeat split. intros E.
    apply (f_equal String.length) in E. rewrite first_chars_length in E. lia.
Qed.

Lemma pad_fixed_width_demo :
  String.length (lpad_text "955141" 9 "0") = Z.to_nat 9
  /\ lpad_text "955141" 9 "0" = "000955141"
  /\ rpad_text "66969111" 9 "0" = "669691110"
  /\ lpad_text "955141" 14 "xyz" = "xyzxyzxy955141"
  /\ lpad_text "114153091" 3 "0" = "114".
Proof.
  destruct (pad_fixed_width "955141" 9 "0" ltac:(lia) ltac:(discriminate))
    as (H1 & _ & _).
  split; [exact H1|]. repeat split; reflexivity.
Defined.

Lemma all_chars_repeat (n : nat) (c : ascii) :
  all_chars c (repeat_string n (String c "")) = true.
Proof.
  induction n as [|n IH]; [reflexivity|]. cbn [repeat_string append all_chars].
  now rewrite Ascii.eqb_refl.
Qed.

Lemma padding_one_char (n : nat) (c : ascii) :
  padding n (String c "") = repeat_string n (String c "").
Proof.
  unfold padding. cbn [String.length]. rewrite Nat.div_1_r.
  replace (n - 1 * n)%nat with 0%nat by lia.
  cbn [first_chars]. apply append_nil_r.
Qed.

Lemma uint_of_zeros (n : nat) (d : Decimal.uint) :
  NilEmpty.uint_of_string
    (repeat_string n "0" ++ NilEmpty.string_of_uint d)
  = Some (Nat.iter n Decimal.D0 d).
Proof.
  induction n as [|n IH]; [apply NilEmpty.usu|].
  cbn [repeat_string append Nat.iter]. rewrite Nat.iter_succ || idtac.
  change (NilEmpty.uint_of_string
            (String "0" (repeat_string n "0" ++ NilEmpty.string_of_uint d)))
    with (uint_of_char "0"
            (NilEmpty.uint_of_string
               (repeat_string n "0" ++ NilEmpty.string_of_uint d))).
  now rewrite IH.
Qed.

Lemma of_uint_zeros (n : nat) (d : Decimal.uint) :
  Z.of_uint (Nat.iter n Decimal.D0 d) = Z.of_uint d.
Proof.
  induction n as [|n IH]; [reflexivity|]. cbn [Nat.iter]. exact IH.
Qed.

(** X16. Leading zeros keep the number: the decimal text of an integer
    of at least 0, padded on the left with "0" to a width it fits in, is
    the text with zeros only before it and still stands for the same
    integer. *)
Theorem lpad_zeros_round_trip (z len : Z) :
  0 <= z ->
  Z.of_nat (String.length (string_of_Z z)) <= len ->
  exists zeros,
    lpad_text (string_of_Z z) len "0" = (zeros ++ string_of_Z z)%string
    /\ all_chars "0" zeros = true
    /\ String.length (lpad_text (string_of_Z z) len "0") = Z.to_nat len
    /\ Z_of_text (lpad_text (string_of_Z z) len "0") = Some z.
Proof.
  intros Hz Hlen.
  destruct (pad_fits (string_of_Z z) len "0" ltac:(discriminate) Hlen)
    as (Hl & _ & Hp).
  assert (Hw : String.length (lpad_text (string_of_Z z) len "0")
               = Z.to_nat len).
  { rewrite Hl, string_length_app, Hp. lia. }
  rewrite padding_one_char in Hl.
  exists (repeat_string (Z.to_nat len - String.length (string_of_Z z)) "0").
  split; [exact Hl|]. split; [apply all_chars_repeat|]. split; [exact Hw|].
  rewrite Hl. unfold Z_of_text.
  set (n := (Z.to_nat len - String.length (string_of_Z z))%nat).
  assert (Hd : exists d, Z.to_int z = Decimal.Pos d
                         /\ string_of_Z z = NilEmpty.string_of_uint d).
  { unfold string_of_Z. destruct z as [|p|p]; [| |lia];
      eexists; split; reflexivity. }
  destruct Hd as (d & Hint & Hstr).
  destruct n as [|n].
  - cbn [repeat_string append]. unfold string_of_Z.
    rewrite NilEmpty.isi. cbn [option_map]. now rewrite DecimalZ.of_to.
  - rewrite Hstr.
    assert (Hint' : NilEmpty.int_of_string
                      (repeat_string (S n) "0" ++ NilEmpty.string_of_uint d)
                    = option_map Decimal.Pos
                        (NilEmpty.uint_of_string
                           (repeat_string (S n) "0"
                              ++ NilEmpty.string_of_uint d))) by reflexivity.
    rewrite Hint', uint_of_zeros. cbn [option_map]. f_equal.
    change (Z.of_int (Decimal.Pos (Nat.iter (S n) Decimal.D0 d)))
      with (Z.of_uint (Nat.iter (S n) Decimal.D0 d)).
    rewrite of_uint_zeros.
    change (Z.of_uint d) with (Z.of_int (Decimal.Pos d)).
    rewrite <- Hint. apply DecimalZ.of_to.
Qed.

Lemma lpad_zeros_round_trip_demo :
  exists zeros,
    lpad_text (string_of_Z 955141) 9 "0" = (zeros ++ string_of_Z 955141)%string
    /\ all_chars "0" zeros = true
    /\ String.length (lpad_text (string_of_Z 955141) 9 "0") = Z.to_nat 9
    /\ Z_of_text (lpad_text (string_of_Z 955141) 9 "0") = Some 955141.
Proof.
  apply (lpad_zeros_round_trip 955141 9); [lia|].
  vm_compute. discriminate.
Defined.

(** ** The cross join of the animals and the years *)

Lemma orderBy_spec (names : list string) (df : DataFrame) :
  forallb (fun n => resolves n (columns df)) names = true ->
  exists rows',
    orderBy names df = Some (mkDF (columns df) rows')
    /\ Permutation rows' (rows df).
Proof.
  intros H. unfold orderBy. rewrite H. eexists. split; [reflexivity|].
  apply sort_by_perm.
Qed.

Lemma key_match_eq (a b : value) :
  a <> VNull -> key_match a b = true <-> a = b.
Proof.
  intros Ha. unfold key_match, value_eqb.
  destruct a; try contradiction;
    destruct (value_eq_dec _ b); split; congruence.
Qed.

Lemma nodup_map_inj {A B : Type} (decA : forall x y : A, {x = y} + {x <> y})
  (decB : forall x y : B, {x = y} + {x <> y}) (f : A -> B) (l : list A) :
  (forall x y, f x = f y -> x = y) ->
  nodup decB (map f l) = map f (nodup decA l).
Proof.
  intros Hinj. induction l as [|x l IH]; [reflexivity|].
  cbn [map nodup].
  destruct (in_dec decB (f x) (map f l)) as [Hin|Hout],
    (in_dec decA x l) as [Hin'|Hout'].
  - exact IH.
  - exfalso. apply in_map_iff in Hin. destruct Hin as (y & E & Hy).
    apply Hinj in E. subst. contradiction.
  - exfalso. apply Hout. now apply in_map.
  - cbn [map]. now rewrite IH.
Qed.

Lemma wf_costs_spec (rws : list Row) :
  wf_costs (mkDF ["animal_group"; "cal_year"; "cost"] rws) = true ->
  forall r, In r rws ->
    exists a y c, r = [a; y; c] /\ a <> VNull /\ y <> VNull.
Proof.
  unfold wf_costs. cbn [rows]. rewrite forallb_forall. intros H r Hr.
  specialize (H r Hr).
  destruct r as [|a [|y [|c [|]]]]; try discriminate.
  apply andb_true_iff in H. destruct H as [H _].
  apply andb_true_iff in H. destruct H as [Ha Hy].
  exists a, y, c. split; [reflexivity|].
  unfold value_eqb in *.
  destruct (value_eq_dec a VNull), (value_eq_dec y VNull);
    try discriminate. now split.
Qed.

(** The rows the left join on the two keys gives for one combination. *)
Lemma join_on_rows_pair (rws : list Row) (a y : value) :
  (forall r, In r rws -> exists a y c, r = [a; y; c] /\ a <> VNull /\ y <> VNull) ->
  a <> VNull -> y <> VNull ->
  join_on_rows how_left ["animal_group"; "cal_year"]
    ["animal_group"; "cal_year"; "cost"] ["animal_group"; "cal_year"]
    rws [a; y]
  = match filter (fun r : Row => if row_eq_dec (firstn 2 r) [a; y]
                           then true else false) rws with
    | [] => [[a; y; VNull]]
    | ms => map (fun r => [a; y; nth 2 r VNull]) ms
    end.
Proof.
  intros Hwf Ha Hy.
  remember (filter (fun r : Row => if row_eq_dec (firstn 2 r) [a; y]
                             then true else false) rws) as sel eqn:E.
  unfold join_on_rows. cbn [map get String.eqb Ascii.eqb
    Bool.eqb drop_row has_name existsb orb app drop_names filter negb
    List.length repeat].
  rewrite (filter_ext_in
             (fun r => keys_match [a; y]
                         [get ["animal_group"; "cal_year"; "cost"] r
                            "animal_group";
                          get ["animal_group"; "cal_year"; "cost"] r
                            "cal_year"])
             (fun r : Row =>
                if row_eq_dec (firstn 2 r) [a; y] then true else false)).
  2:{ intros r Hr. destruct (Hwf r Hr) as (a' & y' & c & -> & _ & _).
      cbn [get String.eqb Ascii.eqb Bool.eqb keys_match firstn].
      rewrite andb_true_r.
      destruct (row_eq_dec [a'; y'] [a; y]) as [E'|N].
      - injection E' as -> ->. apply andb_true_iff.
        split; now apply key_match_eq.
      - apply andb_false_iff.
        destruct (key_match a a') eqn:E1; [|now left].
        destruct (key_match y y') eqn:E2; [|now right].
        apply key_match_eq in E1, E2; try assumption. subst.
        now contradiction N. }
  rewrite <- E. destruct sel as [|m ms]; [reflexivity|].
  change (map (fun r : Row =>
                 a :: y :: match r with
                           | _ :: _ :: v1 :: _ => [v1]
                           | _ => []
                           end) (m :: ms)
          = map (fun r : Row => [a; y; nth 2 r VNull]) (m :: ms)).
  apply map_ext_in. intros r Hr.
  assert (Hin : In r rws).
  { rewrite E in Hr. apply filter_In in Hr. tauto. }
  destruct (Hwf r Hin) as (a' & y' & c & -> & _ & _). reflexivity.
Qed.

Lemma cross_join_result_rows (rws : list Row) :
  let cols := ["animal_group"; "cal_year"; "cost"] in
  exists animals cal_years result final,
    cross_join_result (mkDF cols rws) = Some (mkDF cols final)
    /\ Permutation animals
         (nodup row_eq_dec (map (fun r => [get cols r "animal_group"]) rws))
    /\ Permutation cal_years
         (nodup row_eq_dec (map (fun r => [get cols r "cal_year"]) rws))
    /\ Permutation result
         (flat_map (fun a => map (fun b => a ++ b) cal_years) animals)
    /\ Permutation final
         (map (fill_row (VDouble 0) "cost" cols)
            (flat_map
               (join_on_rows how_left ["animal_group"; "cal_year"] cols
                  ["animal_group"; "cal_year"] rws)
               result)).
Proof.
  intros cols. unfold cross_join_result.
  change (select ["animal_group"] (mkDF cols rws))
    with (Some (mkDF ["animal_group"]
                  (map (fun r => [get cols r "animal_group"]) rws))).
  change (select ["cal_year"] (mkDF cols rws))
    with (Some (mkDF ["cal_year"]
                  (map (fun r => [get cols r "cal_year"]) rws))).
  cbv iota beta.
  destruct (orderBy_spec ["animal_group"]
              (df_distinct (mkDF ["animal_group"]
                 (map (fun r => [get cols r "animal_group"]) rws)))
              eq_refl) as (animals & -> & Ha).
  destruct (orderBy_spec ["cal_year"]
              (df_distinct (mkDF ["cal_year"]
                 (map (fun r => [get cols r "cal_year"]) rws)))
              eq_refl) as (cal_years & -> & Hy).
  cbv iota beta. cbn [df_distinct columns rows] in *.
  destruct (orderBy_spec ["animal_group"; "cal_year"]
              (crossJoin (mkDF ["animal_group"] animals)
                 (mkDF ["cal_year"] cal_years))
              eq_refl) as (result & -> & Hr).
  cbn [crossJoin columns rows app] in *.
  change (join_on (mkDF ["animal_group"; "cal_year"] result) (mkDF cols rws)
            ["animal_group"; "cal_year"] how_left)
    with (Some (mkDF cols
                  (flat_map
                     (join_on_rows how_left ["animal_group"; "cal_year"] cols
                        ["animal_group"; "cal_year"] rws)
                     result))).
  cbv iota beta.
  destruct (orderBy_spec ["animal_group"; "cal_year"]
              (fillna (VDouble 0) "cost"
                 (mkDF cols
                    (flat_map
                       (join_on_rows how_left ["animal_group"; "cal_year"]
                          cols ["animal_group"; "cal_year"] rws)
                       result)))
              eq_refl) as (final & -> & Hf).
  cbn [fillna columns rows] in *.
  exists animals, cal_years, result, final. repeat split; assumption.
Qed.

Lemma pair_filter_in (rws : list Row) (a y : value) (r : Row) :
  (forall r, In r rws -> exists a y c, r = [a; y; c] /\ a <> VNull /\ y <> VNull) ->
  In r (filter (fun r : Row => if row_eq_dec (firstn 2 r) [a; y]
                               then true else false) rws)
  <-> exists c, r = [a; y; c] /\ In [a; y; c] rws.
Proof.
  intros Hwf. rewrite filter_In. split.
  - intros [Hin Hk]. destruct (Hwf r Hin) as (a' & y' & c & -> & _ & _).
    cbn [firstn] in Hk.
    destruct (row_eq_dec [a'; y'] [a; y]) as [E|]; [|discriminate].
    injection E as -> ->. now exists c.
  - intros (c & -> & Hin). split; [assumption|]. cbn [firstn].
    now destruct (row_eq_dec [a; y] [a; y]).
Qed.

Lemma join_on_rows_pair_in (rws : list Row) (a y : value) (j : Row) :
  (forall r, In r rws -> exists a y c, r = [a; y; c] /\ a <> VNull /\ y <> VNull) ->
  a <> VNull -> y <> VNull ->
  In j (join_on_rows how_left ["animal_group"; "cal_year"]
          ["animal_group"; "cal_year"; "cost"] ["animal_group"; "cal_year"]
          rws [a; y])
  <-> (exists c, In [a; y; c] rws /\ j = [a; y; c])
      \/ ((forall c, ~ In [a; y; c] rws) /\ j = [a; y; VNull]).
Proof.
  intros Hwf Ha Hy. rewrite join_on_rows_pair by assumption.
  assert (Hsel := fun r => pair_filter_in rws a y r Hwf).
  destruct (filter _ rws) as [|m ms].
  - split.
    + intros [<-|[]]. right. split; [|reflexivity].
      intros c Hc. apply (proj2 (Hsel [a; y; c])). now exists c.
    + intros [(c & Hc & _)|[_ ->]]; [|now left].
      exfalso. apply (proj2 (Hsel [a; y; c])). now exists c.
  - rewrite in_map_iff. split.
    + intros (r & <- & Hr). apply Hsel in Hr. destruct Hr as (c & -> & Hc).
      left. now exists c.
    + intros [(c & Hc & ->)|[Hno _]].
      * exists [a; y; c]. split; [reflexivity|]. apply Hsel. now exists c.
      * exfalso. destruct (proj1 (Hsel m) (or_introl eq_refl))
          as (c & _ & Hc). exact (Hno c Hc).
Qed.

Lemma pair_filter_unique (rws : list Row) (k : Row) :
  NoDup (map (firstn 2) rws) ->
  (List.length (filter (fun r : Row => if row_eq_dec (firstn 2 r) k
                                       then true else false) rws) <= 1)%nat.
Proof.
  induction rws as [|r rs IH]; intros Hnd; [simpl; lia|].
  inversion Hnd as [|? ? Hnotin Hnd']; subst. cbn [filter].
  destruct (row_eq_dec (firstn 2 r) k) as [E|N]; [|now apply IH].
  cbn [List.length]. rewrite filter_none; [simpl; lia|].
  intros x Hx. destruct (row_eq_dec (firstn 2 x) k) as [Ex|]; [|reflexivity].
  exfalso. apply Hnotin.
  assert (Hin : In (firstn 2 x) (map (firstn 2) rs)) by now apply in_map.
  rewrite Ex, <- E in Hin. exact Hin.
Qed.

Lemma join_on_rows_pair_length (rws : list Row) (a y : value) :
  (forall r, In r rws -> exists a y c, r = [a; y; c] /\ a <> VNull /\ y <> VNull) ->
  a <> VNull -> y <> VNull ->
  (1 <= List.length
          (join_on_rows how_left ["animal_group"; "cal_year"]
             ["animal_group"; "cal_year"; "cost"] ["animal_group"; "cal_year"]
             rws [a; y]))%nat
  /\ (NoDup (map (firstn 2) rws) ->
      List.length
        (join_on_rows how_left ["animal_group"; "cal_year"]
           ["animal_group"; "cal_year"; "cost"] ["animal_group"; "cal_year"]
           rws [a; y]) = 1%nat).
Proof.
  intros Hwf Ha Hy. rewrite join_on_rows_pair by assumption.
  assert (Hu := pair_filter_unique rws [a; y]).
  destruct (filter _ rws) as [|m ms].
  - split; [simpl; lia|reflexivity].
  - rewrite length_map. cbn [List.length] in *. split; [lia|].
    intros Hnd. specialize (Hu Hnd).
    destruct ms; [reflexivity|]. cbn [List.length] in Hu. lia.
Qed.

Lemma flat_map_length_ge {A B : Type} (f : A -> list B) (l : list A) :
  (forall x, In x l -> (1 <= List.length (f x))%nat) ->
  (List.length l <= List.length (flat_map f l))%nat.
Proof.
  induction l as [|x l IH]; intros H; [simpl; lia|].
  cbn [flat_map List.length]. rewrite length_app.
  specialize (H x (or_introl eq_refl)) as Hx.
  assert (IH' := IH (fun y Hy => H y (or_intror Hy))). lia.
Qed.

Lemma distinct_cells_length (f : Row -> value) (rws : list Row) :
  List.length (nodup row_eq_dec (map (fun r => [f r]) rws))
  = List.length (nodup value_eq_dec (map f rws)).
Proof.
  rewrite <- (map_map f (fun v => [v])).
  rewrite (nodup_map_inj value_eq_dec row_eq_dec (fun v => [v]))
    by (intros x y E; now injection E).
  apply length_map.
Qed.

Lemma cross_rows_in (rws animals cal_years result : list Row) (l : Row) :
  let cols := ["animal_group"; "cal_year"; "cost"] in
  Permutation animals
    (nodup row_eq_dec (map (fun r => [get cols r "animal_group"]) rws)) ->
  Permutation cal_years
    (nodup row_eq_dec (map (fun r => [get cols r "cal_year"]) rws)) ->
  Permutation result
    (flat_map (fun a => map (fun b => a ++ b) cal_years) animals) ->
  In l result
  <-> exists a y,
        (exists r, In r rws /\ get cols r "animal_group" = a)
        /\ (exists r, In r rws /\ get cols r "cal_year" = y)
        /\ l = [a; y].
Proof.
  intros cols Ha Hy Hr.
  assert (HA : forall x, In x animals
                 <-> exists r, In r rws /\ [get cols r "animal_group"] = x).
  { intros x. split.
    - intros H. apply (Permutation_in _ Ha) in H.
      apply nodup_In, in_map_iff in H. destruct H as (r & E & Hin).
      now exists r.
    - intros (r & Hin & E). apply (Permutation_in _ (Permutation_sym Ha)).
      apply nodup_In, in_map_iff. now exists r. }
  assert (HY : forall x, In x cal_years
                 <-> exists r, In r rws /\ [get cols r "cal_year"] = x).
  { intros x. split.
    - intros H. apply (Permutation_in _ Hy) in H.
      apply nodup_In, in_map_iff in H. destruct H as (r & E & Hin).
      now exists r.
    - intros (r & Hin & E). apply (Permutation_in _ (Permutation_sym Hy)).
      apply nodup_In, in_map_iff. now exists r. }
  split.
  - intros H. apply (Permutation_in _ Hr) in H.
    apply in_flat_map in H. destruct H as (x & Hx & H).
    apply in_map_iff in H. destruct H as (z & <- & Hz).
    apply HA in Hx. apply HY in Hz.
    destruct Hx as (r1 & H1 & <-), Hz as (r2 & H2 & <-).
    exists (get cols r1 "animal_group"), (get cols r2 "cal_year").
    split; [now exists r1|]. split; [now exists r2|reflexivity].
  - intros (a & y & (r1 & H1 & E1) & (r2 & H2 & E2) & ->).
    apply (Permutation_in _ (Permutation_sym Hr)).
    apply in_flat_map. exists [a]. split.
    + apply HA. exists r1. now rewrite E1.
    + apply in_map_iff. exists [y]. split; [reflexivity|].
      apply HY. exists r2. now rewrite E2.
Qed.

(** X17. The cells of the cross-join page from [animals] to the final
    [result], run on grouped data with the columns animal_group, cal_year
    and cost, no null key and doubles as costs: the result has the same
    three columns and holds exactly the combinations of an animal and a
    year of the data.  A combination the data has carries its cost (a
    null cost becoming 0), a combination it lacks carries 0, so no cost
    is null.  There are at least as many rows as distinct animals times
    distinct years, and exactly that many when no (animal, year) pair
    occurs twice. *)
Theorem cross_join_fills_gaps (rws : list Row) :
  let cols := ["animal_group"; "cal_year"; "cost"] in
  let n_animals :=
    List.length
      (nodup value_eq_dec (map (fun r => get cols r "animal_group") rws)) in
  let n_years :=
    List.length
      (nodup value_eq_dec (map (fun r => get cols r "cal_year") rws)) in
  wf_costs (mkDF cols rws) = true ->
  exists result,
    cross_join_result (mkDF cols rws) = Some result
    /\ columns result = cols
    /\ (forall row, In row (rows result)
          <-> exists a y,
                (exists r, In r rws /\ get cols r "animal_group" = a)
                /\ (exists r, In r rws /\ get cols r "cal_year" = y)
                /\ ((exists c, In [a; y; c] rws
                       /\ row = [a; y; match c with
                                       | VNull => VDouble 0
                                       | _ => c
                                       end])
                    \/ ((forall c, ~ In [a; y; c] rws)
                        /\ row = [a; y; VDouble 0])))
    /\ (forall row, In row (rows result) -> get cols row "cost" <> VNull)
    /\ Z.of_nat n_animals * Z.of_nat n_years <= count result
    /\ (NoDup (map (firstn 2) rws) ->
        count result = Z.of_nat n_animals * Z.of_nat n_years).
Proof.
  intros cols n_animals n_years Hwf0.
  assert (Hwf := wf_costs_spec rws Hwf0).
  destruct (cross_join_result_rows rws)
    as (animals & cal_years & result & final & Hres & Ha & Hy & Hr & Hf).
  fold cols in Hres, Ha, Hy, Hf.
  assert (Hin := fun l => cross_rows_in rws animals cal_years result l
                            Ha Hy Hr).
  fold cols in Hin.
  assert (Hkeys : forall l, In l result ->
            exists a y, l = [a; y] /\ a <> VNull /\ y <> VNull
              /\ (exists r, In r rws /\ get cols r "animal_group" = a)
              /\ (exists r, In r rws /\ get cols r "cal_year" = y)).
  { intros l Hl. apply Hin in Hl.
    destruct Hl as (a & y & (r1 & H1 & E1) & (r2 & H2 & E2) & ->).
    exists a, y. split; [reflexivity|].
    destruct (Hwf r1 H1) as (a1 & y1 & c1 & -> & Hn1 & _).
    destruct (Hwf r2 H2) as (a2 & y2 & c2 & -> & _ & Hn2).
    cbn in E1, E2. subst a y.
    split; [assumption|]. split; [assumption|].
    split; [now exists [a1; y1; c1]|now exists [a2; y2; c2]]. }
  assert (Hmem : forall row, In row final
            <-> exists a y,
                  (exists r, In r rws /\ get cols r "animal_group" = a)
                  /\ (exists r, In r rws /\ get cols r "cal_year" = y)
                  /\ ((exists c, In [a; y; c] rws
                         /\ row = [a; y; match c with
                                         | VNull => VDouble 0
                                         | _ => c
                                         end])
                      \/ ((forall c, ~ In [a; y; c] rws)
                          /\ row = [a; y; VDouble 0]))).
  { intros row. split.
    - intros H. apply (Permutation_in _ Hf) in H.
      apply in_map_iff in H. destruct H as (j & <- & Hj).
      apply in_flat_map in Hj. destruct Hj as (l & Hl & Hj).
      destruct (Hkeys l Hl) as (a & y & -> & Hna & Hny & HA & HY).
      apply join_on_rows_pair_in in Hj; try assumption.
      exists a, y. split; [assumption|]. split; [assumption|].
      destruct Hj as [(c & Hc & ->)|[Hno ->]].
      + left. exists c. split; [assumption|]. reflexivity.
      + right. split; [assumption|reflexivity].
    - intros (a & y & HA & HY & Hrow).
      apply (Permutation_in _ (Permutation_sym Hf)).
      assert (Hl : In [a; y] result) by (apply Hin; now exists a, y).
      destruct (Hkeys _ Hl) as (a' & y' & E & Hna & Hny & _).
      injection E as <- <-.
      apply in_map_iff.
      destruct Hrow as [(c & Hc & ->)|[Hno ->]].
      + exists [a; y; c]. split; [reflexivity|].
        apply in_flat_map. exists [a; y]. split; [assumption|].
        apply join_on_rows_pair_in; try assumption. left. now exists c.
      + exists [a; y; VNull]. split; [reflexivity|].
        apply in_flat_map. exists [a; y]. split; [assumption|].
        apply join_on_rows_pair_in; try assumption. right. now split. }
  assert (Hlen : List.length result = (n_animals * n_years)%nat).
  { rewrite (Permutation_length Hr).
    rewrite (flat_map_pairs_length (fun x y : Row => x ++ y)).
    rewrite (Permutation_length Ha), (Permutation_length Hy).
    now rewrite !distinct_cells_length. }
  assert (Hcount : List.length final
                   = List.length
                       (flat_map
                          (join_on_rows how_left ["animal_group"; "cal_year"]
                             cols ["animal_group"; "cal_year"] rws) result)).
  { rewrite (Permutation_length Hf). apply length_map. }
  exists (mkDF cols final). split; [exact Hres|]. split; [reflexivity|].
  cbn [rows]. split; [exact Hmem|]. split; [|split].
  - intros row Hrow. apply Hmem in Hrow.
    destruct Hrow as (a & y & _ & _ & [(c & _ & ->)|[_ ->]]).
    + cbn. now destruct c.
    + cbn. discriminate.
  - unfold count. cbn [rows]. rewrite <- Nat2Z.inj_mul, <- Hlen, Hcount.
    apply Nat2Z.inj_le. apply flat_map_length_ge.
    intros l Hl. destruct (Hkeys l Hl) as (a & y & -> & Hna & Hny & _).
    now apply join_on_rows_pair_length.
  - intros Hnd. unfold count. cbn [rows].
    rewrite <- Nat2Z.inj_mul, <- Hlen, Hcount. f_equal.
    assert (Hb := flat_map_length_bounds
                    (join_on_rows how_left ["animal_group"; "cal_year"]
                       cols ["animal_group"; "cal_year"] rws) result 1 1).
    assert (Hone : forall l, In l result ->
              (1 <= List.length
                      (join_on_rows how_left ["animal_group"; "cal_year"]
                         cols ["animal_group"; "cal_year"] rws l) <= 1)%nat).
    { intros l Hl. destruct (Hkeys l Hl) as (a & y & -> & Hna & Hny & _).
      destruct (join_on_rows_pair_length rws a y Hwf Hna Hny) as [_ H1].
      fold cols in H1. rewrite (H1 Hnd). lia. }
    destruct (Hb Hone) as [Hlo Hhi]. rewrite Nat.mul_1_l in Hlo, Hhi.
    apply Nat.le_antisymm; [exact Hhi|exact Hlo].
Qed.

Lemma cross_join_fills_gaps_demo :
  wf_costs demo_costs = true
  /\ exists result,
       cross_join_result demo_costs = Some result
       /\ In [VStr "Hamster"; VLong 2015; VDouble 0] (rows result)
       /\ count result = 12.
Proof.
  split; [reflexivity|].
  destruct (cross_join_fills_gaps (rows demo_costs) eq_refl)
    as (result & Hres & _ & Hmem & _ & _ & Hcount).
  exists result. split; [exact Hres|]. split.
  - apply Hmem. exists (VStr "Hamster"), (VLong 2015).
    split; [exists [VStr "Hamster"; VLong 2010; VDouble 780]; split;
            [cbn; tauto|reflexivity]|].
    split; [exists [VStr "Deer"; VLong 2015; VDouble 1788]; split;
            [cbn; tauto|reflexivity]|].
    right. split; [|reflexivity].
    intros c Hc. cbn in Hc.
    repeat (destruct Hc as [Hc|Hc]; [discriminate|]). exact Hc.
  - rewrite Hcount; [reflexivity|].
    cbn. repeat constructor; cbn; intuition discriminate.
Defined.
